(** * Resilient-call wrappers of the Vantige SDK documentation examples

    A shallow embedding of the TypeScript classes published in
    [docs/examples/error-handling.md] and [docs/examples/advanced-queries.md]:
    [RetryableVantigeClient], [CircuitBreakerClient], [MonitoredVantigeClient],
    [CachedVantigeClient] and [ResilientSearchClient], together with the
    "Complete Error Handling Example" that wires them up.

    Conventions of the embedding.
    - An [async] method is a function from the world before the call to an
      outcome and the world after it.  The world is abstract: the code only
      reads the clock ([Date.now()]), draws random numbers ([Math.random()])
      and suspends ([setTimeout]); these are the operations of class [Env].
    - A thrown exception is the outcome [Thrown]; a resolved promise is
      [Returned].
    - Private mutable fields of an object are an explicit state record that
      is threaded next to the world.
    - JavaScript [number]s that only ever hold integers (counters, time
      stamps in milliseconds, HTTP status codes) are [Z].  The delays of
      the retry wrapper are computed in double-precision arithmetic: their
      type and operations are the signature [JsNumber], and what is proved
      of them holds for every implementation of that signature.  Numbers
      given as data (options, the [retryAfter] detail, the value of
      [Math.random()]) are the rationals [Q] they denote.
    - Strings are byte strings; [toLowerCase], [trim] and the splitting at
      blanks are those of JavaScript on ASCII text.
    - [console.log] / [console.error] have no effect on the modelled state
      and are omitted. *)

From Stdlib Require Import ZArith QArith Qround Qminmax Qpower Lia Lqa String Ascii.
From Stdlib Require Floats.
From stdpp Require Import base tactics option list gmap strings.

Local Open Scope Z_scope.

(** ** Data model *)

(** [interface QueryParams] (docs/api/types.md). *)
Record QueryParams := mkQueryParams {
  corpusId : string;
  query : string;
  limit : option Z;
  generateAnswer : option bool;
}.

(** [interface SearchResult] and [interface QueryResponse]
    (docs/api/types.md); [metadata] is not read by the modelled code. *)
Record ResultItem := mkResultItem {
  id : string;
  title : string;
  content : string;
  score : Q;
}.

Record QueryResponse := mkQueryResponse {
  results : list ResultItem;
  answer : option string;
  queryId : string;
  responseCorpusId : string;
}.

(** [details: Record<string, any>] of an SDK error.  The wrappers read one
    key only, [retryAfter] (seconds). *)
Record ErrorDetails := mkErrorDetails {
  retryAfter : option Q;
}.

(** [class VantigeSDKError extends Error] (error reference page). *)
Record VantigeSDKError := mkSDKError {
  code : Z;
  message : string;
  details : option ErrorDetails;
}.

(** Anything that can be thrown: an SDK error, or another [Error] object
    (for which [instanceof VantigeSDKError] is false).  Node's system errors
    carry a string [code] such as ['ECONNRESET']; a plain [new Error(msg)]
    has none. *)
Inductive JsError :=
| SDKError (e : VantigeSDKError)
| PlainError (errno : option string) (msg : string).

Inductive Outcome :=
| Returned (response : QueryResponse)
| Thrown (error : JsError).

Definition is_thrown (o : Outcome) : bool :=
  match o with Thrown _ => true | Returned _ => false end.

(** ** JavaScript numbers

    [calculateDelay] computes with IEEE 754 doubles: the operations round,
    they can overflow to an infinity or produce NaN, and [Math.pow] is
    specified only up to an approximation.  The embedding takes the type
    of numbers and the operations the code uses as a signature. *)

Class JsNumber := {
  number : Type;
  (** the number denoted by a numeric literal or by a number given as
      data: the double nearest to the rational *)
  lit : Q -> number;
  (** [x * y] and [x + y] *)
  num_mul : number -> number -> number;
  num_add : number -> number -> number;
  (** [Math.min(x, y)], [Math.pow(x, y)], [Math.floor(x)] *)
  Math_min : number -> number -> number;
  Math_pow : number -> number -> number;
  Math_floor : number -> number;
  (** truthiness of a number: it is neither a zero nor NaN *)
  num_truthy : number -> bool;
  (** [x <= y], which is false as soon as one side is NaN *)
  num_le : number -> number -> Prop;
  (** [Number.isFinite(x)] *)
  num_finite : number -> Prop;
}.

(** The facts of IEEE 754 arithmetic (rounding to nearest) that the
    bounds on the delay rest on: rounding is monotone, multiplying by one
    and adding zero are exact, and a NaN only comes from an operand that
    is not finite. *)
Class IEEE754 `{JsNumber} : Prop := {
  num_le_trans : ∀ a b c, num_le a b → num_le b c → num_le a c;
  finite_between : ∀ a b c,
    num_finite a → num_finite c → num_le a b → num_le b c → num_finite b;
  finite_unit : ∀ q, (0 <= q)%Q → (q <= 1)%Q → num_finite (lit q);
  lit_mono : ∀ p q, (p <= q)%Q → num_le (lit p) (lit q);
  mul_mono : ∀ a b k,
    num_finite a → num_finite b → num_finite k → num_le (lit 0) k →
    num_le a b → num_le (num_mul a k) (num_mul b k);
  mul_zero : ∀ k, num_finite k → num_le (lit 0) (num_mul (lit 0) k);
  mul_one : ∀ k, num_le k k → num_le (num_mul (lit 1) k) k;
  add_mono : ∀ a b k,
    num_finite k → num_le a b → num_le (num_add k a) (num_add k b);
  add_zero : ∀ k, num_finite k → num_le k (num_add k (lit 0));
  floor_mono : ∀ a b, num_le a b → num_le (Math_floor a) (Math_floor b);
}.

(** ** The environment *)

Class Env `{JsNumber} (W : Type) := {
  (** [Date.now()] *)
  now : W -> Z;
  (** [Math.random()]: the number drawn and the world afterwards *)
  random : W -> Q * W;
  (** [await new Promise(resolve => setTimeout(resolve, ms))] *)
  sleep : number -> W -> W;
}.

(** The call contract every layer implements and consumes:
    [query(params: QueryParams): Promise<QueryResponse>]. *)
Definition Client (W : Type) : Type := QueryParams -> W -> Outcome * W.

(** An object with private state [S] living in a world [W] is a client of
    the world [S * W]; the environment is that of [W]. *)
#[export] Instance Env_with_state {S W : Type} `{Env W} : Env (S * W) := {
  now sw := now (snd sw);
  random sw := let '(r, w') := random (snd sw) in (r, (fst sw, w'));
  sleep ms sw := (fst sw, sleep ms (snd sw));
}.

(** Instrumentation used to state "the inner operation was invoked n
    times": the wrapped client records the outcome of each of its
    invocations, most recent first. *)
Definition recorded {W : Type} (inner : Client W) : Client (list Outcome * W) :=
  fun params lw =>
    let '(o, w') := inner params (snd lw) in
    (o, (o :: fst lw, w')).

Definition invocations {W : Type} (lw : list Outcome * W) : nat := length (fst lw).

(** ** Retry with exponential backoff *)

Module RetryableVantigeClient.

(** [interface RetryOptions]: every field optional. *)
Record RetryOptions := mkRetryOptions {
  maxRetries : option Z;
  initialDelay : option Q;
  maxDelay : option Q;
  backoffMultiplier : option Q;
  retryableErrors : option (list Z);
}.

(** [Required<RetryOptions>] *)
Record Options := mkOptions {
  opt_maxRetries : Z;
  opt_initialDelay : Q;
  opt_maxDelay : Q;
  opt_backoffMultiplier : Q;
  opt_retryableErrors : list Z;
}.

(** The field initialiser of [defaultOptions]. *)
Definition builtinOptions : Options := {|
  opt_maxRetries := 3;
  opt_initialDelay := 1000;
  opt_maxDelay := 30000;
  opt_backoffMultiplier := 2;
  opt_retryableErrors := [429; 500; 502; 503; 504];
|}.

Definition noOptions : RetryOptions := mkRetryOptions None None None None None.

(** [{ ...base, ...options }] *)
Definition spread (base : Options) (options : RetryOptions) : Options := {|
  opt_maxRetries := default (opt_maxRetries base) (maxRetries options);
  opt_initialDelay := default (opt_initialDelay base) (initialDelay options);
  opt_maxDelay := default (opt_maxDelay base) (maxDelay options);
  opt_backoffMultiplier := default (opt_backoffMultiplier base) (backoffMultiplier options);
  opt_retryableErrors := default (opt_retryableErrors base) (retryableErrors options);
|}.

Definition networkCodes : list string :=
  ["ECONNRESET"; "ETIMEDOUT"; "ENOTFOUND"]%string.

(** [private isRetryable(error, retryableErrors)] *)
Definition isRetryable (error : JsError) (retryable : list Z) : bool :=
  match error with
  | PlainError errno _ =>
      match errno with
      | Some c => bool_decide (c ∈ networkCodes)
      | None => false
      end
  | SDKError e => bool_decide (code e ∈ retryable)
  end.

Section WithNumbers.
Context `{JsNumber}.

(** [error.details?.retryAfter] when it is truthy: present, and neither
    zero nor NaN. *)
Definition retryAfterHint (e : VantigeSDKError) : option number :=
  match details e with
  | Some d =>
      match retryAfter d with
      | Some s => if num_truthy (lit s) then Some (lit s) else None
      | None => None
      end
  | None => None
  end.

(** [Math.min(initialDelay * Math.pow(backoffMultiplier, attempt), maxDelay)] *)
Definition exponentialDelay (attempt : Z) (options : Options) : number :=
  Math_min (num_mul (lit (opt_initialDelay options))
                    (Math_pow (lit (opt_backoffMultiplier options))
                              (lit (inject_Z attempt))))
           (lit (opt_maxDelay options)).

(** [Math.floor(exponentialDelay + Math.random() * 0.3 * exponentialDelay)],
    for the random number [r]. *)
Definition jittered (base : number) (r : Q) : number :=
  Math_floor (num_add base (num_mul (num_mul (lit r) (lit (3 # 10))) base)).

End WithNumbers.

Section WithEnv.
Context {W : Type} `{Env W}.

(** [private calculateDelay(attempt, error, options)].  [Math.random()]
    is only called on the backoff path. *)
Definition calculateDelay (attempt : Z) (error : JsError) (options : Options)
    (w : W) : number * W :=
  let backoff :=
    let '(r, w') := random w in
    (jittered (exponentialDelay attempt options) r, w') in
  match error with
  | SDKError e =>
      if code e =? 429 then
        match retryAfterHint e with
        | Some s => (num_mul s (lit 1000), w)
        | None => backoff
        end
      else backoff
  | PlainError _ _ => backoff
  end.

(** The statement after the loop:
    [throw lastError || new Error('All retries failed')]. *)
Definition throwLast (lastError : option JsError) : Outcome :=
  Thrown (default (PlainError None "All retries failed") lastError).

(** The [for] loop of [query], [for (attempt = 0; attempt <= maxRetries;
    attempt++)].  [remaining] is the number of iterations left before the
    loop condition fails: [query] starts it with [maxRetries + 1] (none
    when that is negative), and it decreases as [attempt] increases, so
    [remaining = 0] exactly when [attempt > maxRetries]. *)
Fixpoint attempts (client : Client W) (opts : Options) (params : QueryParams)
    (remaining : nat) (attempt : Z) (lastError : option JsError) (w : W)
    : Outcome * W :=
  match remaining with
  | O => (throwLast lastError, w)
  | S remaining' =>
      let '(o, w1) := client params w in
      match o with
      | Returned response => (Returned response, w1)
      | Thrown error =>
          if negb (isRetryable error (opt_retryableErrors opts)) then
            (Thrown error, w1)
          else if attempt =? opt_maxRetries opts then
            (throwLast (Some error), w1)
          else
            let '(delay, w2) := calculateDelay attempt error opts w1 in
            attempts client opts params remaining' (attempt + 1) (Some error)
                     (sleep delay w2)
      end
  end.

(** The object: its inner client and its [defaultOptions] field. *)
Record t := mk {
  client : Client W;
  defaultOptions : Options;
}.

(** [constructor(client, options?)] *)
Definition new (client : Client W) (options : RetryOptions) : t :=
  {| client := client; defaultOptions := spread builtinOptions options |}.

(** [async query(params, options?)] *)
Definition query (self : t) (params : QueryParams) (options : RetryOptions)
    : W -> Outcome * W :=
  let opts := spread (defaultOptions self) options in
  attempts (client self) opts params (Z.to_nat (opt_maxRetries opts + 1)) 0 None.

(** The object seen through the call contract, as the circuit breaker
    calls it: [this.client.query(params)]. *)
Definition asClient (self : t) : Client W :=
  fun params => query self params noOptions.

End WithEnv.

End RetryableVantigeClient.

(** ** Circuit breaker *)

Module CircuitBreakerClient.

(** [enum CircuitState] *)
Inductive CircuitState := CLOSED | OPEN | HALF_OPEN.

#[global] Instance CircuitState_eq_dec : EqDecision CircuitState.
Proof. solve_decision. Defined.

(** [interface CircuitBreakerOptions]: every field optional. *)
Record CircuitBreakerOptions := mkCircuitBreakerOptions {
  failureThreshold : option Z;
  resetTimeout : option Z;
  monitoringPeriod : option Z;
}.

(** [Required<CircuitBreakerOptions>] *)
Record Options := mkOptions {
  opt_failureThreshold : Z;
  opt_resetTimeout : Z;
  opt_monitoringPeriod : Z;
}.

Definition builtinOptions : Options := {|
  opt_failureThreshold := 5;
  opt_resetTimeout := 60000;
  opt_monitoringPeriod := 60000;
|}.

Definition noOptions : CircuitBreakerOptions :=
  mkCircuitBreakerOptions None None None.

(** [{ ...this.options, ...options }] *)
Definition spread (base : Options) (options : CircuitBreakerOptions) : Options := {|
  opt_failureThreshold := default (opt_failureThreshold base) (failureThreshold options);
  opt_resetTimeout := default (opt_resetTimeout base) (resetTimeout options);
  opt_monitoringPeriod := default (opt_monitoringPeriod base) (monitoringPeriod options);
|}.

(** The literal [3] of [onSuccess]: successes needed to close again. *)
Definition successThreshold : Z := 3.

(** The private mutable fields. *)
Record State := mkState {
  state : CircuitState;
  failures : Z;
  lastFailureTime : option Z;
  successCount : Z;
}.

(** The field initialisers. *)
Definition initial : State := {|
  state := CLOSED;
  failures := 0;
  lastFailureTime := None;
  successCount := 0;
|}.

Definition circuitOpen : JsError :=
  PlainError None "Circuit breaker is OPEN - service unavailable".

(** [private shouldAttemptReset()], at clock reading [t]. *)
Definition shouldAttemptReset (opts : Options) (st : State) (t : Z) : bool :=
  match lastFailureTime st with
  | Some last => opt_resetTimeout opts <=? t - last
  | None => false
  end.

(** The "Check circuit state" block at the head of [query]: [None] when
    the call is rejected, otherwise the state the call is attempted in. *)
Definition checkState (opts : Options) (st : State) (t : Z) : option State :=
  match state st with
  | OPEN =>
      if shouldAttemptReset opts st t then
        Some {| state := HALF_OPEN; failures := failures st;
                lastFailureTime := lastFailureTime st;
                successCount := successCount st |}
      else None
  | CLOSED | HALF_OPEN => Some st
  end.

(** [private onSuccess()] *)
Definition onSuccess (st : State) : State :=
  match state st with
  | HALF_OPEN =>
      let successCount' := successCount st + 1 in
      if successThreshold <=? successCount' then
        {| state := CLOSED; failures := 0;
           lastFailureTime := lastFailureTime st; successCount := 0 |}
      else
        {| state := HALF_OPEN; failures := 0;
           lastFailureTime := lastFailureTime st; successCount := successCount' |}
  | s =>
      {| state := s; failures := 0;
         lastFailureTime := lastFailureTime st; successCount := successCount st |}
  end.

(** [private onFailure(error)], at clock reading [t]. *)
Definition onFailure (opts : Options) (t : Z) (st : State) : State :=
  match state st with
  | HALF_OPEN =>
      {| state := OPEN; failures := failures st;
         lastFailureTime := Some t; successCount := 0 |}
  | s =>
      let failures' := failures st + 1 in
      {| state := if opt_failureThreshold opts <=? failures' then OPEN else s;
         failures := failures';
         lastFailureTime := Some t; successCount := 0 |}
  end.

Section WithEnv.
Context {W : Type} `{Env W}.

(** The immutable part of the object. *)
Record t := mk {
  client : Client W;
  options : Options;
}.

(** [constructor(client, options?)] *)
Definition new (client : Client W) (options : CircuitBreakerOptions) : t :=
  {| client := client; options := spread builtinOptions options |}.

(** [async query(params)] *)
Definition query (self : t) (params : QueryParams) (st : State) (w : W)
    : Outcome * State * W :=
  match checkState (options self) st (now w) with
  | None => (Thrown circuitOpen, st, w)
  | Some st1 =>
      let '(o, w') := client self params w in
      match o with
      | Returned response => (Returned response, onSuccess st1, w')
      | Thrown error => (Thrown error, onFailure (options self) (now w') st1, w')
      end
  end.

(** [getState()] *)
Definition getState (st : State) : CircuitState * Z := (state st, failures st).

Definition asClient (self : t) : Client (State * W) :=
  fun params sw =>
    let '(o, st', w') := query self params (fst sw) (snd sw) in
    (o, (st', w')).

End WithEnv.

End CircuitBreakerClient.

(** ** Error reporting and monitoring *)

Module MonitoredVantigeClient.

(** The [lastError] member of [interface ErrorMetrics]. *)
Record LastError := mkLastError {
  last_code : Z;
  last_message : string;
  last_timestamp : Z;
}.

(** [interface ErrorMetrics] *)
Record ErrorMetrics := mkErrorMetrics {
  totalErrors : Z;
  errorsByCode : gmap Z Z;
  errorRate : Q;
  lastError : option LastError;
}.

Inductive Health := healthy | degraded | unhealthy.

Section WithEnv.
Context {W : Type} `{Env W}.

(** A registered error observer.  An exception escaping from it is
    caught and logged by [notifyErrorCallbacks], so all that remains of
    a callback is what it did to the world. *)
Definition Callback : Type := VantigeSDKError -> W -> W.

(** The private mutable fields. *)
Record State := mkState {
  metrics : ErrorMetrics;
  requests : Z;
  errorCallbacks : list Callback;
}.

Definition initial : State := {|
  metrics := {| totalErrors := 0; errorsByCode := ∅; errorRate := 0;
                lastError := None |};
  requests := 0;
  errorCallbacks := [];
|}.

(** The immutable part of the object. *)
Record t := mk {
  client : Client W;
  windowSize : Z;
}.

(** [constructor(client, windowSize = 100)] *)
Definition new (client : Client W) (windowSize : option Z) : t :=
  {| client := client; windowSize := default 100 windowSize |}.

(** [private updateErrorRate()] *)
Definition updateErrorRate (self : t) (st : State) : State :=
  let recentRequests := Z.min (requests st) (windowSize self) in
  if 0 <? recentRequests then
    {| metrics := {| totalErrors := totalErrors (metrics st);
                     errorsByCode := errorsByCode (metrics st);
                     errorRate := inject_Z (totalErrors (metrics st))
                                  / inject_Z recentRequests;
                     lastError := lastError (metrics st) |};
       requests := requests st;
       errorCallbacks := errorCallbacks st |}
  else st.

(** [private recordError(error)], at clock reading [t]. *)
Definition recordError (self : t) (error : VantigeSDKError) (t : Z) (st : State)
    : State :=
  let count := default 0 (errorsByCode (metrics st) !! code error) in
  updateErrorRate self
    {| metrics := {| totalErrors := totalErrors (metrics st) + 1;
                     errorsByCode := <[code error := count + 1]> (errorsByCode (metrics st));
                     errorRate := errorRate (metrics st);
                     lastError := Some {| last_code := code error;
                                          last_message := message error;
                                          last_timestamp := t |} |};
       requests := requests st;
       errorCallbacks := errorCallbacks st |}.

(** [private notifyErrorCallbacks(error)] *)
Definition notifyErrorCallbacks (error : VantigeSDKError) (st : State) (w : W) : W :=
  fold_left (fun w callback => callback error w) (errorCallbacks st) w.

(** [onError(callback)] *)
Definition onError (callback : Callback) (st : State) : State :=
  {| metrics := metrics st; requests := requests st;
     errorCallbacks := errorCallbacks st ++ [callback] |}.

(** [getMetrics()] *)
Definition getMetrics (st : State) : ErrorMetrics := metrics st.

(** [getHealthStatus()] *)
Definition getHealthStatus (st : State) : Health :=
  if Qlt_le_dec (errorRate (metrics st)) (1 # 100) then healthy
  else if Qlt_le_dec (errorRate (metrics st)) (1 # 10) then degraded
  else unhealthy.

(** [async query(params)] *)
Definition query (self : t) (params : QueryParams) (st : State) (w : W)
    : Outcome * State * W :=
  let st1 := {| metrics := metrics st; requests := requests st + 1;
                errorCallbacks := errorCallbacks st |} in
  let '(o, w') := client self params w in
  match o with
  | Returned response => (Returned response, updateErrorRate self st1, w')
  | Thrown (SDKError e) =>
      let st2 := recordError self e (now w') st1 in
      (Thrown (SDKError e), st2, notifyErrorCallbacks e st2 w')
  | Thrown error => (Thrown error, st1, w')
  end.

Definition asClient (self : t) : Client (State * W) :=
  fun params sw =>
    let '(o, st', w') := query self params (fst sw) (snd sw) in
    (o, (st', w')).

End WithEnv.

End MonitoredVantigeClient.

(** ** String helpers (ASCII model of the JavaScript string methods) *)

(** [String.prototype.toLowerCase], on one character. *)
Definition lowerAscii (c : ascii) : ascii :=
  let n := nat_of_ascii c in
  if ((65 <=? n) && (n <=? 90))%nat then ascii_of_nat (n + 32) else c.

(** [String.prototype.toLowerCase] *)
Fixpoint toLowerCase (s : string) : string :=
  match s with
  | EmptyString => EmptyString
  | String c s' => String (lowerAscii c) (toLowerCase s')
  end.

Fixpoint trimStart (s : string) : string :=
  match s with
  | EmptyString => EmptyString
  | String c s' => if Ascii.is_space c then trimStart s' else s
  end.

(** [String.prototype.trim] *)
Definition trim (s : string) : string :=
  String.rev (trimStart (String.rev (trimStart s))).

(** [Array.prototype.join(' ')] *)
Fixpoint joinSpace (words : list string) : string :=
  match words with
  | [] => EmptyString
  | [w] => w
  | w :: rest => w +:+ " " +:+ joinSpace rest
  end.

(** ** Response cache *)

Module CachedVantigeClient.

(** [interface CacheEntry] *)
Record CacheEntry := mkCacheEntry {
  response : QueryResponse;
  timestamp : Z;
  hits : Z;
}.

(** The cache key.  The source builds the JSON text of the object
    [{corpusId, query, limit, generateAnswer}]; [JSON.stringify] is
    injective on such objects, so the key is modelled by the tuple of
    the four normalised fields.  (The JSON text is never the empty
    string, so the truthiness test [if (lruKey)] of [updateCache] only
    distinguishes [undefined].) *)
Definition CacheKey : Type := string * string * option Z * option bool.

(** [private getCacheKey(params)] *)
Definition getCacheKey (params : QueryParams) : CacheKey :=
  (corpusId params, trim (toLowerCase (query params)), limit params,
   generateAnswer params).

(** [Map<string, CacheEntry>]: a JavaScript [Map] iterates in insertion
    order, and [findLRUKey] depends on that order, so the map is the list
    of its entries, oldest insertion first. *)
Definition Cache : Type := list (CacheKey * CacheEntry).

(** [Map.prototype.get] *)
Fixpoint get (key : CacheKey) (cache : Cache) : option CacheEntry :=
  match cache with
  | [] => None
  | (k, e) :: rest => if decide (k = key) then Some e else get key rest
  end.

(** [Map.prototype.set]: an existing key keeps its position, a new key
    goes to the end. *)
Fixpoint set (key : CacheKey) (entry : CacheEntry) (cache : Cache) : Cache :=
  match cache with
  | [] => [(key, entry)]
  | (k, e) :: rest =>
      if decide (k = key) then (k, entry) :: rest
      else (k, e) :: set key entry rest
  end.

(** [Map.prototype.delete] *)
Fixpoint delete (key : CacheKey) (cache : Cache) : Cache :=
  match cache with
  | [] => []
  | (k, e) :: rest =>
      if decide (k = key) then rest else (k, e) :: delete key rest
  end.

(** [Map.prototype.size] *)
Definition size (cache : Cache) : Z := Z.of_nat (length cache).

(** The score computed in the body of [findLRUKey], at clock reading [t]. *)
Definition score (t : Z) (entry : CacheEntry) : Z :=
  hits entry * 10000 + (t - timestamp entry).

(** One iteration of the [forEach] of [findLRUKey] on the loop state
    [(lruKey, minHits)]; [minHits = None] stands for [Infinity]. *)
Definition lruStep (t : Z) (acc : option CacheKey * option Z)
    (kv : CacheKey * CacheEntry) : option CacheKey * option Z :=
  let s := score t (snd kv) in
  match snd acc with
  | None => (Some (fst kv), Some s)
  | Some minHits => if s <? minHits then (Some (fst kv), Some s) else acc
  end.

(** [private findLRUKey()], at clock reading [t]. *)
Definition findLRUKey (t : Z) (cache : Cache) : option CacheKey :=
  fst (fold_left (lruStep t) cache (None, None)).

Section WithEnv.
Context {W : Type} `{Env W}.

(** The immutable part of the object: the inner client and the two
    [readonly] fields. *)
Record t := mk {
  client : Client W;
  cacheTimeout : Z;
  maxCacheSize : Z;
}.

(** [constructor(client)] with the field initialisers. *)
Definition new (client : Client W) : t :=
  {| client := client; cacheTimeout := 5 * 60 * 1000; maxCacheSize := 100 |}.

(** [private isCacheValid(entry)], at clock reading [t]. *)
Definition isCacheValid (self : t) (entry : CacheEntry) (t : Z) : bool :=
  t - timestamp entry <? cacheTimeout self.

(** [private updateCache(key, response)], at clock reading [t]. *)
Definition updateCache (self : t) (key : CacheKey) (response : QueryResponse)
    (t : Z) (cache : Cache) : Cache :=
  let cache1 :=
    if maxCacheSize self <=? size cache then
      match findLRUKey t cache with
      | Some lruKey => delete lruKey cache
      | None => cache
      end
    else cache in
  set key {| response := response; timestamp := t; hits := 0 |} cache1.

(** [cached.hits++] on the entry stored under [key]. *)
Definition hit (key : CacheKey) (cached : CacheEntry) (cache : Cache) : Cache :=
  set key {| response := response cached; timestamp := timestamp cached;
             hits := hits cached + 1 |} cache.

(** The part of [query] after the cache check: "Make actual query" and
    "Update cache". *)
Definition fetch (self : t) (params : QueryParams) (cacheKey : CacheKey)
    (cache : Cache) (w : W) : Outcome * Cache * W :=
  let '(o, w') := client self params w in
  match o with
  | Returned response =>
      (Returned response, updateCache self cacheKey response (now w') cache, w')
  | Thrown error => (Thrown error, cache, w')
  end.

(** [async query(params)] *)
Definition query (self : t) (params : QueryParams) (cache : Cache) (w : W)
    : Outcome * Cache * W :=
  let cacheKey := getCacheKey params in
  match get cacheKey cache with
  | Some cached =>
      if isCacheValid self cached (now w) then
        (Returned (response cached), hit cacheKey cached cache, w)
      else fetch self params cacheKey cache w
  | None => fetch self params cacheKey cache w
  end.

Definition asClient (self : t) : Client (Cache * W) :=
  fun params sw =>
    let '(o, cache', w') := query self params (fst sw) (snd sw) in
    (o, (cache', w')).

End WithEnv.

End CachedVantigeClient.

(** ** Fallback search *)

Module ResilientSearchClient.

Inductive ResultType := primary | cached | simplified | default_response.
Inductive Confidence := high | medium | low | none.

(** [interface SearchResult] of the error-handling page. *)
Record SearchResult := mkSearchResult {
  sr_type : ResultType;
  sr_answer : option string;
  sr_results : list ResultItem;
  sr_confidence : Confidence;
}.

Definition stopWords : list string :=
  ["what"; "is"; "the"; "how"; "do"; "i"; "can";
   "where"; "when"; "why"; "a"; "an"; "and"; "or"]%string.

(** [private extractKeywords(query)].  [split(/\s+/)] may also yield
    empty words at either end; the length filter drops them, so the
    words are the maximal runs of non-blank characters. *)
Definition extractKeywords (query : string) : list string :=
  filter (fun word => (word ∉ stopWords) ∧ (2 < String.length word)%nat)
         (String.words (toLowerCase query)).

Section WithWorld.
Context {W : Type}.

Record t := mk {
  primaryClient : Client W;
  cacheClient : option (Client W);
}.

(** What a strategy produces: a search result, or a thrown error. *)
Definition Attempt : Type := (SearchResult + JsError) * W.

(** [private async tryPrimarySearch(corpusId, query)] *)
Definition tryPrimarySearch (self : t) (corpusId query : string) (w : W) : Attempt :=
  let '(o, w') := primaryClient self
    (mkQueryParams corpusId query (Some 10) (Some true)) w in
  match o with
  | Returned r => (inl (mkSearchResult primary (answer r) (results r) high), w')
  | Thrown e => (inr e, w')
  end.

(** [private async tryCachedSearch(corpusId, query)] *)
Definition tryCachedSearch (self : t) (corpusId query : string) (w : W) : Attempt :=
  match cacheClient self with
  | None => (inr (PlainError None "No cache client available"), w)
  | Some cacheClient =>
      let '(o, w') := cacheClient
        (mkQueryParams corpusId query (Some 5) (Some false)) w in
      match o with
      | Returned r =>
          (inl (mkSearchResult cached (Some "Showing cached results"%string)
                               (results r) medium), w')
      | Thrown e => (inr e, w')
      end
  end.

(** [private async trySimplifiedSearch(corpusId, query)] *)
Definition trySimplifiedSearch (self : t) (corpusId query : string) (w : W) : Attempt :=
  let simplifiedQuery := joinSpace (extractKeywords query) in
  let '(o, w') := primaryClient self
    (mkQueryParams corpusId simplifiedQuery (Some 3) (Some false)) w in
  match o with
  | Returned r =>
      (inl (mkSearchResult simplified (Some ("Results for: " +:+ simplifiedQuery))
                           (results r) low), w')
  | Thrown e => (inr e, w')
  end.

(** [private returnDefaultResponse(query)] *)
Definition returnDefaultResponse (query : string) (w : W) : Attempt :=
  (inl (mkSearchResult default_response
          (Some "Search is temporarily unavailable. Please try again later."%string)
          [] none), w).

(** The [for (const strategy of strategies)] loop and the [throw] that
    follows it. *)
Fixpoint firstSuccess (strategies : list (W -> Attempt)) (w : W) : Attempt :=
  match strategies with
  | [] => (inr (PlainError None "All search strategies failed"), w)
  | strategy :: rest =>
      match strategy w with
      | (inl result, w') => (inl result, w')
      | (inr _, w') => firstSuccess rest w'
      end
  end.

(** [async searchWithFallback(corpusId, query)] *)
Definition searchWithFallback (self : t) (corpusId query : string) : W -> Attempt :=
  firstSuccess
    [tryPrimarySearch self corpusId query;
     tryCachedSearch self corpusId query;
     trySimplifiedSearch self corpusId query;
     returnDefaultResponse query].

End WithWorld.

End ResilientSearchClient.

(** ** The "Complete Error Handling Example" *)

(** A client of the world [W] used from a world that also holds the
    private state [S] of an object it does not know about. *)
Definition below {S W : Type} (inner : Client W) : Client (S * W) :=
  fun params sw =>
    let '(o, w') := inner params (snd sw) in
    (o, (fst sw, w')).

Module CompleteExample.
Section WithBase.
Context {W : Type} `{Env W}.

(** [new VantigeClient({ apiKey })]: the remote service, opaque. *)
Variable vantigeClient : Client W.

(** The worlds of the successive objects: each adds its own state. *)
Definition BreakerWorld : Type := CircuitBreakerClient.State * W.
Definition MonitorWorld : Type :=
  MonitoredVantigeClient.State (W := BreakerWorld) * BreakerWorld.
Definition CacheWorld : Type := CachedVantigeClient.Cache * MonitorWorld.

(** [new RetryableVantigeClient(vantigeClient)] *)
Definition retryableClient : RetryableVantigeClient.t (W := W) :=
  RetryableVantigeClient.new vantigeClient RetryableVantigeClient.noOptions.

(** [new CircuitBreakerClient(retryableClient)] *)
Definition circuitBreakerClient : CircuitBreakerClient.t (W := W) :=
  CircuitBreakerClient.new (RetryableVantigeClient.asClient retryableClient)
                           CircuitBreakerClient.noOptions.

(** [new MonitoredVantigeClient(circuitBreakerClient)] *)
Definition monitoredClient : MonitoredVantigeClient.t (W := BreakerWorld) :=
  MonitoredVantigeClient.new (CircuitBreakerClient.asClient circuitBreakerClient) None.

(** [new CachedVantigeClient(monitoredClient)] *)
Definition cachedClient : CachedVantigeClient.t (W := MonitorWorld) :=
  CachedVantigeClient.new (MonitoredVantigeClient.asClient monitoredClient).

(** [new ResilientSearchClient(monitoredClient, cachedClient)].  Both
    arguments reach the same [monitoredClient] object: the primary
    client directly, the cache client through the cache. *)
Definition resilientClient : ResilientSearchClient.t (W := CacheWorld) :=
  {| ResilientSearchClient.primaryClient :=
       below (MonitoredVantigeClient.asClient monitoredClient);
     ResilientSearchClient.cacheClient :=
       Some (CachedVantigeClient.asClient cachedClient) |}.

(** The state of all objects right after construction. *)
Definition fresh (w : W) : CacheWorld :=
  ([], (MonitoredVantigeClient.initial, (CircuitBreakerClient.initial, w))).

End WithBase.
End CompleteExample.

(** ** The composition as the specification words it

    "Monitoring wraps CircuitBreaker wraps Retry wraps Cache wraps the base
    remote-call implementer."  This definition follows the specification,
    not the source; it is compared below with [CompleteExample]. *)

Module SpecComposition.
Section WithBase.
Context {W : Type} `{Env W}.
Variable base : Client W.

Definition CacheWorld : Type := CachedVantigeClient.Cache * W.
Definition BreakerWorld : Type := CircuitBreakerClient.State * CacheWorld.
Definition MonitorWorld : Type :=
  MonitoredVantigeClient.State (W := BreakerWorld) * BreakerWorld.

Definition cache : CachedVantigeClient.t (W := W) :=
  CachedVantigeClient.new base.

Definition retry : RetryableVantigeClient.t (W := CacheWorld) :=
  RetryableVantigeClient.new (CachedVantigeClient.asClient cache)
                             RetryableVantigeClient.noOptions.

Definition circuitBreaker : CircuitBreakerClient.t (W := CacheWorld) :=
  CircuitBreakerClient.new (RetryableVantigeClient.asClient retry)
                           CircuitBreakerClient.noOptions.

Definition monitoring : MonitoredVantigeClient.t (W := BreakerWorld) :=
  MonitoredVantigeClient.new (CircuitBreakerClient.asClient circuitBreaker) None.

Definition resilient : Client MonitorWorld :=
  MonitoredVantigeClient.asClient monitoring.

Definition fresh (w : W) : MonitorWorld :=
  (MonitoredVantigeClient.initial, (CircuitBreakerClient.initial, ([], w))).

End WithBase.
End SpecComposition.

(** ** Exact arithmetic

    An implementation of the signature of numbers that computes without
    rounding, for running the code on concrete inputs.  The inputs of the
    examples are chosen so that rounding does not change the results
    shown.  [Math.pow] is that of an integral exponent. *)

#[global] Instance Exact : JsNumber := {|
  number := Q;
  lit q := q;
  num_mul := Qmult;
  num_add := Qplus;
  Math_min := Qmin;
  Math_pow x y := (x ^ Qfloor y)%Q;
  Math_floor x := inject_Z (Qfloor x);
  num_truthy x := negb (Qeq_bool x 0);
  num_le := Qle;
  num_finite _ := True;
|}.

(** ** Double-precision arithmetic

    The implementation of the signature of numbers by the binary64 numbers
    of IEEE 754, rounding to nearest: the arithmetic of JavaScript.
    Multiplication, addition and the comparisons are the primitive ones.
    A literal is the quotient of its numerator by its denominator, which
    is the nearest double when both are below 2^53.  [Math.pow], which
    JavaScript specifies only up to an approximation, is the repeated
    product for a whole exponent that is not negative: the exact power
    whenever that one is a double. *)

Module Binary64.
Import Floats.

Definition ofZ (z : Z) : float :=
  match z with
  | Z0 => PrimFloat.zero
  | Zpos _ => PrimFloat.of_uint63 (Uint63.of_Z z)
  | Zneg p => PrimFloat.opp (PrimFloat.of_uint63 (Uint63.of_Z (Zpos p)))
  end.

Definition lit (q : Q) : float :=
  PrimFloat.div (ofZ (Qnum q)) (ofZ (Zpos (Qden q))).

(** From [2^52] on every double is a whole number. *)
Definition two52 : float := ofZ (2 ^ 52).

(** [Math.floor]: a number that is not finite, or is whole, is returned
    as it is; otherwise adding and subtracting [2^52] rounds to a
    neighbouring whole number, which is the floor or the floor plus
    one. *)
Definition floor (x : float) : float :=
  if PrimFloat.is_nan x || PrimFloat.is_infinity x
     || PrimFloat.leb two52 (PrimFloat.abs x)
  then x
  else
    let nearest :=
      if PrimFloat.ltb x PrimFloat.zero
      then PrimFloat.add (PrimFloat.sub x two52) two52
      else PrimFloat.sub (PrimFloat.add x two52) two52 in
    if PrimFloat.ltb x nearest then PrimFloat.sub nearest PrimFloat.one else nearest.

(** [Math.min]: NaN as soon as one argument is NaN, and the negative zero
    is below the positive one. *)
Definition min (x y : float) : float :=
  if PrimFloat.is_nan x || PrimFloat.is_nan y then PrimFloat.nan
  else if PrimFloat.ltb y x then y
  else if PrimFloat.ltb x y then x
  else if PrimFloat.get_sign x then x else y.

Fixpoint power (x : float) (n : nat) : float :=
  match n with
  | O => PrimFloat.one
  | S n' => PrimFloat.mul x (power x n')
  end.

(** The whole part of a finite double that is not negative. *)
Definition toZ (x : float) : Z :=
  match Prim2SF x with
  | S754_finite false m e =>
      if 0 <=? e then Z.pos m * 2 ^ e else Z.pos m / 2 ^ (- e)
  | _ => 0
  end.

Definition pow (x y : float) : float := power x (Z.to_nat (toZ y)).

Definition numbers : JsNumber :=
  Build_JsNumber float lit PrimFloat.mul PrimFloat.add min pow floor
    (fun x => negb (PrimFloat.is_zero x || PrimFloat.is_nan x))
    (fun x y => PrimFloat.leb x y = true)
    (fun x => PrimFloat.is_finite x = true).

End Binary64.

(** ** A scripted remote service, for running the code on concrete inputs *)

Module Simulation.

Record World := mkWorld {
  (** the reading of [Date.now()] *)
  clock : Z;
  (** what the remote service answers to the next calls, in order; once
      the script is used up it answers [okResponse] *)
  script : list Outcome;
  (** the next values of [Math.random()]; [0] once used up *)
  randoms : list Q;
  (** the requests the service has received, most recent first *)
  served : list QueryParams;
  (** the delays slept, most recent first *)
  slept : list Q;
}.

Definition okResponse : QueryResponse :=
  mkQueryResponse [] (Some "42"%string) "q-1" "docs".

(** The remote service. *)
Definition service : Client World :=
  fun params w =>
    let received rest :=
      mkWorld (clock w) rest (randoms w) (params :: served w) (slept w) in
    match script w with
    | [] => (Returned okResponse, received [])
    | o :: rest => (o, received rest)
    end.

#[global] Instance Env_World : Env (H := Exact) World := {
  now := clock;
  random w :=
    match randoms w with
    | [] => (0%Q, w)
    | r :: rest => (r, mkWorld (clock w) (script w) rest (served w) (slept w))
    end;
  sleep ms w :=
    mkWorld (clock w + Qceiling ms) (script w) (randoms w) (served w) (ms :: slept w);
}.

(** A world at clock reading [t] in which the service will answer
    [answers] and [Math.random()] will return [rs]. *)
Definition world (t : Z) (answers : list Outcome) (rs : list Q) : World :=
  mkWorld t answers rs [] [].

(** Let the clock advance to [t]. *)
Definition at_time (t : Z) (w : World) : World :=
  mkWorld t (script w) (randoms w) (served w) (slept w).

(** An SDK error with the given status code and [retryAfter] detail. *)
Definition sdkError (status : Z) (hint : option Q) : JsError :=
  SDKError (mkSDKError status "error" (Some (mkErrorDetails hint))).

Definition pricing : QueryParams :=
  mkQueryParams "docs" "pricing plans" None (Some true).

End Simulation.


(** ** Vocabulary of the properties *)

Module Behaviour.

(** An inner operation that fails with a retryable error whenever it is
    called. *)
Definition always_fails_retryably {W : Type} (inner : Client W)
    (opts : RetryableVantigeClient.Options) : Prop :=
  ∀ params w, ∃ e,
    fst (inner params w) = Thrown e ∧
    RetryableVantigeClient.isRetryable e (RetryableVantigeClient.opt_retryableErrors opts) = true.

(** The [retryAfter] detail an error carries, if any. *)
Definition explicitHint (error : JsError) : option Q :=
  match error with
  | SDKError e => d ← details e; retryAfter d
  | PlainError _ _ => None
  end.

(** A service that is down: every call fails with [error]. *)
Definition down (error : JsError) : Client Simulation.World :=
  fun params w =>
    (Thrown error,
     Simulation.mkWorld (Simulation.clock w) (Simulation.script w)
       (Simulation.randoms w) (params :: Simulation.served w) (Simulation.slept w)).

(** The breaker states that calls can lead to, from construction on. *)
Inductive BreakerReachable {W : Type} `{Env W} (self : CircuitBreakerClient.t (W := W))
    : CircuitBreakerClient.State → Prop :=
| breaker_constructed :
    BreakerReachable self CircuitBreakerClient.initial
| breaker_called (st : CircuitBreakerClient.State) (params : QueryParams) (w : W) :
    BreakerReachable self st →
    BreakerReachable self (snd (fst (CircuitBreakerClient.query self params st w))).

(** The breaker state after a series of calls, each made with the given
    parameters in the given world. *)
Definition breakerAfter {W : Type} `{Env W} (self : CircuitBreakerClient.t (W := W))
    (calls : list (QueryParams * W)) (st : CircuitBreakerClient.State)
    : CircuitBreakerClient.State :=
  fold_left (fun st call => snd (fst (CircuitBreakerClient.query self (fst call) st (snd call))))
            calls st.

(** The inner operation fails (resp. succeeds) when called as in [call]. *)
Definition innerFails {W : Type} (inner : Client W) (call : QueryParams * W) : Prop :=
  is_thrown (fst (inner (fst call) (snd call))) = true.

Definition innerSucceeds {W : Type} (inner : Client W) (call : QueryParams * W) : Prop :=
  is_thrown (fst (inner (fst call) (snd call))) = false.

(** The monitor state after a series of calls, each made with the given
    parameters in the given world. *)
Definition monitorAfter {W : Type} `{Env W} (self : MonitoredVantigeClient.t (W := W))
    (calls : list (QueryParams * W)) (st : MonitoredVantigeClient.State)
    : MonitoredVantigeClient.State :=
  fold_left (fun st call => snd (fst (MonitoredVantigeClient.query self (fst call) st (snd call))))
            calls st.

(** What the inner operation answers to [call]. *)
Definition outcomeOf {W : Type} (inner : Client W) (call : QueryParams * W) : Outcome :=
  fst (inner (fst call) (snd call)).

(** A failure that carries a classification. *)
Definition classified (o : Outcome) : bool :=
  match o with
  | Thrown (SDKError _) => true
  | Thrown (PlainError _ _) | Returned _ => false
  end.

(** The number of calls that fail, and of those that fail with a
    classified error. *)
Definition failedCalls {W : Type} (inner : Client W) (calls : list (QueryParams * W)) : Z :=
  Z.of_nat (length (filter (fun call => is_thrown (outcomeOf inner call) = true) calls)).

Definition classifiedFailures {W : Type} (inner : Client W)
    (calls : list (QueryParams * W)) : Z :=
  Z.of_nat (length (filter (fun call => classified (outcomeOf inner call) = true) calls)).

(** The caches that calls can lead to, from construction on. *)
Inductive CacheReachable {W : Type} `{Env W} (self : CachedVantigeClient.t (W := W))
    : CachedVantigeClient.Cache → Prop :=
| cache_constructed : CacheReachable self []
| cache_called (cache : CachedVantigeClient.Cache) (params : QueryParams) (w : W) :
    CacheReachable self cache →
    CacheReachable self (snd (fst (CachedVantigeClient.query self params cache w))).

(** The two readings of "recency breaks ties among equally-scored
    entries": of the entries that score the same as the evicted one, the
    evicted one is the least recently stored, or the most recently
    stored. *)
Definition evictsLeastRecentOfTies (t : Z) (cache : CachedVantigeClient.Cache)
    (victim : CachedVantigeClient.CacheKey) : Prop :=
  ∀ ventry key entry,
    CachedVantigeClient.get victim cache = Some ventry →
    CachedVantigeClient.get key cache = Some entry →
    CachedVantigeClient.score t entry = CachedVantigeClient.score t ventry →
    CachedVantigeClient.timestamp ventry <= CachedVantigeClient.timestamp entry.

Definition evictsMostRecentOfTies (t : Z) (cache : CachedVantigeClient.Cache)
    (victim : CachedVantigeClient.CacheKey) : Prop :=
  ∀ ventry key entry,
    CachedVantigeClient.get victim cache = Some ventry →
    CachedVantigeClient.get key cache = Some entry →
    CachedVantigeClient.score t entry = CachedVantigeClient.score t ventry →
    CachedVantigeClient.timestamp entry <= CachedVantigeClient.timestamp ventry.

(** What holds of the stored breaker state between calls, for a failure
    threshold of at least one. *)
Record BreakerInvariant (opts : CircuitBreakerClient.Options)
    (st : CircuitBreakerClient.State) : Prop := {
  inv_failures : 0 <= CircuitBreakerClient.failures st;
  inv_closed :
    CircuitBreakerClient.state st = CircuitBreakerClient.CLOSED →
    CircuitBreakerClient.failures st < CircuitBreakerClient.opt_failureThreshold opts;
  inv_open :
    CircuitBreakerClient.state st = CircuitBreakerClient.OPEN →
    is_Some (CircuitBreakerClient.lastFailureTime st);
  inv_successes :
    CircuitBreakerClient.state st ≠ CircuitBreakerClient.HALF_OPEN →
    CircuitBreakerClient.successCount st = 0;
  inv_half_open :
    CircuitBreakerClient.state st = CircuitBreakerClient.HALF_OPEN →
    1 <= CircuitBreakerClient.successCount st < CircuitBreakerClient.successThreshold;
}.

(** [(victim, ventry)] is the first entry of lowest score in [cache], in
    the iteration order of the map: the entries [before] it score strictly
    more, the entries [after] it at least as much. *)
Definition FirstLowest (t : Z) (cache : CachedVantigeClient.Cache)
    (victim : CachedVantigeClient.CacheKey) (ventry : CachedVantigeClient.CacheEntry)
    (before after : CachedVantigeClient.Cache) : Prop :=
  cache = before ++ (victim, ventry) :: after ∧
  Forall (λ kv, CachedVantigeClient.score t ventry < CachedVantigeClient.score t kv.2) before ∧
  Forall (λ kv, CachedVantigeClient.score t ventry <= CachedVantigeClient.score t kv.2) after.

(** The cache and the world after a series of calls on the scripted
    service, each made with the given parameters once the clock has
    advanced to the given reading. *)
Definition cacheAfter (self : CachedVantigeClient.t (W := Simulation.World))
    (calls : list (QueryParams * Z))
    (cw : CachedVantigeClient.Cache * Simulation.World)
    : CachedVantigeClient.Cache * Simulation.World :=
  fold_left
    (fun cw call =>
       snd (CachedVantigeClient.asClient self (fst call)
              (fst cw, Simulation.at_time (snd call) (snd cw))))
    calls cw.

(** Requests used to fill a cache: a request per number, and the calls
    that store the response to request [i] at clock reading [start + i]
    and then read it twice from the cache. *)
Definition filler (i : Z) : QueryParams :=
  mkQueryParams "docs" "filler" (Some i) None.

Definition fillers (start : Z) (n : nat) : list (QueryParams * Z) :=
  i ← seqZ 0 (Z.of_nat n);
  [(filler i, start + i); (filler i, start + i); (filler i, start + i)].

Definition requestA : QueryParams := mkQueryParams "docs" "a" None None.
Definition requestB : QueryParams := mkQueryParams "docs" "b" None None.
Definition requestZ : QueryParams := mkQueryParams "docs" "z" None None.

(** A full default cache: A is stored at 0, B at 10000 and read once, and
    98 fillers follow.  At clock reading 20000 A and B both score 20000
    and every filler scores more. *)
Definition olderFirst : CachedVantigeClient.Cache * Simulation.World :=
  cacheAfter (CachedVantigeClient.new Simulation.service)
    ([(requestA, 0); (requestB, 10000); (requestB, 10001)] ++ fillers 10002 98)
    ([], Simulation.world 0 [] []).

(** A full default cache: A is stored at 0, B at 290000; A, expired, is
    stored again at 300000 (keeping its place in the map) and read once;
    98 fillers follow.  At clock reading 310000 A and B both score 20000
    and every filler scores more. *)
Definition newerFirst : CachedVantigeClient.Cache * Simulation.World :=
  cacheAfter (CachedVantigeClient.new Simulation.service)
    ([(requestA, 0); (requestB, 290000); (requestA, 300000); (requestA, 300001)]
       ++ fillers 300002 98)
    ([], Simulation.world 0 [] []).

(** A full default cache: 99 fillers, each read twice, and then A, stored
    at clock reading 1000 with no hit since. *)
Definition storedLast : CachedVantigeClient.Cache * Simulation.World :=
  cacheAfter (CachedVantigeClient.new Simulation.service)
    (fillers 0 99 ++ [(requestA, 1000)])
    ([], Simulation.world 0 [] []).

(** What can be observed of the two compositions run on the scripted
    service: the requests that reached the service, and the number of
    requests the monitor counted. *)
Definition exampleServed (cw : CompleteExample.CacheWorld (W := Simulation.World))
    : list QueryParams :=
  Simulation.served (snd (snd (snd cw))).

Definition exampleMonitored (cw : CompleteExample.CacheWorld (W := Simulation.World)) : Z :=
  MonitoredVantigeClient.requests (fst (snd cw)).

Definition specServed (mw : SpecComposition.MonitorWorld (W := Simulation.World))
    : list QueryParams :=
  Simulation.served (snd (snd (snd mw))).

Definition specMonitored (mw : SpecComposition.MonitorWorld (W := Simulation.World)) : Z :=
  MonitoredVantigeClient.requests (fst mw).

(** The request [tryPrimarySearch] sends for a search. *)
Definition primaryRequest (corpusId query : string) : QueryParams :=
  mkQueryParams corpusId query (Some 10) (Some true).

(** The requests [tryCachedSearch] and [trySimplifiedSearch] send. *)
Definition cachedRequest (corpusId query : string) : QueryParams :=
  mkQueryParams corpusId query (Some 5) (Some false).

Definition simplifiedRequest (corpusId query : string) : QueryParams :=
  mkQueryParams corpusId (joinSpace (ResilientSearchClient.extractKeywords query))
                (Some 3) (Some false).

End Behaviour.

(** ** Instrumented worlds *)

(** A world that also remembers what happened in it: the outcome of each
    invocation of the inner operation and each delay slept, most recent
    first. *)
Record Probe `{JsNumber} (W : Type) := mkProbe {
  probe_calls : list Outcome;
  probe_sleeps : list number;
  probe_world : W;
}.

Arguments mkProbe {_ W} _ _ _.
Arguments probe_calls {_ W} _.
Arguments probe_sleeps {_ W} _.
Arguments probe_world {_ W} _.

#[export] Instance Env_Probe {W : Type} `{Env W} : Env (Probe W) := {
  now p := now (probe_world p);
  random p :=
    let '(r, w') := random (probe_world p) in
    (r, mkProbe (probe_calls p) (probe_sleeps p) w');
  sleep ms p :=
    mkProbe (probe_calls p) (ms :: probe_sleeps p) (sleep ms (probe_world p));
}.

(** The inner operation, recording its outcomes in the probe. *)
Definition probed `{JsNumber} {W : Type} (inner : Client W) : Client (Probe W) :=
  fun params p =>
    let '(o, w') := inner params (probe_world p) in
    (o, mkProbe (o :: probe_calls p) (probe_sleeps p) w').

(** A failure the retry options accept for another attempt. *)
Definition retryableFailure (opts : RetryableVantigeClient.Options) (o : Outcome) : Prop :=
  ∃ e, o = Thrown e ∧
       RetryableVantigeClient.isRetryable e (RetryableVantigeClient.opt_retryableErrors opts) = true.

(** A world that keeps a journal of what happened in it, most recent
    event first: each invocation of the inner operation with its outcome,
    and each suspension with its delay. *)
Inductive Event `{JsNumber} :=
| Called (o : Outcome)
| Slept (ms : number).

Record Journal `{JsNumber} (W : Type) := mkJournal {
  events : list Event;
  journal_world : W;
}.

Arguments mkJournal {_ W} _ _.
Arguments events {_ W} _.
Arguments journal_world {_ W} _.

#[export] Instance Env_Journal {W : Type} `{Env W} : Env (Journal W) := {
  now j := now (journal_world j);
  random j :=
    let '(r, w') := random (journal_world j) in
    (r, mkJournal (events j) w');
  sleep ms j :=
    mkJournal (Slept ms :: events j) (sleep ms (journal_world j));
}.

(** The inner operation, entering its invocations in the journal. *)
Definition journaled `{JsNumber} {W : Type} (inner : Client W) : Client (Journal W) :=
  fun params j =>
    let '(o, w') := inner params (journal_world j) in
    (o, mkJournal (Called o :: events j) w').

(** ** Vocabulary of the retry properties *)

Module RetryVocabulary.

(** One of the three codes of Node's network errors that the wrapper
    retries. *)
Definition networkCode (errno : option string) : Prop :=
  errno = Some "ECONNRESET"%string ∨ errno = Some "ETIMEDOUT"%string ∨
  errno = Some "ENOTFOUND"%string.

(** An error "in the retryable set", for the set [retryable] of status
    codes: a classified error whose status code is in the set, or an
    unclassified failure that carries a network code. *)
Definition inRetryableSet (retryable : list Z) (error : JsError) : Prop :=
  match error with
  | SDKError e => code e ∈ retryable
  | PlainError errno _ => networkCode errno
  end.

(** A failure with an error in the retryable set. *)
Definition failsRetryably (retryable : list Z) (o : Outcome) : Prop :=
  ∃ e, o = Thrown e ∧ inRetryableSet retryable e.

(** The value of an option in force for a call: the one given with the
    call, else the one given to the constructor, else the built-in
    default. *)
Definition inForce {A : Type} (builtin : A) (constructed given : option A) : A :=
  default (default builtin constructed) given.

(** A journal in which invocations and suspensions alternate, from a
    first invocation to a last one. *)
Fixpoint alternates `{JsNumber} (journal : list Event) : Prop :=
  match journal with
  | [Called _] => True
  | Called _ :: Slept _ :: earlier => alternates earlier
  | _ => False
  end.

End RetryVocabulary.

(** ** Cache statistics *)

Module CacheStatistics.

(** The object returned by [getStats()].  [hitRate] is the quotient
    [totalHits / (totalHits + size)]; [None] stands for the value
    JavaScript gives when the divisor is zero (not a finite number). *)
Record Stats := mkStats {
  stat_size : Z;
  validEntries : Z;
  totalHits : Z;
  hitRate : option Q;
}.

(** One iteration of the [forEach] of [getStats], on the loop state
    [(totalHits, validEntries)], at clock reading [t]. *)
Definition statsStep {W : Type} (self : CachedVantigeClient.t (W := W)) (t : Z)
    (acc : Z * Z) (kv : CachedVantigeClient.CacheKey * CachedVantigeClient.CacheEntry)
    : Z * Z :=
  (fst acc + CachedVantigeClient.hits (snd kv),
   if CachedVantigeClient.isCacheValid self (snd kv) t then snd acc + 1 else snd acc).

(** [getStats()], at clock reading [t]. *)
Definition getStats {W : Type} (self : CachedVantigeClient.t (W := W)) (t : Z)
    (cache : CachedVantigeClient.Cache) : Stats :=
  let '(totalHits, validEntries) := fold_left (statsStep self t) cache (0, 0) in
  let size := CachedVantigeClient.size cache in
  {| stat_size := size;
     validEntries := validEntries;
     totalHits := totalHits;
     hitRate := if totalHits + size =? 0 then None
                else Some (inject_Z totalHits / inject_Z (totalHits + size))%Q |}.

End CacheStatistics.

(** ** Batch processing *)

Module BatchQueryProcessor.

(** [const concurrencyLimit = 5] *)
Definition concurrencyLimit : nat := 5.

(** The groups formed by the loop
    [for (let i = 0; i < queries.length; i += concurrencyLimit)] with
    [queries.slice(i, i + concurrencyLimit)], from index [i] on.  [fuel]
    bounds the number of iterations. *)
Fixpoint batchesFrom (fuel i : nat) (queries : list string) : list (list string) :=
  match fuel with
  | O => []
  | S fuel' =>
      if (i <? length queries)%nat then
        take concurrencyLimit (drop i queries)
          :: batchesFrom fuel' (i + concurrencyLimit) queries
      else []
  end.

(** The groups of [batchQuery]; the loop makes at most one iteration per
    query. *)
Definition batches (queries : list string) : list (list string) :=
  batchesFrom (length queries) 0 queries.

End BatchQueryProcessor.

(** ** Contextual search *)

Module ContextualSearchClient.

(** [interface SearchContext] *)
Record SearchContext := mkSearchContext {
  previousQueries : list string;
  userRole : option string;
  department : option string;
}.

Definition followUpIndicators : list string :=
  ["what about"; "how about"; "and"; "also"; "more"; "else"; "other"; "another"]%string.

(** [private isFollowUpQuery(query)] *)
Definition isFollowUpQuery (query : string) : bool :=
  let lowerQuery := toLowerCase query in
  existsb (fun indicator => String.prefix indicator lowerQuery) followUpIndicators.

(** Truthiness of a string-valued optional field: present and not empty. *)
Definition truthy (s : option string) : option string :=
  match s with
  | Some EmptyString | None => None
  | Some text => Some text
  end.

(** [private buildContextualQuery(query, context)] *)
Definition buildContextualQuery (query : string) (context : SearchContext) : string :=
  let enhanced :=
    match truthy (userRole context) with
    | Some role => role +:+ " question: " +:+ query
    | None => query
    end in
  match last (previousQueries context) with
  | Some lastQuery =>
      if isFollowUpQuery query then lastQuery +:+ " " +:+ enhanced else enhanced
  | None => enhanced
  end.

End ContextualSearchClient.

(** ** Conversation memory *)

Module ConversationalSearch.

Inductive Role := user | assistant.

(** [interface Message]; [timestamp] is the [Date] in milliseconds. *)
Record Message := mkMessage {
  role : Role;
  content : string;
  timestamp : Z;
}.

Definition roleText (r : Role) : string :=
  match r with
  | user => "user"
  | assistant => "assistant"
  end.

(** The line feed. *)
Definition nl : string := String (ascii_of_nat 10) EmptyString.

(** ['Previous conversation:\n'] *)
Definition contextHeader : string := "Previous conversation:" +:+ nl.

(** [`${msg.role}: ${msg.content}\n`] *)
Definition msgText (msg : Message) : string :=
  roleText (role msg) +:+ ": " +:+ content msg +:+ nl.

(** The [for] loop of [buildContext] on the loop state
    [(context, contextLength)]: it stops at the first message that does
    not fit. *)
Fixpoint appendMessages (maxContextLength : Z) (messages : list Message)
    (context : string) (contextLength : Z) : string :=
  match messages with
  | [] => context
  | msg :: rest =>
      if maxContextLength <? contextLength + Z.of_nat (String.length (msgText msg)) then
        context
      else
        appendMessages maxContextLength rest (context +:+ msgText msg)
          (contextLength + Z.of_nat (String.length (msgText msg)))
  end.

(** [conversation.slice(-6)] *)
Definition recentMessages (conversation : list Message) : list Message :=
  drop (length conversation - 6) conversation.

(** [private buildContext(conversation)] *)
Definition buildContext (maxContextLength : Z) (conversation : list Message) : string :=
  appendMessages maxContextLength (recentMessages conversation) contextHeader
    (Z.of_nat (String.length contextHeader)).

(** [Map<string, Message[]>] *)
Abbreviation Conversations := (gmap string (list Message)).

(** The test of [cleanOldConversations] on one session, at clock reading
    [t]: there is a last message and it is more than an hour old. *)
Definition stale (t : Z) (messages : list Message) : bool :=
  match last messages with
  | Some lastMessage => timestamp lastMessage <? t - 60 * 60 * 1000
  | None => false
  end.

(** [private cleanOldConversations()], at clock reading [t]. *)
Definition cleanOldConversations (t : Z) (conversations : Conversations) : Conversations :=
  filter (fun kv => stale t (snd kv) = false) conversations.

(** [getConversation(sessionId)] *)
Definition getConversation (sessionId : string) (conversations : Conversations)
    : list Message :=
  default [] (conversations !! sessionId).

(** [clearConversation(sessionId)] *)
Definition clearConversation (sessionId : string) (conversations : Conversations)
    : Conversations :=
  delete sessionId conversations.

(** ['I couldn\'t find an answer to that question.'] *)
Definition noAnswer : string := "I couldn't find an answer to that question.".

(** [response.answer || noAnswer]: an absent or empty answer is replaced. *)
Definition answerOf (response : QueryResponse) : string :=
  match answer response with
  | Some EmptyString | None => noAnswer
  | Some text => text
  end.

Section WithEnv.
Context {W : Type} `{Env W}.

(** The immutable part of the object. *)
Record t := mk {
  client : Client W;
  maxContextLength : Z;
}.

(** [constructor(client, maxContextLength = 1000)] *)
Definition new (client : Client W) (maxContextLength : option Z) : t :=
  {| client := client; maxContextLength := default 1000 maxContextLength |}.

(** The request [chat] sends. *)
Definition chatRequest (self : t) (corpusId message : string)
    (conversation : list Message) : QueryParams :=
  mkQueryParams corpusId
    (buildContext (maxContextLength self) conversation +:+ nl +:+ nl +:+ "User: " +:+ message)
    (Some 5) (Some true).

(** [async chat(sessionId, corpusId, message)].  The result is the answer
    or the error thrown.  [conversation.push] acts on the array stored in
    the map when the session exists, so the user's message is in the store
    before the remote call; a new session is stored only by the [set] that
    follows the call. *)
Definition chat (self : t) (sessionId corpusId message : string)
    (conversations : Conversations) (w : W)
    : (string + JsError) * Conversations * W :=
  let stored := conversations !! sessionId in
  let conversation := default [] stored ++ [mkMessage user message (now w)] in
  let conversations1 :=
    match stored with
    | Some _ => <[sessionId := conversation]> conversations
    | None => conversations
    end in
  let '(o, w') := client self (chatRequest self corpusId message conversation) w in
  match o with
  | Thrown error => (inr error, conversations1, w')
  | Returned response =>
      let answer := answerOf response in
      let conversation' := conversation ++ [mkMessage assistant answer (now w')] in
      (inl answer,
       cleanOldConversations (now w') (<[sessionId := conversation']> conversations1),
       w')
  end.

End WithEnv.

End ConversationalSearch.

(** ** Vocabulary of the monitoring properties *)

Module MonitorVocabulary.

(** A failure with a classified error of status code [c]. *)
Definition failsWithCode (c : Z) (o : Outcome) : bool :=
  match o with
  | Thrown (SDKError e) => bool_decide (code e = c)
  | Thrown (PlainError _ _) | Returned _ => false
  end.

(** The number of calls that fail with a classified error of code [c]. *)
Definition failuresWithCode {W : Type} (inner : Client W) (c : Z)
    (calls : list (QueryParams * W)) : Z :=
  Z.of_nat (length (filter (fun call => failsWithCode c (Behaviour.outcomeOf inner call) = true)
                           calls)).

End MonitorVocabulary.

(** ** Vocabulary of the text properties *)

Module Text.

(** Every character of [s] passes the test [P]. *)
Fixpoint allChars (P : ascii -> bool) (s : string) : bool :=
  match s with
  | EmptyString => true
  | String c s' => P c && allChars P s'
  end.

(** [s] is ASCII text: every character is below 128. *)
Definition asciiOnly (s : string) : Prop :=
  allChars (fun c => (nat_of_ascii c <? 128)%nat) s = true.

(** [s] contains no blank. *)
Definition blankFree (s : string) : Prop :=
  allChars (fun c => negb (Ascii.is_space c)) s = true.

(** [s] neither starts nor ends with a blank. *)
Definition trimmed (s : string) : Prop := trim s = s.

(** [s] is empty or starts with a character that is no blank: the fixed
    points of [trimStart]. *)
Definition headOk (s : string) : Prop :=
  match s with
  | EmptyString => True
  | String c _ => Ascii.is_space c = false
  end.

(** [s] is empty or ends with a character that is no blank. *)
Fixpoint lastOk (s : string) : Prop :=
  match s with
  | EmptyString => True
  | String c EmptyString => Ascii.is_space c = false
  | String _ s' => lastOk s'
  end.

(** The test of a character of a word: no blank, and in lower case. *)
Definition wordChar (c : ascii) : bool :=
  negb (Ascii.is_space c) && bool_decide (lowerAscii c = c).

(** The test of a character of a lower-cased text. *)
Definition lowerOrBlank (c : ascii) : bool :=
  Ascii.is_space c || bool_decide (lowerAscii c = c).

End Text.

(** ** Vocabulary of the conversation properties *)

Module ConversationVocabulary.
Import ConversationalSearch.

(** The lines of [messages], one after the other. *)
Fixpoint transcript (messages : list Message) : string :=
  match messages with
  | [] => ""
  | msg :: rest => msgText msg +:+ transcript rest
  end.

(** The last message of a session was written at clock reading [t0] or
    later; a session without messages counts as such. *)
Definition activeSince (t0 : Z) (messages : list Message) : Prop :=
  match last messages with
  | Some lastMessage => t0 ≤ timestamp lastMessage
  | None => True
  end.

End ConversationVocabulary.

(** * Properties *)

(** ** The model on concrete inputs *)

Module ModelChecks.

(** Requests that differ in case and surrounding blanks share a key. *)
Example cache_key_normalised :
  CachedVantigeClient.getCacheKey
    (mkQueryParams "docs" "  Pricing Plans " None (Some true))
  = CachedVantigeClient.getCacheKey Simulation.pricing.
Proof. reflexivity. Qed.

(** [extractKeywords] drops stop words and words of one or two letters. *)
Example keywords_of_question :
  ResilientSearchClient.extractKeywords "How do I reset  the API key"
  = ["reset"; "api"; "key"]%string.
Proof. reflexivity. Qed.

(** The health tiers are exclusive on their upper bound: a rate of 0.01
    is degraded, a rate of 0.1 unhealthy. *)
Example health_boundaries :
  let at_rate (rate : Q) :=
    MonitoredVantigeClient.getHealthStatus (W := Simulation.World)
      (MonitoredVantigeClient.mkState
         (MonitoredVantigeClient.mkErrorMetrics 1 ∅ rate None) 100 []) in
  at_rate (1 # 200) = MonitoredVantigeClient.healthy ∧
  at_rate (1 # 100) = MonitoredVantigeClient.degraded ∧
  at_rate (1 # 10) = MonitoredVantigeClient.unhealthy.
Proof. repeat split. Qed.

(** The backoff sequence of the default options, without jitter (no
    rounding occurs on these values). *)
Example default_backoff_sequence :
  map (λ attempt, RetryableVantigeClient.exponentialDelay (H := Exact) attempt
                    RetryableVantigeClient.builtinOptions) [0; 1; 2; 3; 4; 5]
  = [1000; 2000; 4000; 8000; 16000; 30000]%Q.
Proof. reflexivity. Qed.

(** In double-precision arithmetic, as in the code: the default options,
    first retry, random number 0.03.  The product 0.03 * 0.3 rounds to
    0.0089999999999999993, the jitter, its product by 1000, rounds to 9,
    and the delay is 1009. *)
Example delay_in_doubles :
  RetryableVantigeClient.jittered (H := Binary64.numbers)
    (RetryableVantigeClient.exponentialDelay (H := Binary64.numbers) 0
       RetryableVantigeClient.builtinOptions) (3 # 100)
  = Binary64.ofZ 1009.
Proof. vm_compute. reflexivity. Qed.

(** In double-precision arithmetic: with [initialDelay = 0] and an attempt
    index at which the power overflows, the base delay and the delay are
    NaN. *)
Example delay_not_a_number :
  let options :=
    RetryableVantigeClient.spread RetryableVantigeClient.builtinOptions
      (RetryableVantigeClient.mkRetryOptions (Some 2000) (Some 0%Q) None None None) in
  let base := RetryableVantigeClient.exponentialDelay (H := Binary64.numbers) 1100 options in
  PrimFloat.is_nan base = true ∧
  PrimFloat.is_nan (RetryableVantigeClient.jittered (H := Binary64.numbers) base (1 # 2))
    = true.
Proof. split; vm_compute; reflexivity. Qed.

(** In double-precision arithmetic: [backoffMultiplier = 1.5], attempt 4,
    random number 0.0001.  The base delay is 5062.5 and the delay 5062. *)
Example delay_below_base_in_doubles :
  let options :=
    RetryableVantigeClient.spread RetryableVantigeClient.builtinOptions
      (RetryableVantigeClient.mkRetryOptions (Some 5) None None (Some (3 # 2)) None) in
  let base := RetryableVantigeClient.exponentialDelay (H := Binary64.numbers) 4 options in
  base = Binary64.lit (10125 # 2) ∧
  RetryableVantigeClient.jittered (H := Binary64.numbers) base (1 # 10000)
    = Binary64.ofZ 5062 ∧
  PrimFloat.ltb (Binary64.ofZ 5062) base = true.
Proof. cbv zeta. repeat apply conj; vm_compute; reflexivity. Qed.

(** The defaults the constructors install. *)
Example constructor_defaults :
  CircuitBreakerClient.opt_failureThreshold
    (CircuitBreakerClient.options
       (CircuitBreakerClient.new Simulation.service CircuitBreakerClient.noOptions)) = 5 ∧
  CircuitBreakerClient.opt_resetTimeout
    (CircuitBreakerClient.options
       (CircuitBreakerClient.new Simulation.service CircuitBreakerClient.noOptions)) = 60000 ∧
  CircuitBreakerClient.successThreshold = 3 ∧
  RetryableVantigeClient.opt_maxRetries
    (RetryableVantigeClient.defaultOptions
       (RetryableVantigeClient.new Simulation.service RetryableVantigeClient.noOptions)) = 3 ∧
  CachedVantigeClient.cacheTimeout (CachedVantigeClient.new Simulation.service) = 300000 ∧
  CachedVantigeClient.maxCacheSize (CachedVantigeClient.new Simulation.service) = 100 ∧
  MonitoredVantigeClient.windowSize (MonitoredVantigeClient.new Simulation.service None) = 100.
Proof. repeat split. Qed.

End ModelChecks.

(** ** Retry *)

Module RetryProperties.
Import RetryableVantigeClient Behaviour RetryVocabulary.

(** [isRetryable] decides membership in the retryable set: a classified
    error by its status code, an unclassified one by the three network
    codes. *)
Lemma isRetryable_spec error retryable :
  isRetryable error retryable = true ↔ inRetryableSet retryable error.
Proof.
  destruct error as [e | [c |] msg]; cbn.
  - apply bool_decide_eq_true.
  - rewrite bool_decide_eq_true. unfold networkCodes, networkCode.
    rewrite !elem_of_cons, elem_of_nil. split.
    + intros [-> | [-> | [-> | []]]]; auto.
    + intros [[= ->] | [[= ->] | [= ->]]]; auto.
  - unfold networkCode. split; [done | intros [? | [? | ?]]; done].
Qed.

(** The options in force are those of the call, then those of the
    constructor, then the built-in ones. *)
Lemma options_in_force (constructed given : RetryOptions) :
  let opts := spread (spread builtinOptions constructed) given in
  opt_maxRetries opts = inForce 3 (maxRetries constructed) (maxRetries given) ∧
  opt_retryableErrors opts
    = inForce [429; 500; 502; 503; 504] (retryableErrors constructed)
              (retryableErrors given).
Proof. done. Qed.

Section WithEnv.
Context {W : Type} `{Env W}.

(** In a world that carries the invocation log, computing a delay
    leaves the log alone. *)
Lemma calculateDelay_log attempt error options (log : list Outcome) (w : W) :
  fst (snd (calculateDelay attempt error options (log, w))) = log.
Proof.
  unfold calculateDelay; cbn.
  destruct (random w) as [r w'].
  destruct error as [e | errno msg]; cbn; [| done].
  destruct (code e =? 429); [| done].
  by destruct (retryAfterHint e).
Qed.

(** The loop, on the log of the invocations it makes: when each of them
    failed with an error of the retryable set, the loop ran all the
    iterations it had left and ended by throwing the error of the last
    invocation. *)
Lemma attempts_all_fail (inner : Client W) opts params :
  ∀ remaining attempt lastError log w o log' w',
    remaining ≠ O →
    attempt + Z.of_nat remaining = opt_maxRetries opts + 1 →
    attempts (recorded inner) opts params remaining attempt lastError (log, w)
      = (o, (log', w')) →
    ∃ new,
      log' = new ++ log ∧
      (Forall (failsRetryably (opt_retryableErrors opts)) new →
         length new = remaining ∧
         ∃ e earlier, new = Thrown e :: earlier ∧ o = Thrown e).
Proof.
  induction remaining as [| remaining IH];
    intros attempt lastError log w o log' w' Hpos Hsum Hrun; [done |].
  cbn [attempts] in Hrun. unfold recorded at 1 in Hrun. cbn [fst snd] in Hrun.
  destruct (inner params w) as [[r | e] w1].
  - injection Hrun as <- <- <-. exists [Returned r]. split; [done |].
    intros Hall. apply Forall_cons in Hall as [(e & He & _) _]. done.
  - destruct (isRetryable e (opt_retryableErrors opts)) eqn:Hretry; cbn [negb] in Hrun.
    2: { injection Hrun as <- <- <-. exists [Thrown e]. split; [done |].
         intros Hall. apply Forall_cons in Hall as [(e' & [= <-] & Hin) _].
         apply isRetryable_spec in Hin. congruence. }
    destruct (Z.eqb_spec attempt (opt_maxRetries opts)) as [Hlast | Hmore].
    { injection Hrun as <- <- <-. exists [Thrown e]. split; [done |].
      intros _. split; [cbn; lia |]. by exists e, []. }
    pose proof (calculateDelay_log attempt e opts (Thrown e :: log) w1) as Hlog.
    destruct (calculateDelay attempt e opts (Thrown e :: log, w1)) as [delay [log2 w2]].
    cbn in Hlog; subst log2. cbn [sleep Env_with_state fst snd] in Hrun.
    apply IH in Hrun as (new & -> & Hnew); [| lia | lia].
    exists (new ++ [Thrown e]). split; [by rewrite <- app_assoc |].
    intros Hall. apply Forall_app in Hall as [Hall _].
    destruct (Hnew Hall) as (Hlen & e' & earlier & -> & ->).
    split; [rewrite length_app; cbn in *; lia |].
    by exists e', (earlier ++ [Thrown e]).
Qed.

(** A first failure that is not retryable ends the loop there. *)
Lemma attempts_not_retryable (inner : Client W) opts params remaining attempt
    lastError log w e w1 :
  inner params w = (Thrown e, w1) →
  isRetryable e (opt_retryableErrors opts) = false →
  attempts (recorded inner) opts params (S remaining) attempt lastError (log, w)
    = (Thrown e, (Thrown e :: log, w1)).
Proof.
  intros Hcall Hno. cbn [attempts]. unfold recorded at 1. cbn [fst snd].
  by rewrite Hcall, Hno.
Qed.

(** C3, as the code has it.  Let [limit] be the retry count in force (that
    of the call, else that of the constructor, else 3) and [retryable] the
    set of status codes in force (default 429, 500, 502, 503, 504).
    For [limit >= 0]: when every invocation the wrapper makes of the inner
    operation fails with an error of the retryable set, there are exactly
    [limit + 1] invocations and [query] throws the error of the last one;
    when the first invocation fails with an error that is not in the
    retryable set, the inner operation is invoked exactly once and that
    error is thrown.  For [limit < 0] the inner operation is not invoked
    and [query] throws the generic ['All retries failed']. *)
Theorem retry_invocations (inner : Client W) (constructed given : RetryOptions)
    (params : QueryParams) (w : W) :
  let self := new (recorded inner) constructed in
  let limit := inForce 3 (maxRetries constructed) (maxRetries given) in
  let retryable :=
    inForce [429; 500; 502; 503; 504] (retryableErrors constructed)
            (retryableErrors given) in
  (0 <= limit →
     (∀ o log w',
        query self params given ([], w) = (o, (log, w')) →
        Forall (failsRetryably retryable) log →
        Z.of_nat (length log) = limit + 1 ∧
        ∃ e earlier, log = Thrown e :: earlier ∧ o = Thrown e)
     ∧
     (∀ e w1,
        inner params w = (Thrown e, w1) →
        ¬ inRetryableSet retryable e →
        query self params given ([], w) = (Thrown e, ([Thrown e], w1))))
  ∧
  (limit < 0 →
     query self params given ([], w)
       = (Thrown (PlainError None "All retries failed"), ([], w))).
Proof.
  intros self limit retryable. subst self. unfold query.
  cbn [client new defaultOptions].
  destruct (options_in_force constructed given) as [Hlimit Hset].
  set (opts := spread (spread builtinOptions constructed) given) in *.
  fold limit in Hlimit. fold retryable in Hset.
  split; [intros Hcount | intros Hnone].
  2: { by replace (Z.to_nat (opt_maxRetries opts + 1)) with O by lia. }
  replace (Z.to_nat (opt_maxRetries opts + 1)) with (S (Z.to_nat limit)) by lia.
  split.
  - intros o log w' Hrun Hall.
    apply attempts_all_fail in Hrun as (new & -> & Hnew); [| done | lia].
    rewrite app_nil_r in *. rewrite Hset in Hnew.
    destruct (Hnew Hall) as (Hlen & e & earlier & -> & ->).
    split; [rewrite Hlen; lia |]. by exists e, earlier.
  - intros e w1 Hcall Hno. apply attempts_not_retryable; [done |].
    apply not_true_is_false. intros Hr. apply isRetryable_spec in Hr.
    rewrite Hset in Hr. done.
Qed.

End WithEnv.

Section WithJournal.
Context {W : Type} `{Env W}.

(** Computing a delay enters nothing in the journal. *)
Lemma calculateDelay_journal attempt error options (j : Journal W) :
  events (snd (calculateDelay attempt error options j)) = events j.
Proof.
  unfold calculateDelay. cbn [random Env_Journal].
  destruct (random (journal_world j)) as [r w'].
  destruct error as [e | errno msg]; cbn; [| done].
  destruct (code e =? 429); [| done].
  by destruct (retryAfterHint e).
Qed.

(** The loop only adds to the journal. *)
Lemma attempts_journal_grows (inner : Client W) opts params :
  ∀ remaining attempt lastError (j : Journal W),
    ∃ later,
      events (snd (attempts (journaled inner) opts params remaining attempt lastError j))
        = later ++ events j.
Proof.
  induction remaining as [| remaining IH]; intros attempt lastError j;
    [by exists [] |].
  cbn [attempts]. unfold journaled at 1.
  destruct (inner params (journal_world j)) as [[r | e] w1];
    [by exists [Called (Returned r)] |].
  destruct (negb _); [by exists [Called (Thrown e)] |].
  destruct (attempt =? _); [by exists [Called (Thrown e)] |].
  set (j1 := mkJournal (Called (Thrown e) :: events j) w1).
  pose proof (calculateDelay_journal attempt e opts j1) as Hkeep.
  destruct (calculateDelay attempt e opts j1) as [delay j2]. cbn [snd] in Hkeep.
  destruct (IH (attempt + 1) (Some e) (sleep delay j2)) as [later ->].
  cbn [sleep Env_Journal events]. rewrite Hkeep. cbn [j1 events].
  exists (later ++ [Slept delay; Called (Thrown e)]). by rewrite <- app_assoc.
Qed.

(** An iteration of the loop begins by invoking the inner operation. *)
Lemma attempts_journal_first (inner : Client W) opts params remaining attempt
    lastError (j : Journal W) :
  remaining ≠ O →
  ∃ later o,
    events (snd (attempts (journaled inner) opts params remaining attempt lastError j))
      = later ++ Called o :: events j.
Proof.
  destruct remaining as [| remaining]; [done |]. intros _.
  cbn [attempts]. unfold journaled at 1.
  destruct (inner params (journal_world j)) as [[r | e] w1];
    [by exists [], (Returned r) |].
  destruct (negb _); [by exists [], (Thrown e) |].
  destruct (attempt =? _); [by exists [], (Thrown e) |].
  set (j1 := mkJournal (Called (Thrown e) :: events j) w1).
  pose proof (calculateDelay_journal attempt e opts j1) as Hkeep.
  destruct (calculateDelay attempt e opts j1) as [delay j2]. cbn [snd] in Hkeep.
  destruct (attempts_journal_grows inner opts params remaining (attempt + 1) (Some e)
              (sleep delay j2)) as [later ->].
  cbn [sleep Env_Journal events]. rewrite Hkeep. cbn [j1 events].
  exists (later ++ [Slept delay]), (Thrown e). by rewrite <- app_assoc.
Qed.

(** C8, as the code has it.  Let the retry count in force be at least
    one, and let the first invocation of the inner operation fail without
    a classification.  When the failure carries one of the codes
    ECONNRESET, ETIMEDOUT and ENOTFOUND, [query] suspends and then invokes
    the inner operation a second time: the journal of the run begins with
    the failed invocation, a suspension and another invocation.  Any other
    unclassified failure is thrown at once: one invocation, no
    suspension. *)
Theorem unclassified_failure_retry (inner : Client W) (constructed given : RetryOptions)
    (params : QueryParams) (w w1 : W) (errno : option string) (msg : string) :
  let self := new (journaled inner) constructed in
  let limit := inForce 3 (maxRetries constructed) (maxRetries given) in
  let error := PlainError errno msg in
  let run := query self params given (mkJournal [] w) in
  1 <= limit →
  inner params w = (Thrown error, w1) →
  (errno = Some "ECONNRESET"%string ∨ errno = Some "ETIMEDOUT"%string ∨
   errno = Some "ENOTFOUND"%string →
     ∃ later again delay,
       events (snd run) = later ++ [Called again; Slept delay; Called (Thrown error)])
  ∧
  (¬ (errno = Some "ECONNRESET"%string ∨ errno = Some "ETIMEDOUT"%string ∨
      errno = Some "ENOTFOUND"%string) →
     run = (Thrown error, mkJournal [Called (Thrown error)] w1)).
Proof.
  intros self limit error run Hcount Hcall. subst run self. unfold query.
  cbn [client new defaultOptions].
  destruct (options_in_force constructed given) as [Hlimit _].
  set (opts := spread (spread builtinOptions constructed) given) in *.
  fold limit in Hlimit.
  replace (Z.to_nat (opt_maxRetries opts + 1)) with (S (S (Z.to_nat (limit - 1)))) by lia.
  remember (S (Z.to_nat (limit - 1))) as left eqn:Hleft.
  split.
  - intros Hnet.
    assert (isRetryable error (opt_retryableErrors opts) = true) as Hretry
      by by apply isRetryable_spec.
    cbn [attempts]. unfold journaled at 1. cbn [journal_world events].
    rewrite Hcall, Hretry. cbn [negb].
    destruct (Z.eqb_spec 0 (opt_maxRetries opts)); [lia |].
    set (j1 := mkJournal [Called (Thrown error)] w1).
    pose proof (calculateDelay_journal 0 error opts j1) as Hkeep.
    destruct (calculateDelay 0 error opts j1) as [delay j2]. cbn [snd] in Hkeep.
    destruct (attempts_journal_first inner opts params left
                (0 + 1) (Some error) (sleep delay j2)) as (later & again & ->); [lia |].
    cbn [sleep Env_Journal events]. rewrite Hkeep. cbn [j1 events].
    by exists later, again, delay.
  - intros Hother.
    assert (isRetryable error (opt_retryableErrors opts) = false) as Hno.
    { apply not_true_is_false. intros Hr. by apply isRetryable_spec in Hr. }
    cbn [attempts]. unfold journaled at 1. cbn [journal_world events].
    by rewrite Hcall, Hno.
Qed.

End WithJournal.

Section WithDelay.
Context {W : Type} `{Env W}.

(** C4, as the code has it.  The [retryAfter] detail decides the delay
    only for a 429: with a truthy (non-zero) detail the delay is the
    product [retryAfter * 1000], whatever the attempt and the options,
    and [Math.random()] is not called.  For an error of any other status
    code, whatever its details carry, for an unclassified failure, and
    for a 429 whose detail is absent or zero, the delay is the backoff
    delay with jitter, for the random number drawn. *)
Theorem rate_limit_hint_delay (attempt : Z) (error : JsError) (options : Options)
    (w : W) :
  let backoff :=
    (jittered (exponentialDelay attempt options) (fst (random w)), snd (random w)) in
  (∀ e s,
     error = SDKError e → code e = 429 → explicitHint error = Some s →
     num_truthy (lit s) = true →
     calculateDelay attempt error options w = (num_mul (lit s) (lit 1000), w))
  ∧
  ((∀ e, error = SDKError e → code e ≠ 429) →
     calculateDelay attempt error options w = backoff)
  ∧
  (∀ s, explicitHint error = Some s → num_truthy (lit s) = false →
     calculateDelay attempt error options w = backoff)
  ∧
  (explicitHint error = None →
     calculateDelay attempt error options w = backoff).
Proof.
  intros backoff. unfold backoff, calculateDelay, retryAfterHint.
  destruct (random w) as [r w']. cbn [fst snd].
  repeat apply conj.
  - intros e s -> Hcode Hhint Htruthy. rewrite Hcode. cbn [Z.eqb Pos.eqb].
    cbn in Hhint. destruct (details e) as [d |]; [| done]. cbn in Hhint.
    by rewrite Hhint, Htruthy.
  - intros Hother. destruct error as [e | errno msg]; [| done].
    by destruct (Z.eqb_spec (code e) 429) as [Hcode | _]; [destruct (Hother e eq_refl) |].
  - intros s Hhint Hfalsy. destruct error as [e | errno msg]; [| done].
    destruct (code e =? 429); [| done].
    cbn in Hhint. destruct (details e) as [d |]; [| done]. cbn in Hhint.
    by rewrite Hhint, Hfalsy.
  - intros Hhint. destruct error as [e | errno msg]; [| done].
    destruct (code e =? 429); [| done].
    cbn in Hhint. destruct (details e) as [d |]; [| done]. cbn in Hhint.
    by rewrite Hhint.
Qed.

(** The backoff path of [calculateDelay]: taken by every error without
    a [retryAfter] detail. *)
Lemma calculateDelay_backoff (attempt : Z) (error : JsError) (options : Options)
    (w w' : W) (r : Q) :
  explicitHint error = None →
  random w = (r, w') →
  calculateDelay attempt error options w
    = (jittered (exponentialDelay attempt options) r, w').
Proof.
  intros Hhint Hr. unfold calculateDelay. rewrite Hr.
  destruct error as [e | errno msg]; [| done].
  destruct (code e =? 429); [| done].
  unfold retryAfterHint. cbn in Hhint.
  destruct (details e) as [d |]; [| done]. cbn in Hhint. by rewrite Hhint.
Qed.

End WithDelay.

(** Bounds of the jittered delay over a finite, non-negative base, from
    the monotonicity of rounding. *)
Lemma jittered_bounds `{JsNumber} {rounding : IEEE754} (base : number) (r : Q) :
  num_le (lit 0) base → num_finite base → (0 <= r)%Q → (r <= 1)%Q →
  num_le (Math_floor base) (jittered base r) ∧
  num_le (jittered base r)
         (Math_floor (num_add base (num_mul (lit (3 # 10)) base))).
Proof.
  intros Hb Hfin Hr0 Hr1. unfold jittered.
  set (c := lit (3 # 10)).
  assert (num_finite (lit 0)) as Hf0 by (apply finite_unit; lra).
  assert (num_finite (lit 1)) as Hf1 by (apply finite_unit; lra).
  assert (num_finite c) as Hfc by (apply finite_unit; lra).
  assert (num_finite (lit r)) as Hfr by by apply finite_unit.
  assert (num_le (lit 0) c) as Hc0 by (apply lit_mono; lra).
  assert (num_le c c) as Hcc by (apply lit_mono; lra).
  assert (num_le (lit 0) (num_mul (lit r) c)) as Hlo1.
  { eapply num_le_trans; [apply (mul_zero c Hfc) |].
    apply mul_mono; try done. by apply lit_mono. }
  assert (num_le (num_mul (lit r) c) c) as Hhi1.
  { eapply num_le_trans; [| apply (mul_one c Hcc)].
    apply mul_mono; try done. by apply lit_mono. }
  assert (num_finite (num_mul (lit r) c)) as Hfin1
    by by apply (finite_between (lit 0) _ c).
  assert (num_le (lit 0) (num_mul (num_mul (lit r) c) base)) as Hlo.
  { eapply num_le_trans; [apply (mul_zero base Hfin) |]. by apply mul_mono. }
  assert (num_le (num_mul (num_mul (lit r) c) base) (num_mul c base)) as Hhi
    by by apply mul_mono.
  split; apply floor_mono.
  - eapply num_le_trans; [apply (add_zero base Hfin) |]. by apply add_mono.
  - by apply add_mono.
Qed.

(** C9, as the code has it.  Without a [retryAfter] detail the base delay
    is [Math.min(initialDelay * Math.pow(backoffMultiplier, i), maxDelay)]
    and the delay returned is [Math.floor(base + r * 0.3 * base)] for the
    random number [r], all in the arithmetic of the code.  When the base
    is a finite number that is not negative and [0 <= r < 1], the delay is
    never above [Math.floor(base + 0.3 * base)] and never below the base
    rounded down to a whole millisecond, hence never below the base when
    the base is a whole number of milliseconds. *)
Theorem backoff_delay_bounds {W : Type} `{Env W} {rounding : IEEE754} (attempt : Z)
    (error : JsError) (options : Options) (w w' : W) (r : Q) :
  let base := exponentialDelay attempt options in
  let delay := fst (calculateDelay attempt error options w) in
  explicitHint error = None →
  random w = (r, w') → (0 <= r)%Q → (r < 1)%Q →
  num_le (lit 0) base → num_finite base →
  base = Math_min (num_mul (lit (opt_initialDelay options))
                           (Math_pow (lit (opt_backoffMultiplier options))
                                     (lit (inject_Z attempt))))
                  (lit (opt_maxDelay options)) ∧
  delay = Math_floor (num_add base (num_mul (num_mul (lit r) (lit (3 # 10))) base)) ∧
  num_le (Math_floor base) delay ∧
  num_le delay (Math_floor (num_add base (num_mul (lit (3 # 10)) base))) ∧
  (Math_floor base = base → num_le base delay).
Proof.
  intros base delay Hhint Hr Hr0 Hr1 Hb Hfin.
  assert (delay = jittered base r) as Hdelay.
  { unfold delay. by rewrite (calculateDelay_backoff _ _ _ w w' r). }
  destruct (jittered_bounds base r Hb Hfin Hr0) as [Hlo Hhi]; [lra |].
  rewrite Hdelay. repeat apply conj; try done.
  intros Hwhole. by rewrite Hwhole in Hlo.
Qed.

(** Exact arithmetic has the properties of rounding the bounds rest on. *)
Lemma Exact_IEEE754 : IEEE754 (H := Exact).
Proof.
  split; cbn.
  - intros a b c. apply Qle_trans.
  - done.
  - done.
  - done.
  - intros a b k _ _ _ Hk Hab. by apply Qmult_le_compat_r.
  - intros k _. rewrite Qmult_0_l. apply Qle_refl.
  - intros k _. rewrite Qmult_1_l. apply Qle_refl.
  - intros a b k _ Hab. by apply Qplus_le_r.
  - intros k _. rewrite Qplus_0_r. apply Qle_refl.
  - intros a b Hab. rewrite <- Zle_Qle. by apply Qfloor_resp_le.
Qed.

(** The default configuration against a service that answers 503 four
    times: four invocations, then the 503 is thrown.  And a 404 is thrown
    after one invocation. *)
Lemma retry_invocations_witness :
  let failure := Thrown (Simulation.sdkError 503 None) in
  let run := query (new (recorded Simulation.service) noOptions) Simulation.pricing
                   noOptions
                   ([], Simulation.world 0 [failure; failure; failure; failure] []) in
  (Z.of_nat (length (fst (snd run))) = 3 + 1 ∧
   ∃ e earlier, fst (snd run) = Thrown e :: earlier ∧ fst run = Thrown e)
  ∧
  query (new (recorded Simulation.service) noOptions) Simulation.pricing noOptions
        ([], Simulation.world 0 [Thrown (Simulation.sdkError 404 None)] [])
    = (Thrown (Simulation.sdkError 404 None),
       ([Thrown (Simulation.sdkError 404 None)],
        Simulation.mkWorld 0 [] [] [Simulation.pricing] [])).
Proof.
  intros failure run. split.
  - refine (proj1 (proj1 (retry_invocations Simulation.service noOptions noOptions
              Simulation.pricing
              (Simulation.world 0 [failure; failure; failure; failure] [])) _)
              (fst run) (fst (snd run)) (snd (snd run)) _ _).
    + cbn. lia.
    + reflexivity.
    + repeat constructor; exists (Simulation.sdkError 503 None);
        (split; [reflexivity |]); cbn;
        repeat first [apply list_elem_of_here | apply list_elem_of_further].
  - refine (proj2 (proj1 (retry_invocations Simulation.service noOptions noOptions
              Simulation.pricing
              (Simulation.world 0 [Thrown (Simulation.sdkError 404 None)] [])) _)
              (Simulation.sdkError 404 None)
              (Simulation.mkWorld 0 [] [] [Simulation.pricing] []) _ _).
    + cbn. lia.
    + reflexivity.
    + cbn. rewrite !elem_of_cons, elem_of_nil. lia.
Defined.

(** C3 fails on the code for a negative retry count: with
    [maxRetries = -2] the loop body never runs, so against a service that
    answers 503 to everything the wrapper makes no invocation, not
    [maxRetries + 1], and throws the generic ['All retries failed'], not
    an error it observed. *)
Lemma negative_limit_generic_error :
  let inner := down (Simulation.sdkError 503 None) in
  let given := mkRetryOptions (Some (-2)) None None None None in
  let run := query (new (recorded inner) noOptions) Simulation.pricing given
                   ([], Simulation.world 0 [] []) in
  always_fails_retryably inner (spread builtinOptions given) ∧
  invocations (snd run) = 0%nat ∧
  Z.of_nat (invocations (snd run)) ≠ -2 + 1 ∧
  fst run = Thrown (PlainError None "All retries failed") ∧
  fst run ≠ Thrown (Simulation.sdkError 503 None).
Proof.
  cbv zeta. repeat apply conj; try reflexivity; [| cbn; lia | discriminate].
  intros params w. exists (Simulation.sdkError 503 None). split; reflexivity.
Qed.

(** The spec's scenario: a 429 with [retryAfter = 2] on the first
    attempt, success on the second.  One success, two invocations, one
    suspension of exactly 2000 ms. *)
Example rate_limited_then_ok :
  query (mk (recorded Simulation.service) builtinOptions) Simulation.pricing noOptions
        ([], Simulation.world 0 [Thrown (Simulation.sdkError 429 (Some 2%Q))] [1 # 2])
    = (Returned Simulation.okResponse,
       ([Returned Simulation.okResponse; Thrown (Simulation.sdkError 429 (Some 2%Q))],
        Simulation.mkWorld 2000 [] [1 # 2] [Simulation.pricing; Simulation.pricing]
                           [(2 * 1000)%Q])).
Proof. reflexivity. Qed.

(** A connection reset is retried: the journal begins with the failed
    invocation, a suspension, and a second invocation. *)
Lemma unclassified_failure_retry_witness :
  let reset := PlainError (Some "ECONNRESET"%string) "read ECONNRESET" in
  let run := query (new (journaled Simulation.service) noOptions) Simulation.pricing
                   noOptions (mkJournal [] (Simulation.world 0 [Thrown reset] [])) in
  ∃ later again delay,
    events (snd run) = later ++ [Called again; Slept delay; Called (Thrown reset)].
Proof.
  intros reset run.
  refine (proj1 (unclassified_failure_retry Simulation.service noOptions noOptions
            Simulation.pricing (Simulation.world 0 [Thrown reset] [])
            (Simulation.mkWorld 0 [] [] [Simulation.pricing] [])
            (Some "ECONNRESET"%string) "read ECONNRESET" _ _) _).
  - cbn. lia.
  - reflexivity.
  - by left.
Defined.

(** C8 fails on the code: an unclassified failure that carries none of
    the three network codes (here a plain [Error] without [code]) is not
    retryable, and [query] throws it after a single invocation although
    three retries were left and the next call would have succeeded. *)
Lemma unclassified_failure_not_retried :
  isRetryable (PlainError None "socket hang up") (opt_retryableErrors builtinOptions)
    = false ∧
  query (mk (recorded Simulation.service) builtinOptions) Simulation.pricing noOptions
        ([], Simulation.world 0 [Thrown (PlainError None "socket hang up")] [])
    = (Thrown (PlainError None "socket hang up"),
       ([Thrown (PlainError None "socket hang up")],
        Simulation.mkWorld 0 [] [] [Simulation.pricing] [])).
Proof. split; reflexivity. Qed.

(** A 429 with [retryAfter = 2]: the delay is 2 * 1000. *)
Lemma rate_limit_hint_delay_witness :
  calculateDelay 0 (Simulation.sdkError 429 (Some 2%Q)) builtinOptions
                 (Simulation.world 0 [] [1 # 2])
    = ((2 * 1000)%Q, Simulation.world 0 [] [1 # 2]).
Proof.
  refine (proj1 (rate_limit_hint_delay 0 (Simulation.sdkError 429 (Some 2%Q))
            builtinOptions (Simulation.world 0 [] [1 # 2]))
            (mkSDKError 429 "error" (Some (mkErrorDetails (Some 2%Q)))) 2%Q _ _ _ _).
  - reflexivity.
  - reflexivity.
  - reflexivity.
  - reflexivity.
Defined.

(** C4 fails on the code: a retryable 503 that carries [retryAfter = 2]
    is not delayed by 2000 ms; the backoff formula and the jitter apply
    (here 1000 ms plus 150 ms of jitter for the random number 1/2). *)
Lemma hint_ignored_outside_429 :
  let error := Simulation.sdkError 503 (Some 2%Q) in
  let delay := fst (calculateDelay 0 error builtinOptions
                                   (Simulation.world 0 [] [1 # 2])) in
  isRetryable error (opt_retryableErrors builtinOptions) = true ∧
  explicitHint error = Some 2%Q ∧
  delay = inject_Z 1150 ∧
  ¬ (delay == 2 * 1000)%Q.
Proof.
  cbv zeta. repeat split; try reflexivity.
  intros Heq. vm_compute in Heq. discriminate Heq.
Qed.

(** The default options, third retry, random number 1/2, in exact
    arithmetic. *)
Lemma backoff_delay_bounds_witness :
  let base := exponentialDelay 2 builtinOptions in
  let delay := fst (calculateDelay 2 (Simulation.sdkError 503 None) builtinOptions
                                   (Simulation.world 0 [] [1 # 2])) in
  (inject_Z (Qfloor base) <= delay)%Q ∧
  (delay <= inject_Z (Qfloor (base + (3 # 10) * base)))%Q.
Proof.
  intros base delay.
  destruct (backoff_delay_bounds (rounding := Exact_IEEE754) 2
              (Simulation.sdkError 503 None) builtinOptions
              (Simulation.world 0 [] [1 # 2]) (Simulation.world 0 [] []) (1 # 2))
    as (_ & _ & Hlo & Hhi & _);
    [reflexivity | reflexivity | easy | easy | easy | easy |].
  split; [exact Hlo | exact Hhi].
Defined.

(** C9 fails on the code: with [backoffMultiplier = 1.5] the base delay
    of attempt 4 is 5062.5 ms; for the random number 1/10000 the jitter
    is 0.15 ms and [Math.floor] returns 5062, below the base. *)
Lemma delay_below_base :
  let options := spread builtinOptions
                   (mkRetryOptions (Some 5) None None (Some (3 # 2)) None) in
  let base := exponentialDelay 4 options in
  let delay := fst (calculateDelay 4 (Simulation.sdkError 503 None) options
                                   (Simulation.world 0 [] [1 # 10000])) in
  explicitHint (Simulation.sdkError 503 None) = None ∧
  (base == 10125 # 2)%Q ∧ delay = inject_Z 5062 ∧ (delay < base)%Q.
Proof. cbv zeta. repeat split. Qed.

End RetryProperties.

(** ** Circuit breaker *)

Module BreakerProperties.
Import CircuitBreakerClient Behaviour.

Section WithEnv.
Context {W : Type} `{Env W}.
Variable self : t (W := W).

Local Abbreviation opts := (options self).

(** The three ways a call can leave the stored state. *)
Lemma query_state params st w :
  let st' := snd (fst (query self params st w)) in
  (checkState opts st (now w) = None ∧ st' = st) ∨
  (∃ st1, checkState opts st (now w) = Some st1 ∧
          (st' = onSuccess st1 ∨ ∃ t, st' = onFailure opts t st1)).
Proof.
  unfold query. destruct (checkState opts st (now w)) as [st1 |]; [| by left].
  right. exists st1. split; [done |].
  destruct (client self params w) as [[r | e] w']; cbn; eauto.
Qed.

Lemma checkState_cases st t st1 :
  checkState opts st t = Some st1 →
  (state st ≠ OPEN ∧ st1 = st) ∨
  (state st = OPEN ∧ state st1 = HALF_OPEN ∧ failures st1 = failures st ∧
   lastFailureTime st1 = lastFailureTime st ∧ successCount st1 = successCount st).
Proof.
  unfold checkState. destruct (state st) eqn:Hs.
  - intros [= <-]. by left.
  - destruct (shouldAttemptReset opts st t); [| done]. intros [= <-]. by right.
  - intros [= <-]. by left.
Qed.

Lemma invariant_reachable st :
  1 <= opt_failureThreshold opts → BreakerReachable self st → BreakerInvariant opts st.
Proof.
  intros Hthr Hreach. induction Hreach as [| st params w Hreach IH].
  - split; cbn; try done; lia.
  - destruct IH as [Hf Hc Ho Hs Hh].
    destruct (query_state params st w) as [[_ ->] | (st1 & Hcheck & Hst')];
      [by split |].
    apply checkState_cases in Hcheck
      as [[Hno ->] | (Hopen & Hhalf & Hf1 & Hl1 & Hs1)].
    + destruct Hst' as [-> | [t ->]].
      * unfold onSuccess, successThreshold in *.
        destruct (state st) eqn:Hstate; [| done |].
        -- split; cbn; try done; lia.
        -- destruct (Z.leb_spec 3 (successCount st + 1)); split; cbn; try done; try lia.
           all: intros _; specialize (Hh eq_refl); unfold successThreshold; lia.
      * unfold onFailure. destruct (state st) eqn:Hstate; [| done |].
        -- destruct (Z.leb_spec (opt_failureThreshold opts) (failures st + 1));
             split; cbn; try done; try lia; eauto.
        -- split; cbn; try done; eauto.
    + assert (successCount st = 0) as Hz by (apply Hs; by rewrite Hopen).
      destruct Hst' as [-> | [t ->]].
      * unfold onSuccess, successThreshold. rewrite Hhalf, Hs1, Hz. cbn.
        split; cbn; try done; unfold successThreshold; lia.
      * unfold onFailure. rewrite Hhalf. split; cbn; try done; try lia; eauto.
Qed.

(** While the circuit is open and the reset timeout has not elapsed,
    a call is rejected: the stored state and the world are returned as
    they were, so the inner operation was not invoked. *)
Lemma open_rejects st last params w :
  state st = OPEN → lastFailureTime st = Some last →
  now w - last < opt_resetTimeout opts →
  query self params st w = (Thrown circuitOpen, st, w).
Proof.
  intros Hopen Hlast Hearly. unfold query, checkState, shouldAttemptReset.
  rewrite Hopen, Hlast. by destruct (Z.leb_spec (opt_resetTimeout opts) (now w - last)); [lia |].
Qed.

(** Once the reset timeout has elapsed, the call is let through in
    state [HALF_OPEN]. *)
Lemma open_probes st last t :
  state st = OPEN → lastFailureTime st = Some last →
  opt_resetTimeout opts <= t - last →
  checkState opts st t
    = Some (mkState HALF_OPEN (failures st) (lastFailureTime st) (successCount st)).
Proof.
  intros Hopen Hlast Hlate. unfold checkState, shouldAttemptReset.
  rewrite Hopen, Hlast. by destruct (Z.leb_spec (opt_resetTimeout opts) (t - last)); [| lia].
Qed.

(** A call that is let through runs the inner operation and then one
    of the two handlers. *)
Lemma query_attempted st st1 params w :
  checkState opts st (now w) = Some st1 →
  query self params st w
    = (let '(o, w') := client self params w in
       (o,
        match o with
        | Returned _ => onSuccess st1
        | Thrown _ => onFailure opts (now w') st1
        end,
        w')).
Proof.
  intros Hcheck. unfold query. rewrite Hcheck.
  by destruct (client self params w) as [[r | e] w'].
Qed.

(** The stored state after a call whose inner operation fails. *)
Lemma failing_call st call :
  innerFails (client self) call →
  let st' := breakerAfter self [call] st in
  (state st = CLOSED →
     failures st' = failures st + 1 ∧
     state st' = if opt_failureThreshold opts <=? failures st + 1 then OPEN else CLOSED) ∧
  (state st = OPEN → state st' = OPEN) ∧
  (state st = HALF_OPEN → state st' = OPEN).
Proof.
  destruct call as [params w]. unfold innerFails, breakerAfter. cbn [fold_left fst snd].
  intros Hfail. unfold query, checkState.
  destruct (client self params w) as [[r | e] w']; [done |].
  repeat apply conj; intros Hstate; rewrite Hstate; cbn; try done.
  - unfold onFailure. by rewrite Hstate.
  - by destruct (shouldAttemptReset opts st (now w)).
  - unfold onFailure. by rewrite Hstate.
Qed.

(** The stored state after a call that is let through and whose inner
    operation succeeds. *)
Lemma succeeding_call st st1 call :
  innerSucceeds (client self) call →
  checkState opts st (now (snd call)) = Some st1 →
  breakerAfter self [call] st = onSuccess st1.
Proof.
  destruct call as [params w]. unfold innerSucceeds, breakerAfter. cbn [fold_left fst snd].
  intros Hok Hcheck. rewrite (query_attempted st st1) by done.
  by destruct (client self params w) as [[r | e] w'].
Qed.

Lemma breakerAfter_cons call calls st :
  breakerAfter self (call :: calls) st
    = breakerAfter self calls (breakerAfter self [call] st).
Proof. done. Qed.

Lemma breakerAfter_reachable calls st :
  BreakerReachable self st → BreakerReachable self (breakerAfter self calls st).
Proof.
  revert st. induction calls as [| [params w] calls IH]; intros st Hreach; [done |].
  rewrite breakerAfter_cons. apply IH. by constructor.
Qed.

(** Enough consecutive failures open the circuit, and failures keep it
    open. *)
Lemma failures_open calls :
  1 <= opt_failureThreshold opts →
  Forall (innerFails (client self)) calls →
  ∀ st,
    BreakerReachable self st →
    state st = OPEN ∨
    (state st = HALF_OPEN ∧ calls ≠ []) ∨
    (state st = CLOSED ∧ opt_failureThreshold opts <= failures st + Z.of_nat (length calls)) →
    state (breakerAfter self calls st) = OPEN.
Proof.
  intros Hthr Hfail. induction Hfail as [| call calls Hcall Hfail IH]; intros st Hreach Hst.
  - pose proof (invariant_reachable st Hthr Hreach) as [_ Hc _ _ _].
    destruct Hst as [Ho | [[_ Hne] | [Hcl Hlen]]]; [done | done |].
    specialize (Hc Hcl). cbn in Hlen. lia.
  - rewrite breakerAfter_cons.
    destruct (failing_call st call Hcall) as (Hclosed & Hopen & Hhalf).
    apply IH; [by apply (breakerAfter_reachable [call]) |].
    destruct Hst as [Ho | [[Hh _] | [Hcl Hlen]]]; [left; auto | left; auto |].
    destruct (Hclosed Hcl) as [Hf Hs]. rewrite Hs, Hf.
    destruct (Z.leb_spec (opt_failureThreshold opts) (failures st + 1)); [by left |].
    right; right. split; [done |]. cbn [length] in Hlen. lia.
Qed.

(** A failing call made with the circuit closed is counted, and the
    clock reading at the failure is recorded. *)
Lemma failing_call_closed st call :
  state st = CLOSED →
  innerFails (client self) call →
  breakerAfter self [call] st
    = onFailure opts (now (snd (client self (fst call) (snd call)))) st.
Proof.
  destruct call as [params w]. unfold innerFails, breakerAfter. cbn [fold_left fst snd].
  intros Hclosed Hfail. unfold query, checkState. rewrite Hclosed.
  by destruct (client self params w) as [[r | e] w'].
Qed.

(** Failures short of the threshold leave the circuit closed and are
    counted. *)
Lemma closed_failures calls : ∀ st,
  state st = CLOSED →
  Forall (innerFails (client self)) calls →
  failures st + Z.of_nat (length calls) < opt_failureThreshold opts →
  state (breakerAfter self calls st) = CLOSED ∧
  failures (breakerAfter self calls st) = failures st + Z.of_nat (length calls).
Proof.
  induction calls as [| call calls IH]; intros st Hclosed Hfail Hfew.
  - cbn. split; [done | lia].
  - apply Forall_cons in Hfail as [Hcall Hfail]. cbn [length] in Hfew.
    rewrite breakerAfter_cons, (failing_call_closed st call Hclosed Hcall).
    set (t := now _).
    assert (onFailure opts t st
            = mkState CLOSED (failures st + 1) (Some t) 0) as ->.
    { unfold onFailure. rewrite Hclosed.
      by destruct (Z.leb_spec (opt_failureThreshold opts) (failures st + 1)); [lia |]. }
    destruct (IH (mkState CLOSED (failures st + 1) (Some t) 0)) as [-> ->];
      [done | done | cbn; lia |].
    cbn [failures length]. split; [done | lia].
Qed.

(** C2.  The state machine of the breaker, for a failure threshold of
    at least one.
    (a) When consecutive failing calls made with the circuit closed bring
        the failure count to [failureThreshold] (so [failureThreshold]
        calls when the count was zero), the circuit is open and the last
        failure recorded is the clock reading at the failure of the last
        of them; every call made before [resetTimeout] has elapsed since
        that reading, hence the next call, is rejected with the state
        and the world untouched (no inner invocation).
    (b) A call made to an open circuit once [resetTimeout] has elapsed
        moves the circuit to [HALF_OPEN] and is attempted.
    (c) A failure of a call attempted in [HALF_OPEN] reopens the
        circuit.
    (d) From an open circuit whose timeout has elapsed,
        [successThreshold = 3] consecutive successes close the circuit
        (it is half-open after the first and the second) and leave
        both counters at zero. *)
Theorem breaker_state_machine :
  1 <= opt_failureThreshold opts →
  (∀ st calls final,
     state st = CLOSED →
     failures st + Z.of_nat (length calls) + 1 = opt_failureThreshold opts →
     Forall (innerFails (client self)) (calls ++ [final]) →
     let st' := breakerAfter self (calls ++ [final]) st in
     let tripped := now (snd (client self (fst final) (snd final))) in
     state st' = OPEN ∧ lastFailureTime st' = Some tripped ∧
     failures st' = opt_failureThreshold opts ∧
     ∀ params w,
       now w - tripped < opt_resetTimeout opts →
       query self params st' w = (Thrown circuitOpen, st', w))
  ∧
  (∀ st last params w,
     state st = OPEN → lastFailureTime st = Some last →
     opt_resetTimeout opts <= now w - last →
     ∃ half,
       checkState opts st (now w) = Some half ∧ state half = HALF_OPEN ∧
       query self params st w
         = (let '(o, w') := client self params w in
            (o,
             match o with
             | Returned _ => onSuccess half
             | Thrown _ => onFailure opts (now w') half
             end,
             w')))
  ∧
  (∀ st half params w,
     checkState opts st (now w) = Some half → state half = HALF_OPEN →
     innerFails (client self) (params, w) →
     let st' := snd (fst (query self params st w)) in
     state st' = OPEN ∧ successCount st' = 0)
  ∧
  (∀ st last c1 c2 c3,
     BreakerReachable self st →
     state st = OPEN → lastFailureTime st = Some last →
     opt_resetTimeout opts <= now (snd c1) - last →
     Forall (innerSucceeds (client self)) [c1; c2; c3] →
     state (breakerAfter self [c1] st) = HALF_OPEN ∧
     state (breakerAfter self [c1; c2] st) = HALF_OPEN ∧
     let st' := breakerAfter self [c1; c2; c3] st in
     state st' = CLOSED ∧ failures st' = 0 ∧ successCount st' = 0).
Proof.
  intros Hthr. repeat apply conj.
  - intros st calls final Hclosed Hcount Hfail st' tripped.
    apply Forall_app in Hfail as [Hfail Hfinal].
    apply Forall_cons in Hfinal as [Hfinal _].
    destruct (closed_failures calls st Hclosed Hfail) as [Hstill Hcounted]; [lia |].
    assert (st' = mkState OPEN (opt_failureThreshold opts) (Some tripped) 0) as Hst'.
    { unfold st', breakerAfter. rewrite fold_left_app.
      fold (breakerAfter self calls st).
      change (fold_left ?f [final] ?x) with (breakerAfter self [final] x).
      rewrite (failing_call_closed _ final Hstill Hfinal). fold tripped.
      unfold onFailure. rewrite Hstill, Hcounted.
      replace (failures st + Z.of_nat (length calls) + 1)
        with (opt_failureThreshold opts) by lia.
      by rewrite Z.leb_refl. }
    rewrite Hst'. cbn [state lastFailureTime failures].
    repeat apply conj; try done.
    intros params w Hearly. by apply (open_rejects _ tripped).
  - intros st last params w Hopen Hlast Hlate.
    eexists. split; [by apply (open_probes st last) |]. split; [done |].
    apply query_attempted. by apply (open_probes st last).
  - intros st half params w Hcheck Hhalf Hfail st'. subst st'.
    rewrite (query_attempted st half) by done.
    unfold innerFails in Hfail. cbn [fst snd] in Hfail.
    destruct (client self params w) as [[r | e] w']; [done |]. cbn.
    unfold onFailure. by rewrite Hhalf.
  - intros st last c1 c2 c3 Hreach Hopen Hlast Hlate Hok.
    apply Forall_cons in Hok as [Hok1 Hok].
    apply Forall_cons in Hok as [Hok2 Hok].
    apply Forall_cons in Hok as [Hok3 _].
    pose proof (invariant_reachable st Hthr Hreach) as [_ _ _ Hs _].
    assert (successCount st = 0) as Hzero by (apply Hs; by rewrite Hopen).
    pose proof (open_probes st last (now (snd c1)) Hopen Hlast Hlate) as Hcheck1.
    assert (breakerAfter self [c1] st = mkState HALF_OPEN 0 (lastFailureTime st) 1) as H1.
    { rewrite (succeeding_call st _ c1 Hok1 Hcheck1).
      unfold onSuccess. cbn. by rewrite Hzero. }
    assert (∀ calls, breakerAfter self (c1 :: calls) st
                     = breakerAfter self calls (breakerAfter self [c1] st)) as Hsplit
      by done.
    rewrite (Hsplit [c2; c3]), (Hsplit [c2]), H1.
    set (st1 := mkState HALF_OPEN 0 (lastFailureTime st) 1).
    assert (breakerAfter self [c2] st1 = mkState HALF_OPEN 0 (lastFailureTime st) 2) as H2
      by by rewrite (succeeding_call st1 st1 c2).
    rewrite (breakerAfter_cons c2 [c3]), H2.
    set (st2 := mkState HALF_OPEN 0 (lastFailureTime st) 2).
    assert (breakerAfter self [c3] st2 = mkState CLOSED 0 (lastFailureTime st) 0) as H3
      by by rewrite (succeeding_call st2 st2 c3).
    by rewrite H3.
Qed.

End WithEnv.

(** Five failing calls on the default breaker, then a sixth call one
    second after the last failure: rejected, the service not called. *)
Lemma breaker_state_machine_witness :
  let self := new (down (Simulation.sdkError 500 None)) noOptions in
  let call t := (Simulation.pricing, Simulation.world t [] []) in
  let st' := breakerAfter self ([call 10; call 20; call 30; call 40] ++ [call 50])
                          initial in
  state st' = OPEN ∧ lastFailureTime st' = Some 50 ∧
  failures st' = 5 ∧
  ∀ params w,
    now w - 50 < 60000 →
    query self params st' w = (Thrown circuitOpen, st', w).
Proof.
  intros self call.
  refine (proj1 (breaker_state_machine self _) initial
            [call 10; call 20; call 30; call 40] (call 50) _ _ _).
  - cbn. lia.
  - reflexivity.
  - reflexivity.
  - repeat constructor.
Defined.

(** The spec's scenario: six consecutive inner failures.  The fifth
    trips the breaker; the sixth external call is rejected locally and
    the service has been called five times. *)
Example sixth_call_rejected :
  let self := new (recorded (down (Simulation.sdkError 500 None))) noOptions in
  let step sw := snd (asClient self Simulation.pricing sw) in
  let after5 := Nat.iter 5 step (initial, ([], Simulation.world 0 [] [])) in
  state (fst after5) = OPEN ∧ failures (fst after5) = 5 ∧
  invocations (snd after5) = 5%nat ∧
  fst (asClient self Simulation.pricing after5) = Thrown circuitOpen ∧
  invocations (snd (snd (asClient self Simulation.pricing after5))) = 5%nat.
Proof. cbv zeta. repeat split. Qed.

End BreakerProperties.

(** ** Monitoring *)

Module MonitorProperties.
Import MonitoredVantigeClient Behaviour.

Section WithEnv.
Context {W : Type} `{Env W}.
Variable self : t (W := W).

Lemma updateErrorRate_counts st :
  requests (updateErrorRate self st) = requests st ∧
  totalErrors (metrics (updateErrorRate self st)) = totalErrors (metrics st).
Proof. unfold updateErrorRate. by destruct (0 <? _). Qed.

(** The rate stored by [updateErrorRate] when the window is not
    empty. *)
Lemma updateErrorRate_rate st :
  0 < Z.min (requests st) (windowSize self) →
  errorRate (metrics (updateErrorRate self st))
    = (inject_Z (totalErrors (metrics st))
       / inject_Z (Z.min (requests st) (windowSize self)))%Q.
Proof.
  intros Hpos. unfold updateErrorRate.
  by destruct (Z.ltb_spec 0 (Z.min (requests st) (windowSize self))); [| lia].
Qed.

(** The counters after one call: every call is a request; only a
    failure with a classified error is an error. *)
Lemma call_counts st call :
  let st' := monitorAfter self [call] st in
  requests st' = requests st + 1 ∧
  totalErrors (metrics st')
    = totalErrors (metrics st)
      + (if classified (outcomeOf (client self) call) then 1 else 0).
Proof.
  destruct call as [params w]. unfold monitorAfter, outcomeOf, query.
  cbn [fold_left fst snd].
  destruct (client self params w) as [[r | [e | errno msg]] w']; cbn [fst snd classified].
  - destruct (updateErrorRate_counts
                (mkState (metrics st) (requests st + 1) (errorCallbacks st))) as [-> ->].
    cbn. lia.
  - unfold recordError.
    match goal with |- context [updateErrorRate self ?s] =>
      destruct (updateErrorRate_counts s) as [-> ->] end.
    done.
  - cbn. lia.
Qed.

(** The rate after a call that succeeds or fails with a classified
    error: it is recomputed from the counters. *)
Lemma call_rate st call :
  let st' := monitorAfter self [call] st in
  (∀ errno msg, outcomeOf (client self) call ≠ Thrown (PlainError errno msg)) →
  0 < Z.min (requests st + 1) (windowSize self) →
  errorRate (metrics st')
    = (inject_Z (totalErrors (metrics st'))
       / inject_Z (Z.min (requests st') (windowSize self)))%Q.
Proof.
  destruct call as [params w]. unfold monitorAfter, outcomeOf, query.
  cbn [fold_left fst snd]. intros Hclass Hpos.
  destruct (client self params w) as [[r | [e | errno msg]] w']; cbn [fst snd] in *.
  - match goal with |- context [updateErrorRate self ?s] =>
      rewrite (updateErrorRate_rate s) by done;
      destruct (updateErrorRate_counts s) as [-> ->] end.
    done.
  - unfold recordError.
    match goal with |- context [updateErrorRate self ?s] =>
      rewrite (updateErrorRate_rate s) by done;
      destruct (updateErrorRate_counts s) as [-> ->] end.
    done.
  - by destruct (Hclass errno msg).
Qed.

Lemma monitorAfter_app calls1 calls2 st :
  monitorAfter self (calls1 ++ calls2) st
    = monitorAfter self calls2 (monitorAfter self calls1 st).
Proof. apply fold_left_app. Qed.

(** The counters after a series of calls. *)
Lemma calls_counts calls st :
  let st' := monitorAfter self calls st in
  requests st' = requests st + Z.of_nat (length calls) ∧
  totalErrors (metrics st')
    = totalErrors (metrics st) + classifiedFailures (client self) calls.
Proof.
  revert st. induction calls as [| call calls IH]; intros st.
  - unfold classifiedFailures. cbn. lia.
  - change (call :: calls) with ([call] ++ calls). cbv zeta.
    rewrite monitorAfter_app.
    destruct (IH (monitorAfter self [call] st)) as [-> ->].
    destruct (call_counts st call) as [-> ->].
    unfold classifiedFailures. cbn [app]. rewrite filter_cons.
destruct (decide (classified (outcomeOf (client self) call) = true)) as [Hc | Hn].
+ rewrite Hc. cbn [length]. lia.
+ apply not_true_is_false in Hn. rewrite Hn. cbn [length]. lia.
Qed.

(** C7, as the code has it.  After N >= 1 calls on a fresh monitor,
    N <= windowSize, the last of which succeeded or failed with a
    classified error, [errorRate] is exactly E / N where E counts the
    calls that failed with a classified error ([VantigeSDKError]);
    [totalErrors] is E and every call counts as a request: a failure
    without classification is a request but not an error. *)
Theorem error_rate_classified (st : State) (calls : list (QueryParams * W))
    (last : QueryParams * W) :
  let all := calls ++ [last] in
  let st' := monitorAfter self all st in
  let N := Z.of_nat (length all) in
  let E := classifiedFailures (client self) all in
  requests st = 0 → totalErrors (metrics st) = 0 →
  N <= windowSize self →
  (∀ errno msg, outcomeOf (client self) last ≠ Thrown (PlainError errno msg)) →
  requests st' = N ∧
  totalErrors (metrics st') = E ∧
  errorRate (metrics st') = (inject_Z E / inject_Z N)%Q.
Proof.
  intros all st' N E Hreq Herr Hwin Hlast.
  destruct (calls_counts all st) as [HN HE]. fold st' in HN, HE.
  rewrite Hreq in HN. rewrite Herr in HE. cbn in HN, HE. fold N in HN. fold E in HE.
  split; [done |]. split; [done |].
  destruct (calls_counts calls st) as [HN1 _]. rewrite Hreq in HN1. cbn in HN1.
  unfold st', all. rewrite monitorAfter_app.
  assert (N = Z.of_nat (length calls) + 1) as HNlen.
  { unfold N, all. rewrite length_app. cbn. lia. }
  rewrite call_rate; [| done | rewrite HN1; lia].
  rewrite <- monitorAfter_app. fold all st'. rewrite HE, HN.
  by rewrite Z.min_l by lia.
Qed.

End WithEnv.

(** One success, then one 500, on a fresh default monitor: the rate is
    1/2. *)
Lemma error_rate_classified_witness :
  let self := new Simulation.service None in
  let ok := (Simulation.pricing, Simulation.world 10 [] []) in
  let ko := (Simulation.pricing,
             Simulation.world 20 [Thrown (Simulation.sdkError 500 None)] []) in
  let st' := monitorAfter self [ok; ko] initial in
  requests st' = 2 ∧ totalErrors (metrics st') = 1 ∧
  errorRate (metrics st') = (inject_Z 1 / inject_Z 2)%Q.
Proof.
  intros self ok ko.
  apply (error_rate_classified self initial [ok] ko).
  - reflexivity.
  - reflexivity.
  - cbn. lia.
  - intros errno msg Heq. discriminate Heq.
Defined.

(** C7 fails on the code.  One call that fails with a connection reset
    (an error that is not a [VantigeSDKError]): N = 1 and one call failed,
    but the monitor recorded no error and its [errorRate] is 0, not 1/1.
    And a success, a 500 and a connection reset: N = 3, two calls failed,
    one of them with a classification, and the [errorRate] reported is
    1/2, which is neither 2/3 nor 1/3 nor [totalErrors / requests]. *)
Lemma error_rate_misses_unclassified :
  let reset := PlainError (Some "ECONNRESET"%string) "read ECONNRESET" in
  let call t answers := (Simulation.pricing, Simulation.world t answers []) in
  let self := new Simulation.service None in
  let one := [call 10 [Thrown reset]] in
  let three := [call 10 []; call 20 [Thrown (Simulation.sdkError 500 None)];
                call 30 [Thrown reset]] in
  let st1 := monitorAfter self one initial in
  let st3 := monitorAfter self three initial in
  (Z.of_nat (length one) = 1 ∧ 1 <= windowSize self ∧
   failedCalls (client self) one = 1 ∧
   requests st1 = 1 ∧ totalErrors (metrics st1) = 0 ∧
   errorRate (metrics st1) = 0%Q ∧
   ¬ (errorRate (metrics st1) == inject_Z 1 / inject_Z 1)%Q)
  ∧
  (Z.of_nat (length three) = 3 ∧ 3 <= windowSize self ∧
   failedCalls (client self) three = 2 ∧
   classifiedFailures (client self) three = 1 ∧
   requests st3 = 3 ∧ totalErrors (metrics st3) = 1 ∧
   errorRate (metrics st3) = (inject_Z 1 / inject_Z 2)%Q ∧
   ¬ (errorRate (metrics st3) == inject_Z 2 / inject_Z 3)%Q ∧
   ¬ (errorRate (metrics st3) == inject_Z 1 / inject_Z 3)%Q).
Proof.
  cbv zeta. split; repeat apply conj; try reflexivity.
  - cbn. lia.
  - intros Heq. vm_compute in Heq. discriminate Heq.
  - cbn. lia.
  - intros Heq. vm_compute in Heq. discriminate Heq.
  - intros Heq. vm_compute in Heq. discriminate Heq.
Qed.

End MonitorProperties.

(** ** Cache *)

Module CacheProperties.
Import CachedVantigeClient Behaviour.

(** *** The insertion-ordered map *)

Lemma get_set_eq key entry cache : get key (set key entry cache) = Some entry.
Proof.
  induction cache as [| [k e] cache IH]; cbn.
  - by rewrite decide_True.
  - destruct (decide (k = key)) as [-> | Hne]; cbn.
    + by rewrite decide_True.
    + by rewrite decide_False.
Qed.

Lemma get_set_ne key key' entry cache :
  key' ≠ key → get key' (set key entry cache) = get key' cache.
Proof.
  intros Hne. induction cache as [| [k e] cache IH]; cbn.
  - by rewrite decide_False.
  - destruct (decide (k = key)) as [-> | Hk]; cbn.
    + by rewrite !decide_False.
    + destruct (decide (k = key')); [done | apply IH].
Qed.

Lemma get_Some_elem key entry cache :
  get key cache = Some entry → (key, entry) ∈ cache.
Proof.
  induction cache as [| [k e] cache IH]; cbn; [done |].
  destruct (decide (k = key)) as [-> | Hne].
  - intros [= ->]. apply list_elem_of_here.
  - intros Hget. apply list_elem_of_further. by apply IH.
Qed.

Lemma get_None_keys key cache : get key cache = None ↔ key ∉ cache.*1.
Proof.
  induction cache as [| [k e] cache IH]; cbn.
  - split; [intros _; apply not_elem_of_nil | done].
  - rewrite not_elem_of_cons. destruct (decide (k = key)) as [-> | Hne].
    + split; [done | by intros [? _]].
    + rewrite IH. split; [by intros ? | by intros [_ ?]].
Qed.

(** [set] on a key that is present replaces the entry where it is. *)
Lemma set_present key entry cache :
  is_Some (get key cache) →
  (set key entry cache).*1 = cache.*1 ∧ length (set key entry cache) = length cache.
Proof.
  induction cache as [| [k e] cache IH]; cbn.
  - by intros [? ?].
  - destruct (decide (k = key)) as [-> | Hne]; cbn; [done |].
    intros Hsome. destruct (IH Hsome) as [-> ->]. done.
Qed.

(** [set] on a key that is absent appends the entry. *)
Lemma set_absent key entry cache :
  get key cache = None → set key entry cache = cache ++ [(key, entry)].
Proof.
  induction cache as [| [k e] cache IH]; cbn; [done |].
  destruct (decide (k = key)) as [-> | Hne]; [done |].
  intros Hnone. by rewrite IH.
Qed.

Lemma length_set_le key entry cache :
  (length (set key entry cache) <= S (length cache))%nat.
Proof.
  destruct (get key cache) as [e |] eqn:Hget.
  - destruct (set_present key entry cache) as [_ ->]; [by eexists | lia].
  - rewrite set_absent by done. rewrite length_app. cbn. lia.
Qed.

(** [delete] of the key at the head of [after], when the keys before it
    differ from it. *)
Lemma delete_middle key entry before after :
  key ∉ before.*1 →
  delete key (before ++ (key, entry) :: after) = before ++ after.
Proof.
  induction before as [| [k e] before IH]; cbn.
  - intros _. by rewrite decide_True.
  - rewrite not_elem_of_cons. intros [Hne Hnot].
    rewrite decide_False by done. by rewrite IH.
Qed.

Lemma get_middle key entry before after :
  key ∉ before.*1 →
  get key (before ++ (key, entry) :: after) = Some entry.
Proof.
  induction before as [| [k e] before IH]; cbn.
  - intros _. by rewrite decide_True.
  - rewrite not_elem_of_cons. intros [Hne Hnot].
    rewrite decide_False by done. by apply IH.
Qed.

(** *** The eviction victim *)

(** The loop of [findLRUKey], resumed after the prefix [seen] with the
    first lowest entry of [seen] as loop state. *)
Lemma lru_loop t rest : ∀ seen k e before after,
  FirstLowest t seen k e before after →
  ∃ k' e' before' after',
    fold_left (lruStep t) rest (Some k, Some (score t e)) = (Some k', Some (score t e')) ∧
    FirstLowest t (seen ++ rest) k' e' before' after'.
Proof.
  induction rest as [| [k1 e1] rest IH]; intros seen k e before after Hfirst.
  - exists k, e, before, after. by rewrite app_nil_r.
  - destruct Hfirst as (-> & Hbefore & Hafter).
    cbn [fold_left]. unfold lruStep at 2. cbn [fst snd].
    replace ((before ++ (k, e) :: after) ++ (k1, e1) :: rest)
      with ((before ++ (k, e) :: after ++ [(k1, e1)]) ++ rest)
      by (by simplify_list_eq).
    destruct (Z.ltb_spec (score t e1) (score t e)) as [Hlt | Hge].
    + apply (IH _ k1 e1 (before ++ (k, e) :: after) []).
      split; [by simplify_list_eq |]. split; [| done].
      apply Forall_app. split.
      * eapply Forall_impl; [exact Hbefore |]. cbn. lia.
      * constructor; [done |]. eapply Forall_impl; [exact Hafter |]. cbn. lia.
    + apply (IH _ k e before (after ++ [(k1, e1)])).
      split; [done |]. split; [done |].
      apply Forall_app. split; [done |]. by constructor.
Qed.

(** [findLRUKey] returns the key of the first entry of lowest score. *)
Lemma findLRUKey_first_lowest t cache :
  cache ≠ [] →
  ∃ victim ventry before after,
    findLRUKey t cache = Some victim ∧
    FirstLowest t cache victim ventry before after.
Proof.
  destruct cache as [| [k0 e0] rest]; [done | intros _].
  unfold findLRUKey. cbn [fold_left]. unfold lruStep at 2. cbn [fst snd].
  destruct (lru_loop t rest [(k0, e0)] k0 e0 [] []) as (k & e & before & after & Hfold & Hfirst).
  { by split. }
  exists k, e, before, after. by rewrite Hfold.
Qed.

Lemma first_lowest_is_lowest t cache victim ventry before after :
  FirstLowest t cache victim ventry before after →
  ∀ k e, (k, e) ∈ cache → score t ventry <= score t e.
Proof.
  intros (-> & Hbefore & Hafter) k e Hin.
  apply elem_of_app in Hin as [Hin | Hin].
  - rewrite Forall_forall in Hbefore. specialize (Hbefore _ Hin). cbn in Hbefore. lia.
  - apply elem_of_cons in Hin as [[= -> ->] | Hin]; [lia |].
    rewrite Forall_forall in Hafter. by specialize (Hafter _ Hin).
Qed.

Lemma get_is_Some_keys key cache : is_Some (get key cache) ↔ key ∈ cache.*1.
Proof.
  rewrite <- not_eq_None_Some, get_None_keys.
  split; [apply dec_stable | by intros ? ?].
Qed.

Lemma get_delete_ne key key' cache :
  key' ≠ key → get key' (delete key cache) = get key' cache.
Proof.
  intros Hne. induction cache as [| [k e] cache IH]; cbn; [done |].
  destruct (decide (k = key)) as [-> | Hk]; cbn.
  - by rewrite decide_False.
  - destruct (decide (k = key')); [done | apply IH].
Qed.

Lemma length_delete key cache :
  is_Some (get key cache) → S (length (delete key cache)) = length cache.
Proof.
  induction cache as [| [k e] cache IH]; cbn.
  - by intros [? ?].
  - destruct (decide (k = key)) as [-> | Hne]; cbn; [done |].
    intros Hsome. by rewrite IH.
Qed.

Lemma findLRUKey_present t cache victim :
  findLRUKey t cache = Some victim → is_Some (get victim cache).
Proof.
  destruct cache as [| kv rest]; [done |]. intros Hfind.
  destruct (findLRUKey_first_lowest t (kv :: rest))
    as (victim' & ventry & before & after & Hfind' & Hfirst); [done |].
  rewrite Hfind in Hfind'. injection Hfind' as <-.
  apply get_is_Some_keys. destruct Hfirst as (-> & _ & _).
  rewrite fmap_app. apply elem_of_app. right. cbn. apply list_elem_of_here.
Qed.

Section WithEnv.
Context {W : Type} `{Env W}.

(** Storing under a new key in a cache that holds at least
    [maxCacheSize >= 1] entries: the first entry of lowest score goes, the
    others stay in order, the new entry is appended. *)
Lemma updateCache_evicts (self : t (W := W)) (cache : Cache)
    (key : CacheKey) (response : QueryResponse) (t : Z) :
  NoDup cache.*1 →
  1 <= maxCacheSize self → maxCacheSize self <= size cache →
  get key cache = None →
  ∃ victim ventry before after,
    FirstLowest t cache victim ventry before after ∧
    findLRUKey t cache = Some victim ∧
    get victim cache = Some ventry ∧
    updateCache self key response t cache
      = before ++ after ++ [(key, mkCacheEntry response t 0)].
Proof.
  intros Hnodup Hmax Hfull Hfresh.
  assert (cache ≠ []) as Hne.
  { intros ->. unfold size in Hfull. cbn in Hfull. lia. }
  destruct (findLRUKey_first_lowest t cache Hne)
    as (victim & ventry & before & after & Hfind & Hfirst).
  exists victim, ventry, before, after.
  split; [done |]. split; [done |].
  destruct Hfirst as (Hcache & Hbefore & Hafter).
  assert (victim ∉ before.*1) as Hnotin.
  { rewrite Hcache, fmap_app in Hnodup. apply NoDup_app in Hnodup as (_ & Hdisj & _).
    intros Hin. apply (Hdisj _ Hin). cbn. apply list_elem_of_here. }
  split; [by rewrite Hcache, get_middle |].
  unfold updateCache.
  destruct (Z.leb_spec (maxCacheSize self) (size cache)); [| lia].
  rewrite Hfind, Hcache, delete_middle by done.
  rewrite set_absent; [by rewrite <- app_assoc |].
  apply get_None_keys. rewrite get_None_keys, Hcache, fmap_app in Hfresh.
  cbn in Hfresh. rewrite not_elem_of_app, not_elem_of_cons in Hfresh.
  rewrite fmap_app, not_elem_of_app. by destruct Hfresh as (? & _ & ?).
Qed.

(** C6, as the code has it.  When the cache holds at least
    [maxCacheSize >= 1] entries and a request whose key is not in the
    cache succeeds, exactly one entry is evicted: the other entries stay,
    in order, the new entry is appended and the size is unchanged.  The
    evicted entry has the lowest score
    [hits * 10000 + (now - timestamp)] of all entries, and among entries
    of that score it is the first in the insertion order of the map. *)
Theorem eviction_first_lowest_score (self : t (W := W)) (cache : Cache)
    (params : QueryParams) (w w' : W) (response : QueryResponse) :
  let key := getCacheKey params in
  let t := now w' in
  NoDup cache.*1 →
  1 <= maxCacheSize self → maxCacheSize self <= size cache →
  get key cache = None →
  client self params w = (Returned response, w') →
  ∃ victim ventry before after,
    FirstLowest t cache victim ventry before after ∧
    findLRUKey t cache = Some victim ∧
    get victim cache = Some ventry ∧
    (∀ k e, (k, e) ∈ cache → score t ventry <= score t e) ∧
    query self params cache w
      = (Returned response,
         before ++ after ++ [(key, mkCacheEntry response t 0)],
         w') ∧
    size (snd (fst (query self params cache w))) = size cache.
Proof.
  intros key t Hnodup Hmax Hfull Hfresh Hcall.
  destruct (updateCache_evicts self cache key response t Hnodup Hmax Hfull Hfresh)
    as (victim & ventry & before & after & Hfirst & Hfind & Hget & Hupdate).
  exists victim, ventry, before, after.
  assert (query self params cache w
          = (Returned response,
             before ++ after ++ [(key, mkCacheEntry response t 0)], w')) as Hquery.
  { unfold query, fetch. fold key. by rewrite Hfresh, Hcall, <- Hupdate. }
  split; [done |]. split; [done |]. split; [done |].
  split; [by apply (first_lowest_is_lowest t cache victim ventry before after) |].
  split; [done |].
  rewrite Hquery. cbn [fst snd]. destruct Hfirst as (-> & _ & _).
  unfold size. rewrite !length_app. cbn [length]. lia.
Qed.

(** Storing a response keeps the cache within its capacity. *)
Lemma updateCache_size (self : t (W := W)) cache key response t :
  1 <= maxCacheSize self → size cache <= maxCacheSize self →
  size (updateCache self key response t cache) <= maxCacheSize self.
Proof.
  intros Hmax Hsize. unfold updateCache, size in *.
  destruct (Z.leb_spec (maxCacheSize self) (Z.of_nat (length cache))) as [Hfull | Hroom].
  - destruct (findLRUKey t cache) as [victim |] eqn:Hfind.
    + pose proof (length_delete victim cache (findLRUKey_present _ _ _ Hfind)).
      pose proof (length_set_le key (mkCacheEntry response t 0) (delete victim cache)). lia.
    + destruct cache as [| kv rest]; [cbn in Hfull; lia |].
      destruct (findLRUKey_first_lowest t (kv :: rest)) as (? & ? & ? & ? & Hf & _); [done |].
      by rewrite Hfind in Hf.
  - pose proof (length_set_le key (mkCacheEntry response t 0) cache). lia.
Qed.

(** The size of the cache after any call. *)
Lemma query_size (self : t (W := W)) cache params w :
  1 <= maxCacheSize self → size cache <= maxCacheSize self →
  size (snd (fst (query self params cache w))) <= maxCacheSize self.
Proof.
  intros Hmax Hsize. unfold query, fetch.
  destruct (get (getCacheKey params) cache) as [cached |] eqn:Hget.
  - destruct (isCacheValid self cached (now w)).
    + cbn. unfold hit, size. destruct (set_present (getCacheKey params)
        (mkCacheEntry (response cached) (timestamp cached) (hits cached + 1)) cache)
        as [_ ->]; [by eexists | done].
    + destruct (client self params w) as [[r | e] w']; cbn; [| done].
      by apply updateCache_size.
  - destruct (client self params w) as [[r | e] w']; cbn; [| done].
    by apply updateCache_size.
Qed.

(** C10.  For a capacity of at least one, every cache that calls can
    produce from the empty cache holds at most [maxCacheSize] entries.
    Moreover, storing a response under a key that is already present, in a
    cache that is at capacity, first evicts the victim: when the victim is
    another entry the cache ends up one entry below capacity. *)
Theorem cache_size_bounded (self : t (W := W)) :
  1 <= maxCacheSize self →
  (∀ cache, CacheReachable self cache → size cache <= maxCacheSize self)
  ∧
  (∀ cache key response t victim,
     size cache = maxCacheSize self →
     is_Some (get key cache) →
     findLRUKey t cache = Some victim → victim ≠ key →
     updateCache self key response t cache
       = set key (mkCacheEntry response t 0) (delete victim cache) ∧
     size (updateCache self key response t cache) = maxCacheSize self - 1).
Proof.
  intros Hmax. split.
  - intros cache Hreach. induction Hreach as [| cache params w Hreach IH].
    + unfold size. cbn. lia.
    + by apply query_size.
  - intros cache key response t victim Hsize Hkey Hfind Hne.
    assert (updateCache self key response t cache
            = set key (mkCacheEntry response t 0) (delete victim cache)) as Hupdate.
    { unfold updateCache. rewrite Hfind.
      by destruct (Z.leb_spec (maxCacheSize self) (size cache)); [| lia]. }
    split; [done |]. rewrite Hupdate. unfold size in *.
    destruct (set_present key (mkCacheEntry response t 0) (delete victim cache)) as [_ ->].
    { by rewrite get_delete_ne. }
    pose proof (length_delete victim cache (findLRUKey_present _ _ _ Hfind)). lia.
Qed.

(** C5, as the code has it.  With an entry held under the key of the
    request, stored at time [timestamp]: a call strictly before
    [timestamp + cacheTimeout] returns the stored response, leaves the
    world and the invocation log of the inner operation as they were, and
    adds one to the entry's [hits]; a call at or after
    [timestamp + cacheTimeout] invokes the inner operation exactly once and
    passes its outcome on, and a successful response obtained from the
    inner operation is stored under the key with the clock reading at its
    arrival and no hits.  The entry is still held after a call for another
    key made while the cache holds fewer than [maxCacheSize] entries: only
    an eviction at capacity removes it. *)
Theorem cache_freshness (inner : Client W) (timeout capacity : Z) (cache : Cache)
    (params : QueryParams) (log : list Outcome) (w : W) (entry : CacheEntry) :
  let self := mk (recorded inner) timeout capacity in
  let key := getCacheKey params in
  get key cache = Some entry →
  (now w < timestamp entry + cacheTimeout self →
     query self params cache (log, w)
       = (Returned (response entry), hit key entry cache, (log, w)) ∧
     get key (hit key entry cache)
       = Some (mkCacheEntry (response entry) (timestamp entry) (hits entry + 1)))
  ∧
  (timestamp entry + cacheTimeout self <= now w →
     ∃ o cache' w',
       inner params w = (o, w') ∧
       query self params cache (log, w) = (o, cache', (o :: log, w')) ∧
       ∀ r, o = Returned r → get key cache' = Some (mkCacheEntry r (now w') 0))
  ∧
  (∀ other o cache' lw',
     getCacheKey other ≠ key →
     size cache < maxCacheSize self →
     query self other cache (log, w) = (o, cache', lw') →
     get key cache' = Some entry).
Proof.
  intros self key Hget. split; [| split].
  - intros Hfresh. unfold query. fold key. rewrite Hget.
    unfold isCacheValid. cbn [now Env_with_state snd].
    destruct (Z.ltb_spec (now w - timestamp entry) (cacheTimeout self)); [| lia].
    split; [done |]. unfold hit. apply get_set_eq.
  - intros Hstale. unfold query. fold key. rewrite Hget.
    unfold isCacheValid. cbn [now Env_with_state snd].
    destruct (Z.ltb_spec (now w - timestamp entry) (cacheTimeout self)); [lia |].
    unfold fetch. cbn [client self]. unfold recorded at 1. cbn [fst snd].
    destruct (inner params w) as [o w'] eqn:Hcall.
    destruct o as [r | e].
    + eexists _, _, _. split; [done |]. split; [done |].
      intros r' [= <-]. unfold updateCache. apply get_set_eq.
    + eexists _, _, _. split; [done |]. split; [done |]. by intros r' [=].
  - intros other o cache' lw' Hother Hroom. unfold query, fetch.
    assert (∀ fresh, get key (set (getCacheKey other) fresh cache) = Some entry) as Hkept
      by (intros fresh; by rewrite get_set_ne).
    assert (∀ r t, get key (updateCache self (getCacheKey other) r t cache) = Some entry)
      as Hstored.
    { intros r t. unfold updateCache.
      by destruct (Z.leb_spec (maxCacheSize self) (size cache)); [lia |]. }
    destruct (get (getCacheKey other) cache) as [cached |].
    + destruct (isCacheValid self cached _).
      * intros [= <- <- <-]. apply Hkept.
      * destruct (client self other (log, w)) as [[r | e] lw1]; intros [= <- <- <-];
          [apply Hstored | done].
    + destruct (client self other (log, w)) as [[r | e] lw1]; intros [= <- <- <-];
        [apply Hstored | done].
Qed.

(** The keys of a reachable cache are pairwise distinct, as in any
    [Map]. *)
Lemma delete_keys key cache x : x ∈ (delete key cache).*1 → x ∈ cache.*1.
Proof.
  induction cache as [| [k e] cache IH]; cbn; [done |].
  destruct (decide (k = key)) as [-> | Hne]; cbn.
  - apply list_elem_of_further.
  - rewrite !elem_of_cons. intros [-> | Hin]; [by left | right; by apply IH].
Qed.

Lemma delete_NoDup key cache : NoDup cache.*1 → NoDup (delete key cache).*1.
Proof.
  induction cache as [| [k e] cache IH]; cbn; [done |].
  rewrite NoDup_cons. intros [Hnotin Hnodup].
  destruct (decide (k = key)) as [-> | Hne]; cbn; [done |].
  apply NoDup_cons. split; [| by apply IH].
  intros Hin. by apply Hnotin, (delete_keys key).
Qed.

Lemma set_NoDup key entry cache : NoDup cache.*1 → NoDup (set key entry cache).*1.
Proof.
  intros Hnodup. destruct (get key cache) as [e |] eqn:Hget.
  - destruct (set_present key entry cache) as [-> _]; [by eexists | done].
  - rewrite set_absent, fmap_app by done. apply NoDup_app. split; [done |]. split.
    + intros x Hin. cbn. rewrite elem_of_cons. intros [-> | Hnil].
      * by apply get_None_keys in Hget.
      * by apply not_elem_of_nil in Hnil.
    + cbn. apply NoDup_singleton.
Qed.

Lemma reachable_NoDup (self : t (W := W)) cache :
  CacheReachable self cache → NoDup cache.*1.
Proof.
  intros Hreach. induction Hreach as [| cache params w Hreach IH]; [apply NoDup_nil_2 |].
  unfold query, fetch.
  assert (∀ r t, NoDup (updateCache self (getCacheKey params) r t cache).*1) as Hupdate.
  { intros r t. unfold updateCache. apply set_NoDup.
    destruct (maxCacheSize self <=? size cache); [| done].
    destruct (findLRUKey t cache); [by apply delete_NoDup | done]. }
  destruct (get (getCacheKey params) cache) as [cached |].
  - destruct (isCacheValid self cached (now w)); [by apply set_NoDup |].
    destruct (client self params w) as [[r | e] w']; cbn; [apply Hupdate | done].
  - destruct (client self params w) as [[r | e] w']; cbn; [apply Hupdate | done].
Qed.

End WithEnv.

Lemma cacheAfter_reachable self calls cw :
  CacheReachable self (fst cw) → CacheReachable self (fst (cacheAfter self calls cw)).
Proof.
  revert cw. induction calls as [| [params t] calls IH]; intros [cache w] Hreach; [done |].
  cbn [cacheAfter fold_left]. apply IH. unfold asClient. cbn [fst snd].
  pose proof (cache_called self cache params (Simulation.at_time t w) Hreach) as Hstep.
  by destruct (query self params cache (Simulation.at_time t w)) as [[o cache'] w'].
Qed.

(** An entry stored at 1000 is read at 2000 without calling the
    service. *)
Lemma cache_freshness_witness :
  let entry := mkCacheEntry Simulation.okResponse 1000 0 in
  let cache := [(getCacheKey Simulation.pricing, entry)] in
  let self := mk (recorded Simulation.service) (5 * 60 * 1000) 100 in
  query self Simulation.pricing cache ([], Simulation.world 2000 [] [])
    = (Returned Simulation.okResponse,
       hit (getCacheKey Simulation.pricing) entry cache,
       ([], Simulation.world 2000 [] [])).
Proof.
  intros entry cache self.
  apply (cache_freshness Simulation.service (5 * 60 * 1000) 100 cache Simulation.pricing
           [] (Simulation.world 2000 [] []) entry).
  - reflexivity.
  - cbn. lia.
Defined.

(** The full cache [olderFirst] at clock reading 20000: a request that
    is not cached, answered by the service. *)
Lemma eviction_first_lowest_score_witness :
  let self := new Simulation.service in
  let cache := fst olderFirst in
  let w := Simulation.at_time 20000 (snd olderFirst) in
  let w' := snd (Simulation.service requestZ w) in
  let key := getCacheKey requestZ in
  let t := now w' in
  ∃ victim ventry before after,
    FirstLowest t cache victim ventry before after ∧
    findLRUKey t cache = Some victim ∧
    get victim cache = Some ventry ∧
    (∀ k e, (k, e) ∈ cache → score t ventry <= score t e) ∧
    query self requestZ cache w
      = (Returned Simulation.okResponse,
         before ++ after ++ [(key, mkCacheEntry Simulation.okResponse t 0)],
         w') ∧
    size (snd (fst (query self requestZ cache w))) = size cache.
Proof.
  intros self cache w w' key t.
  refine (eviction_first_lowest_score self cache requestZ w w' Simulation.okResponse
            _ _ _ _ _).
  - apply (reachable_NoDup self). apply cacheAfter_reachable. constructor.
  - cbn. lia.
  - vm_compute. discriminate.
  - vm_compute. reflexivity.
  - vm_compute. reflexivity.
Defined.

(** The cache [olderFirst], reachable on the default client, holds no
    more than 100 entries. *)
Lemma cache_size_bounded_witness :
  size (fst olderFirst) <= maxCacheSize (new Simulation.service).
Proof.
  apply (proj1 (cache_size_bounded (new Simulation.service) ltac:(cbn; lia))).
  apply cacheAfter_reachable. constructor.
Defined.

(** C5 fails on the code when the entry is evicted before it expires.
    The default cache [storedLast] is full and holds the response to A,
    stored at clock reading 1000.  A request B that is not cached arrives
    at 1001: A, unused and the youngest, has the lowest score and is
    evicted.  A again at 1002, long before 1000 + TTL, reaches the
    service. *)
Lemma fresh_entry_evicted :
  let self := new Simulation.service in
  let keyA := getCacheKey requestA in
  let later := cacheAfter self [(requestB, 1001)] storedLast in
  let again := query self requestA (fst later) (Simulation.at_time 1002 (snd later)) in
  size (fst storedLast) = maxCacheSize self ∧
  get keyA (fst storedLast) = Some (mkCacheEntry Simulation.okResponse 1000 0) ∧
  1002 < 1000 + cacheTimeout self ∧
  get keyA (fst later) = None ∧
  Simulation.served (snd again) = requestA :: Simulation.served (snd later).
Proof. cbv zeta. repeat apply conj; vm_compute; reflexivity. Qed.

(** C6 fails on the code where it says that recency breaks ties.  Both
    caches are full (100 entries) and A and B tie for the lowest score.
    In [olderFirst] the evicted entry A is the older of the two; in
    [newerFirst] the evicted entry A is the newer of the two.  What decides
    is that A comes first in the insertion order of the map. *)
Lemma tie_not_broken_by_recency :
  let keyA := getCacheKey requestA in
  let keyB := getCacheKey requestB in
  (size (fst olderFirst) = 100 ∧
   findLRUKey 20000 (fst olderFirst) = Some keyA ∧
   get keyA (fst olderFirst) = Some (mkCacheEntry Simulation.okResponse 0 0) ∧
   get keyB (fst olderFirst) = Some (mkCacheEntry Simulation.okResponse 10000 1) ∧
   ¬ evictsMostRecentOfTies 20000 (fst olderFirst) keyA)
  ∧
  (size (fst newerFirst) = 100 ∧
   findLRUKey 310000 (fst newerFirst) = Some keyA ∧
   get keyA (fst newerFirst) = Some (mkCacheEntry Simulation.okResponse 300000 1) ∧
   get keyB (fst newerFirst) = Some (mkCacheEntry Simulation.okResponse 290000 0) ∧
   ¬ evictsLeastRecentOfTies 310000 (fst newerFirst) keyA).
Proof.
  intros keyA keyB.
  assert (get keyA (fst olderFirst) = Some (mkCacheEntry Simulation.okResponse 0 0)) as HA1
    by (vm_compute; reflexivity).
  assert (get keyB (fst olderFirst) = Some (mkCacheEntry Simulation.okResponse 10000 1)) as HB1
    by (vm_compute; reflexivity).
  assert (get keyA (fst newerFirst) = Some (mkCacheEntry Simulation.okResponse 300000 1)) as HA2
    by (vm_compute; reflexivity).
  assert (get keyB (fst newerFirst) = Some (mkCacheEntry Simulation.okResponse 290000 0)) as HB2
    by (vm_compute; reflexivity).
  split; repeat apply conj.
  - vm_compute; reflexivity.
  - vm_compute; reflexivity.
  - exact HA1.
  - exact HB1.
  - intros Hrecent. specialize (Hrecent _ _ _ HA1 HB1 eq_refl). cbn in Hrecent. lia.
  - vm_compute; reflexivity.
  - vm_compute; reflexivity.
  - exact HA2.
  - exact HB2.
  - intros Hrecent. specialize (Hrecent _ _ _ HA2 HB2 eq_refl). cbn in Hrecent. lia.
Qed.

(** The evictions themselves: a new request at the time of the tie
    removes A and keeps B, in both caches. *)
Example tie_evicts_first_inserted :
  let self := new Simulation.service in
  let keyA := getCacheKey requestA in
  let keyB := getCacheKey requestB in
  let after1 := fst (cacheAfter self [(requestZ, 20000)] olderFirst) in
  let after2 := fst (cacheAfter self [(requestZ, 310000)] newerFirst) in
  (get keyA after1 = None ∧ is_Some (get keyB after1) ∧ size after1 = 100) ∧
  (get keyA after2 = None ∧ is_Some (get keyB after2) ∧ size after2 = 100).
Proof.
  cbv zeta. repeat apply conj; try (vm_compute; reflexivity); vm_compute; eauto.
Qed.

(** The size can drop below capacity: in the full cache [newerFirst], at
    clock reading 600000, B has expired; asking for B again evicts A and
    then overwrites B in place, leaving 99 entries. *)
Example overwrite_at_capacity_shrinks :
  let self := new Simulation.service in
  let after := fst (cacheAfter self [(requestB, 600000)] newerFirst) in
  size (fst newerFirst) = 100 ∧ size after = 99 ∧
  get (getCacheKey requestA) after = None ∧
  get (getCacheKey requestB) after = Some (mkCacheEntry Simulation.okResponse 600000 0).
Proof. cbv zeta. repeat apply conj; vm_compute; reflexivity. Qed.

End CacheProperties.

(** ** Composition *)

Module CompositionProperties.
Import CompleteExample Behaviour.

Section WithBase.
Context {W : Type} `{Env W}.
Variable vantigeClient : Client W.

Local Abbreviation retryable := (retryableClient vantigeClient).
Local Abbreviation breaker := (circuitBreakerClient vantigeClient).
Local Abbreviation monitored := (monitoredClient vantigeClient).
Local Abbreviation cached := (cachedClient vantigeClient).
Local Abbreviation resilient := (resilientClient vantigeClient).

(** Every monitored call counts as one request. *)
Lemma monitored_counts_one params mw o mw' :
  MonitoredVantigeClient.asClient monitored params mw = (o, mw') →
  MonitoredVantigeClient.requests (fst mw')
    = MonitoredVantigeClient.requests (fst mw) + 1.
Proof.
  destruct mw as [m bw]. unfold MonitoredVantigeClient.asClient. cbn [fst snd].
  destruct (MonitorProperties.call_counts monitored m (params, bw)) as [Hreq _].
  unfold monitorAfter in Hreq. cbn [fold_left fst snd] in Hreq.
  destruct (MonitoredVantigeClient.query monitored params m bw) as [[o1 m1] bw1].
  by intros [= <- <-].
Qed.

(** C1, as the code has it.  In the example each object wraps the one
    built before it: the retry client wraps the base client, the breaker
    wraps the retry client, the monitor wraps the breaker, and the cache
    wraps the monitor, so the chain with all four layers is Cache around
    Monitoring around CircuitBreaker around Retry around the base.  The
    resilient client calls the monitor directly and keeps the cached
    chain as a fallback.  Hence
    (a) a fresh cache entry is returned without the monitor, the breaker
        or the base being touched;
    (b) a request that is not in the cache is one monitored call, whose
        outcome is passed on and stored when it is a success;
    (c) a search whose primary strategy succeeds is one monitored call and
        leaves the cache as it was;
    (d) only when the monitored call of the primary strategy fails does
        the search go to the cached client, with the request of
        [tryCachedSearch]; a response obtained there, from the cache or
        through it, is returned as a result of type [cached];
    (e) when the cached client fails too, the simplified request goes to
        the monitor directly, not through the cache, and its failure
        leaves the default response. *)
Theorem example_composition :
  (RetryableVantigeClient.client retryable = vantigeClient ∧
   CircuitBreakerClient.client breaker = RetryableVantigeClient.asClient retryable ∧
   MonitoredVantigeClient.client monitored = CircuitBreakerClient.asClient breaker ∧
   CachedVantigeClient.client cached = MonitoredVantigeClient.asClient monitored ∧
   ResilientSearchClient.primaryClient resilient
     = below (MonitoredVantigeClient.asClient monitored) ∧
   ResilientSearchClient.cacheClient resilient
     = Some (CachedVantigeClient.asClient cached))
  ∧
  (∀ params cache mw entry,
     CachedVantigeClient.get (CachedVantigeClient.getCacheKey params) cache = Some entry →
     now mw < CachedVantigeClient.timestamp entry + CachedVantigeClient.cacheTimeout cached →
     CachedVantigeClient.asClient cached params (cache, mw)
       = (Returned (CachedVantigeClient.response entry),
          (CachedVantigeClient.hit (CachedVantigeClient.getCacheKey params) entry cache, mw)))
  ∧
  (∀ params cache mw o mw',
     CachedVantigeClient.get (CachedVantigeClient.getCacheKey params) cache = None →
     MonitoredVantigeClient.asClient monitored params mw = (o, mw') →
     CachedVantigeClient.asClient cached params (cache, mw)
       = (o,
          (match o with
           | Returned r =>
               CachedVantigeClient.updateCache cached
                 (CachedVantigeClient.getCacheKey params) r (now mw') cache
           | Thrown _ => cache
           end,
           mw')) ∧
     MonitoredVantigeClient.requests (fst mw')
       = MonitoredVantigeClient.requests (fst mw) + 1)
  ∧
  (∀ corpusId query cache mw r mw',
     MonitoredVantigeClient.asClient monitored (primaryRequest corpusId query) mw
       = (Returned r, mw') →
     ResilientSearchClient.searchWithFallback resilient corpusId query (cache, mw)
       = (inl (ResilientSearchClient.mkSearchResult ResilientSearchClient.primary
                 (answer r) (results r) ResilientSearchClient.high),
          (cache, mw')) ∧
     MonitoredVantigeClient.requests (fst mw')
       = MonitoredVantigeClient.requests (fst mw) + 1)
  ∧
  (∀ corpusId query cache mw e mw1 r cw2,
     MonitoredVantigeClient.asClient monitored (primaryRequest corpusId query) mw
       = (Thrown e, mw1) →
     CachedVantigeClient.asClient cached (cachedRequest corpusId query) (cache, mw1)
       = (Returned r, cw2) →
     ResilientSearchClient.searchWithFallback resilient corpusId query (cache, mw)
       = (inl (ResilientSearchClient.mkSearchResult ResilientSearchClient.cached
                 (Some "Showing cached results"%string) (results r)
                 ResilientSearchClient.medium),
          cw2))
  ∧
  (∀ corpusId query cache mw e mw1 e2 cache2 mw2 o mw3,
     MonitoredVantigeClient.asClient monitored (primaryRequest corpusId query) mw
       = (Thrown e, mw1) →
     CachedVantigeClient.asClient cached (cachedRequest corpusId query) (cache, mw1)
       = (Thrown e2, (cache2, mw2)) →
     MonitoredVantigeClient.asClient monitored (simplifiedRequest corpusId query) mw2
       = (o, mw3) →
     ResilientSearchClient.searchWithFallback resilient corpusId query (cache, mw)
       = (inl match o with
              | Returned r =>
                  ResilientSearchClient.mkSearchResult ResilientSearchClient.simplified
                    (Some ("Results for: "
                           +:+ joinSpace (ResilientSearchClient.extractKeywords query)))
                    (results r) ResilientSearchClient.low
              | Thrown _ =>
                  ResilientSearchClient.mkSearchResult
                    ResilientSearchClient.default_response
                    (Some "Search is temporarily unavailable. Please try again later."%string)
                    [] ResilientSearchClient.none
              end,
          (cache2, mw3))).
Proof.
  split; [done |]. split; [| split; [| split; [| split]]].
  - intros params cache mw entry Hget Hfresh.
    unfold CachedVantigeClient.asClient, CachedVantigeClient.query. cbn [fst snd].
    rewrite Hget. unfold CachedVantigeClient.isCacheValid.
    by destruct (Z.ltb_spec (now mw - CachedVantigeClient.timestamp entry)
                            (CachedVantigeClient.cacheTimeout cached)); [| lia].
  - intros params cache mw o mw' Hget Hcall. split.
    + unfold CachedVantigeClient.asClient, CachedVantigeClient.query,
        CachedVantigeClient.fetch. cbn [fst snd].
      rewrite Hget. cbn [CachedVantigeClient.client cachedClient CachedVantigeClient.new].
      rewrite Hcall. by destruct o.
    + by apply (monitored_counts_one params mw o).
  - intros corpusId query cache mw r mw' Hcall. split.
    + unfold ResilientSearchClient.searchWithFallback.
      cbn [ResilientSearchClient.firstSuccess].
      unfold ResilientSearchClient.tryPrimarySearch at 1.
      cbn [ResilientSearchClient.primaryClient resilientClient].
      unfold below. cbn [fst snd]. fold (primaryRequest corpusId query).
      by rewrite Hcall.
    + by apply (monitored_counts_one (primaryRequest corpusId query) mw (Returned r)).
  - intros corpusId query cache mw e mw1 r cw2 Hprimary Hcached.
    unfold ResilientSearchClient.searchWithFallback.
    cbn [ResilientSearchClient.firstSuccess].
    unfold ResilientSearchClient.tryPrimarySearch at 1.
    cbn [ResilientSearchClient.primaryClient resilientClient].
    unfold below at 1. cbn [fst snd]. fold (primaryRequest corpusId query).
    rewrite Hprimary.
    unfold ResilientSearchClient.tryCachedSearch at 1.
    cbn [ResilientSearchClient.cacheClient resilientClient].
    fold (cachedRequest corpusId query). by rewrite Hcached.
  - intros corpusId query cache mw e mw1 e2 cache2 mw2 o mw3 Hprimary Hcached Hsimple.
    unfold ResilientSearchClient.searchWithFallback.
    cbn [ResilientSearchClient.firstSuccess].
    unfold ResilientSearchClient.tryPrimarySearch at 1.
    cbn [ResilientSearchClient.primaryClient resilientClient].
    unfold below at 1. cbn [fst snd]. fold (primaryRequest corpusId query).
    rewrite Hprimary.
    unfold ResilientSearchClient.tryCachedSearch at 1.
    cbn [ResilientSearchClient.cacheClient resilientClient].
    fold (cachedRequest corpusId query). rewrite Hcached.
    unfold ResilientSearchClient.trySimplifiedSearch at 1.
    cbn [ResilientSearchClient.primaryClient resilientClient].
    unfold below at 1. cbn [fst snd]. fold (simplifiedRequest corpusId query).
    rewrite Hsimple. by destruct o.
Qed.

End WithBase.

(** A fresh entry for the pricing request, read through the example's
    cached client: the monitor, the breaker and the service stay as they
    were. *)
Lemma example_composition_witness :
  let entry := CachedVantigeClient.mkCacheEntry Simulation.okResponse 1000 0 in
  let key := CachedVantigeClient.getCacheKey Simulation.pricing in
  let mw := (MonitoredVantigeClient.initial,
             (CircuitBreakerClient.initial, Simulation.world 2000 [] [])) in
  CachedVantigeClient.asClient (cachedClient Simulation.service) Simulation.pricing
      ([(key, entry)], mw)
    = (Returned Simulation.okResponse,
       (CachedVantigeClient.hit key entry [(key, entry)], mw)).
Proof.
  intros entry key mw.
  apply (proj1 (proj2 (example_composition Simulation.service))
           Simulation.pricing [(key, entry)] mw entry).
  - reflexivity.
  - cbn. lia.
Defined.

(** C1 fails on the code.  The same search twice, on the scripted service
    that always answers: the resilient client of the example reaches the
    service twice (its primary strategy has no cache), the composition of
    the specification once.  And the same request twice through the
    example's cached client is counted once by the monitor (the second
    call is answered by the cache, outside the monitor), but twice in the
    composition of the specification (where the cache is inside). *)
Lemma composition_differs :
  let w := Simulation.world 0 [] [] in
  let request := primaryRequest "docs" "pricing plans" in
  let search := ResilientSearchClient.searchWithFallback
                  (resilientClient Simulation.service) "docs" "pricing plans" in
  let viaCache := CachedVantigeClient.asClient (cachedClient Simulation.service) request in
  let viaSpec := SpecComposition.resilient Simulation.service request in
  let searched := snd (search (snd (search (fresh w)))) in
  let cached := snd (viaCache (snd (viaCache (fresh w)))) in
  let specified := snd (viaSpec (snd (viaSpec (SpecComposition.fresh w)))) in
  exampleServed searched = [request; request] ∧
  specServed specified = [request] ∧
  exampleMonitored cached = 1 ∧
  specMonitored specified = 2 ∧
  exampleServed searched ≠ specServed specified ∧
  exampleMonitored cached ≠ specMonitored specified.
Proof. cbv zeta. repeat apply conj; try (vm_compute; reflexivity); vm_compute; discriminate. Qed.

(** The fallback at work: the service answers the primary request with a
    400 and is then available again.  The search goes on to the cached
    client, which reaches the service through the monitor, and returns a
    result of type [cached]. *)
Example search_falls_back_to_cache :
  let w := Simulation.world 0 [Thrown (Simulation.sdkError 400 None)] [] in
  let run := ResilientSearchClient.searchWithFallback
               (resilientClient Simulation.service) "docs" "pricing plans" (fresh w) in
  fst run = inl (ResilientSearchClient.mkSearchResult ResilientSearchClient.cached
                   (Some "Showing cached results"%string) []
                   ResilientSearchClient.medium) ∧
  exampleServed (snd run)
    = [cachedRequest "docs" "pricing plans"; primaryRequest "docs" "pricing plans"] ∧
  exampleMonitored (snd run) = 2.
Proof. cbv zeta. repeat apply conj; vm_compute; reflexivity. Qed.

End CompositionProperties.

(** ** Retry: the shape of every run *)

Module RetryRuns.
Import RetryableVantigeClient RetryVocabulary.

Section WithEnv.
Context {W : Type} `{Env W}.

(** Computing a delay records neither a call nor a sleep. *)
Lemma calculateDelay_probe attempt error options (p : Probe W) :
  probe_calls (snd (calculateDelay attempt error options p)) = probe_calls p ∧
  probe_sleeps (snd (calculateDelay attempt error options p)) = probe_sleeps p.
Proof.
  unfold calculateDelay. cbn [random Env_Probe].
  destruct (random (probe_world p)) as [r w'].
  destruct error as [e | errno msg]; cbn; [| done].
  destruct (code e =? 429); [| done].
  by destruct (retryAfterHint e).
Qed.

(** The loop, whatever the inner operation does: the outcome it ends with
    is the outcome of its last invocation, the invocations before that one
    failed retryably, and it slept once after each of those. *)
Lemma attempts_run (inner : Client W) opts params :
  ∀ remaining attempt lastError (p : Probe W) o p',
    remaining ≠ O →
    attempt + Z.of_nat remaining = opt_maxRetries opts + 1 →
    attempts (probed inner) opts params remaining attempt lastError p = (o, p') →
    ∃ earlier slept,
      probe_calls p' = o :: earlier ++ probe_calls p ∧
      Forall (retryableFailure opts) earlier ∧
      probe_sleeps p' = slept ++ probe_sleeps p ∧
      length slept = length earlier ∧
      (length earlier < remaining)%nat.
Proof.
  induction remaining as [| remaining IH];
    intros attempt lastError p o p' Hpos Hsum Hrun; [done |].
  cbn [attempts] in Hrun. unfold probed at 1 in Hrun.
  destruct (inner params (probe_world p)) as [[r | e] w1].
  - injection Hrun as <- <-. exists [], []. cbn. repeat split; [constructor | lia].
  - destruct (isRetryable e (opt_retryableErrors opts)) eqn:Hretry; cbn [negb] in Hrun.
    2: { injection Hrun as <- <-. exists [], []. cbn. repeat split; [constructor | lia]. }
    destruct (Z.eqb_spec attempt (opt_maxRetries opts)) as [Hlast | Hmore].
    { injection Hrun as <- <-. exists [], []. cbn. repeat split; [constructor | lia]. }
    set (p1 := mkProbe (Thrown e :: probe_calls p) (probe_sleeps p) w1) in Hrun.
    destruct (calculateDelay_probe attempt e opts p1) as [Hcalls Hsleeps].
    destruct (calculateDelay attempt e opts p1) as [delay p2].
    cbn [snd] in Hcalls, Hsleeps.
    apply IH in Hrun as (earlier & slept & Hc & Hall & Hs & Hlen & Hbound); [| lia | lia].
    cbn [sleep Env_Probe probe_calls probe_sleeps] in Hc, Hs.
    rewrite Hcalls in Hc. rewrite Hsleeps in Hs. cbn in Hc, Hs.
    exists (earlier ++ [Thrown e]), (slept ++ [delay]).
    rewrite <- !app_assoc. cbn. repeat split; try done.
    + apply Forall_app. split; [done |]. constructor; [| constructor]. by exists e.
    + rewrite !length_app. cbn. lia.
    + rewrite length_app. cbn. lia.
Qed.

(** X1.  Whatever the inner operation does, and for a retry count
    [maxRetries >= 0], [query] ends with the outcome of its last
    invocation of the inner operation: a response if that invocation
    succeeded, its error otherwise.  Every invocation before the last one
    failed with a retryable error, and there are at most [maxRetries + 1]
    invocations. *)
Theorem retry_returns_last_outcome (inner : Client W) (defaults : Options)
    (options : RetryOptions) (params : QueryParams) (w : W) (o : Outcome)
    (p' : Probe W) :
  let opts := spread defaults options in
  0 <= opt_maxRetries opts →
  query (mk (probed inner) defaults) params options (mkProbe [] [] w) = (o, p') →
  ∃ earlier,
    probe_calls p' = o :: earlier ∧
    Forall (retryableFailure opts) earlier ∧
    Z.of_nat (length (probe_calls p')) <= opt_maxRetries opts + 1.
Proof.
  intros opts Hcount Hrun. unfold query in Hrun. cbn [client defaultOptions] in Hrun.
  fold opts in Hrun.
  apply attempts_run in Hrun as (earlier & slept & Hc & Hall & _ & _ & Hbound); [| lia | lia].
  cbn in Hc. rewrite app_nil_r in Hc. exists earlier. split; [done |]. split; [done |].
  rewrite Hc. cbn [length]. lia.
Qed.

End WithEnv.


(** A run on the scripted service: two retryable failures, then a
    response. *)
Lemma retry_returns_last_outcome_witness :
  let failure := Thrown (Simulation.sdkError 503 None) in
  let w := Simulation.world 0 [failure; failure] [] in
  let run := query (mk (probed Simulation.service) builtinOptions) Simulation.pricing
                   noOptions (mkProbe [] [] w) in
  ∃ earlier,
    probe_calls (snd run) = fst run :: earlier ∧
    Forall (retryableFailure (spread builtinOptions noOptions)) earlier ∧
    Z.of_nat (length (probe_calls (snd run))) <= 3 + 1.
Proof.
  intros failure w run.
  apply (retry_returns_last_outcome Simulation.service builtinOptions noOptions
           Simulation.pricing w (fst run) (snd run)).
  - cbn. lia.
  - reflexivity.
Defined.

Section WithJournal.
Context {W : Type} `{Env W}.

(** The loop keeps the journal alternating: begun on an empty journal or
    right after a suspension, it ends right after an invocation, the one
    whose outcome it returns. *)
Lemma attempts_alternate (inner : Client W) opts params :
  ∀ remaining attempt lastError (j : Journal W) o j',
    remaining ≠ O →
    attempt + Z.of_nat remaining = opt_maxRetries opts + 1 →
    events j = [] ∨ (∃ delay earlier, events j = Slept delay :: earlier ∧
                                      alternates earlier) →
    attempts (journaled inner) opts params remaining attempt lastError j = (o, j') →
    alternates (events j') ∧ ∃ earlier, events j' = Called o :: earlier.
Proof.
  induction remaining as [| remaining IH];
    intros attempt lastError j o j' Hpos Hsum Hstart Hrun; [done |].
  cbn [attempts] in Hrun. unfold journaled at 1 in Hrun.
  assert (∀ x, alternates (Called x :: events j)) as Hnext.
  { intros x. destruct Hstart as [-> | (delay & earlier & -> & Halt)]; done. }
  destruct (inner params (journal_world j)) as [[r | e] w1].
  - injection Hrun as <- <-. cbn [events]. eauto.
  - destruct (negb _).
    { injection Hrun as <- <-. cbn [events]. eauto. }
    destruct (Z.eqb_spec attempt (opt_maxRetries opts)) as [Hlast | Hmore].
    { injection Hrun as <- <-. cbn [events]. eauto. }
    set (j1 := mkJournal (Called (Thrown e) :: events j) w1) in Hrun.
    pose proof (RetryProperties.calculateDelay_journal attempt e opts j1) as Hkeep.
    destruct (calculateDelay attempt e opts j1) as [delay j2]. cbn [snd] in Hkeep.
    apply IH in Hrun; [done | lia | lia |].
    right. exists delay, (Called (Thrown e) :: events j).
    cbn [sleep Env_Journal events]. rewrite Hkeep. split; [done | apply Hnext].
Qed.

(** X2.  For a whole retry count [maxRetries >= 0], invocations of the
    inner operation and suspensions alternate in every run of [query]:
    the run begins with an invocation and ends with the invocation whose
    outcome it returns, and it suspends exactly once between two
    consecutive invocations, never before the first one or after the last
    one. *)
Theorem retry_sleeps_between_attempts (inner : Client W) (defaults : Options)
    (options : RetryOptions) (params : QueryParams) (w : W) (o : Outcome)
    (j' : Journal W) :
  0 <= opt_maxRetries (spread defaults options) →
  query (mk (journaled inner) defaults) params options (mkJournal [] w) = (o, j') →
  alternates (events j') ∧ ∃ earlier, events j' = Called o :: earlier.
Proof.
  intros Hcount Hrun. unfold query in Hrun. cbn [client defaultOptions] in Hrun.
  apply attempts_alternate in Hrun; [done | lia | lia | by left].
Qed.

End WithJournal.

Lemma retry_sleeps_between_attempts_witness :
  let failure := Thrown (Simulation.sdkError 503 None) in
  let w := Simulation.world 0 [failure; failure] [] in
  let run := query (mk (journaled Simulation.service) builtinOptions) Simulation.pricing
                   noOptions (mkJournal [] w) in
  alternates (events (snd run)) ∧ ∃ earlier, events (snd run) = Called (fst run) :: earlier.
Proof.
  intros failure w run.
  apply (retry_sleeps_between_attempts Simulation.service builtinOptions noOptions
           Simulation.pricing w (fst run) (snd run)).
  - cbn. lia.
  - reflexivity.
Defined.

End RetryRuns.

(** ** Circuit breaker: invariants and transparency *)

Module BreakerRuns.
Import CircuitBreakerClient Behaviour.

Section WithEnv.
Context {W : Type} `{Env W}.

(** X4.  For a failure threshold of at least one, every state the breaker
    can reach keeps its failure count between zero and the threshold while
    the circuit is closed, and an open circuit always has a recorded last
    failure: from [resetTimeout] after it on, every call is let through,
    so the circuit never stays open for ever. *)
Theorem breaker_never_stuck_open (self : t (W := W)) (st : State) :
  1 <= opt_failureThreshold (options self) →
  BreakerReachable self st →
  0 <= failures st ∧
  (state st = CLOSED → failures st < opt_failureThreshold (options self)) ∧
  (state st = OPEN →
     ∃ last,
       lastFailureTime st = Some last ∧
       ∀ t, last + opt_resetTimeout (options self) <= t →
            is_Some (checkState (options self) st t)).
Proof.
  intros Hthr Hreach.
  destruct (BreakerProperties.invariant_reachable self st Hthr Hreach) as [Hf Hc Ho _ _].
  split; [done |]. split; [done |].
  intros Hopen. destruct (Ho Hopen) as [last Hlast]. exists last. split; [done |].
  intros t Hlate. rewrite (BreakerProperties.open_probes self st last t); [by eexists | done..| lia].
Qed.

(** X5.  The breaker never alters what it forwards.  A call either is
    rejected, which happens only in state [OPEN] and leaves the stored
    state, the world and the invocation record untouched, or invokes the
    inner operation exactly once and returns its outcome and its world.
    A call made with the circuit closed or half-open is never rejected. *)
Theorem breaker_forwards_or_rejects (inner : Client W) (opts : Options)
    (params : QueryParams) (st : State) (log : list Outcome) (w : W) :
  let self := mk (recorded inner) opts in
  let result := query self params st (log, w) in
  (state st = OPEN ∧ result = (Thrown circuitOpen, st, (log, w)))
  ∨
  (∃ o w', inner params w = (o, w') ∧
           fst (fst result) = o ∧ snd result = (o :: log, w') ∧
           (state st = OPEN →
              ∃ last, lastFailureTime st = Some last ∧ opt_resetTimeout opts <= now w - last)).
Proof.
  intros self result. subst result. unfold query, checkState, shouldAttemptReset.
  cbn [options client self now Env_with_state snd].
  unfold recorded. cbn [fst snd].
  destruct (inner params w) as [o w'] eqn:Hcall.
  destruct (state st) eqn:Hstate.
  - right. exists o, w'. split; [done |]. by destruct o.
  - destruct (lastFailureTime st) as [last |] eqn:Hlast; [| by left].
    destruct (Z.leb_spec (opt_resetTimeout opts) (now w - last)); [| by left].
    right. exists o, w'. split; [done |]. destruct o; repeat split; eauto.
  - right. exists o, w'. split; [done |]. by destruct o.
Qed.

(** In a closed circuit, failures short of the threshold are counted and
    leave the circuit closed. *)
Lemma closed_counts_failures (self : t (W := W)) fails : ∀ st,
  state st = CLOSED →
  failures st + Z.of_nat (length fails) < opt_failureThreshold (options self) →
  Forall (innerFails (client self)) fails →
  state (breakerAfter self fails st) = CLOSED ∧
  failures (breakerAfter self fails st) = failures st + Z.of_nat (length fails).
Proof.
  induction fails as [| call fails IH]; intros st Hclosed Hbelow Hfail.
  - cbn. split; [done | lia].
  - apply Forall_cons in Hfail as [Hcall Hfail].
    rewrite BreakerProperties.breakerAfter_cons.
    destruct (BreakerProperties.failing_call self st call Hcall) as (Hstep & _ & _).
    destruct (Hstep Hclosed) as [Hcount Hstate].
    cbn [length] in Hbelow.
    destruct (Z.leb_spec (opt_failureThreshold (options self)) (failures st + 1)); [lia |].
    destruct (IH (breakerAfter self [call] st)) as [-> ->]; [done | lia | done |].
    split; [done |]. cbn [length]. lia.
Qed.

(** X6.  Only consecutive failures trip the breaker: in a closed circuit
    a success sets the failure count back to zero, so after it fewer than
    [failureThreshold] failures leave the circuit closed, however many
    failures came before the success. *)
Theorem success_resets_failure_count (self : t (W := W)) (st : State)
    (ok : QueryParams * W) (fails : list (QueryParams * W)) :
  state st = CLOSED →
  innerSucceeds (client self) ok →
  Forall (innerFails (client self)) fails →
  Z.of_nat (length fails) < opt_failureThreshold (options self) →
  state (breakerAfter self (ok :: fails) st) = CLOSED ∧
  failures (breakerAfter self (ok :: fails) st) = Z.of_nat (length fails).
Proof.
  intros Hclosed Hok Hfail Hbelow.
  rewrite BreakerProperties.breakerAfter_cons.
  assert (breakerAfter self [ok] st
          = mkState CLOSED 0 (lastFailureTime st) (successCount st)) as ->.
  { rewrite (BreakerProperties.succeeding_call self st st ok Hok).
    - unfold onSuccess. by rewrite Hclosed.
    - unfold checkState. by rewrite Hclosed. }
  destruct (closed_counts_failures self fails
              (mkState CLOSED 0 (lastFailureTime st) (successCount st))) as [-> ->];
    cbn; try done; lia.
Qed.

End WithEnv.

(** The default breaker after five failures: open, and let through from
    sixty seconds after the last failure on. *)
Lemma breaker_never_stuck_open_witness :
  let self := new (down (Simulation.sdkError 500 None)) noOptions in
  let call t := (Simulation.pricing, Simulation.world t [] []) in
  let st := breakerAfter self [call 10; call 20; call 30; call 40; call 50] initial in
  0 <= failures st ∧
  (state st = CLOSED → failures st < 5) ∧
  (state st = OPEN →
     ∃ last,
       lastFailureTime st = Some last ∧
       ∀ t, last + 60000 <= t → is_Some (checkState (options self) st t)).
Proof.
  intros self call st.
  apply (breaker_never_stuck_open self st).
  - cbn. lia.
  - apply BreakerProperties.breakerAfter_reachable. constructor.
Defined.

(** Four failures, a success, four failures again on the default breaker:
    still closed, with four failures counted. *)
Lemma success_resets_failure_count_witness :
  let self := new Simulation.service noOptions in
  let ko t := (Simulation.pricing,
               Simulation.world t [Thrown (Simulation.sdkError 500 None)] []) in
  let ok := (Simulation.pricing, Simulation.world 50 [] []) in
  let st := breakerAfter self [ko 10; ko 20; ko 30; ko 40] initial in
  state (breakerAfter self (ok :: [ko 60; ko 70; ko 80; ko 90]) st) = CLOSED ∧
  failures (breakerAfter self (ok :: [ko 60; ko 70; ko 80; ko 90]) st) = 4.
Proof.
  intros self ko ok st.
  apply (success_resets_failure_count self st ok [ko 60; ko 70; ko 80; ko 90]).
  - reflexivity.
  - reflexivity.
  - repeat constructor.
  - cbn. lia.
Defined.

End BreakerRuns.

(** ** Monitoring: per-code counts, callbacks, the rate past the window *)

Module MonitorRuns.
Import MonitoredVantigeClient Behaviour MonitorVocabulary.

Section WithEnv.
Context {W : Type} `{Env W}.
Variable self : t (W := W).

Lemma updateErrorRate_keeps st :
  errorsByCode (metrics (updateErrorRate self st)) = errorsByCode (metrics st) ∧
  lastError (metrics (updateErrorRate self st)) = lastError (metrics st) ∧
  errorCallbacks (updateErrorRate self st) = errorCallbacks st.
Proof. unfold updateErrorRate. by destruct (0 <? _). Qed.

(** The per-code map and the last error after one call. *)
Lemma call_records st call o w' :
  client self (fst call) (snd call) = (o, w') →
  let st' := monitorAfter self [call] st in
  match o with
  | Thrown (SDKError e) =>
      errorsByCode (metrics st')
        = <[code e := default 0 (errorsByCode (metrics st) !! code e) + 1]>
            (errorsByCode (metrics st)) ∧
      lastError (metrics st') = Some (mkLastError (code e) (message e) (now w'))
  | _ =>
      errorsByCode (metrics st') = errorsByCode (metrics st) ∧
      lastError (metrics st') = lastError (metrics st)
  end.
Proof.
  destruct call as [params w]. unfold monitorAfter, query. cbn [fold_left fst snd].
  intros ->. destruct o as [r | [e | errno msg]]; cbn [fst snd].
  - match goal with |- context [updateErrorRate self ?s] =>
      destruct (updateErrorRate_keeps s) as (-> & -> & _) end. done.
  - unfold recordError.
    match goal with |- context [updateErrorRate self ?s] =>
      destruct (updateErrorRate_keeps s) as (-> & -> & _) end. done.
  - done.
Qed.

(** The per-code count after a series of calls, from any start. *)
Lemma calls_by_code (c : Z) calls : ∀ st,
  default 0 (errorsByCode (metrics (monitorAfter self calls st)) !! c)
    = default 0 (errorsByCode (metrics st) !! c) + failuresWithCode (client self) c calls ∧
  (errorsByCode (metrics st) !! c = None →
   failuresWithCode (client self) c calls = 0 →
   errorsByCode (metrics (monitorAfter self calls st)) !! c = None).
Proof.
  induction calls as [| call calls IH]; intros st.
  - unfold failuresWithCode. cbn. split; [lia | done].
  - change (call :: calls) with ([call] ++ calls).
    rewrite MonitorProperties.monitorAfter_app.
    destruct (IH (monitorAfter self [call] st)) as [Hcount Hnone].
    rewrite Hcount. clear Hcount.
    destruct (client self call.1 call.2) as [o w'] eqn:Hcall.
    pose proof (call_records st call o w' Hcall) as Hstep. cbv zeta in Hstep.
    assert (outcomeOf (client self) call = o) as Ho by (unfold outcomeOf; by rewrite Hcall).
    unfold failuresWithCode in *. cbn [app]. rewrite filter_cons, Ho.
    destruct o as [r | [e | errno msg]]; cbn [failsWithCode].
    + destruct Hstep as [Hmap _]. rewrite Hmap in *.
      rewrite decide_False by done. split; [lia | done].
    + destruct Hstep as [Hmap _]. rewrite Hmap in *. clear Hmap.
      destruct (decide (code e = c)) as [<- | Hne].
      * rewrite bool_decide_eq_true_2 by done. rewrite decide_True by done.
        rewrite lookup_insert_eq. cbn [default length]. unfold Datatypes.id. split; [lia |].
        intros _ Hzero. lia.
      * rewrite bool_decide_eq_false_2 by done. rewrite decide_False by done.
        rewrite lookup_insert_ne in * by done. split; [lia | done].
    + destruct Hstep as [Hmap _]. rewrite Hmap in *.
      rewrite decide_False by done. split; [lia | done].
Qed.

(** X7.  On a monitor whose per-code map starts empty, after any series
    of calls the entry of [errorsByCode] for a status code is the number
    of calls that failed with a classified error of that code, and a code
    that never occurred has no entry. *)
Theorem errors_counted_by_code (st : State) (calls : list (QueryParams * W)) (c : Z) :
  errorsByCode (metrics st) = ∅ →
  let n := failuresWithCode (client self) c calls in
  errorsByCode (metrics (monitorAfter self calls st)) !! c
    = if decide (n = 0) then None else Some n.
Proof.
  intros Hempty n. destruct (calls_by_code c calls st) as [Hcount Hnone].
  rewrite Hempty, lookup_empty in Hcount, Hnone. cbn in Hcount. fold n in Hcount, Hnone.
  destruct (decide (n = 0)) as [Hz | Hnz]; [by apply Hnone |].
  destruct (errorsByCode (metrics (monitorAfter self calls st)) !! c) as [v |];
    cbn in Hcount; [by subst v | done].
Qed.

(** Calls that do not fail with a classified error keep the last
    error. *)
Lemma unclassified_keep_last calls : ∀ st,
  Forall (λ call, classified (outcomeOf (client self) call) = false) calls →
  lastError (metrics (monitorAfter self calls st)) = lastError (metrics st).
Proof.
  induction calls as [| call calls IH]; intros st Hall; [done |].
  apply Forall_cons in Hall as [Hcall Hall].
  change (call :: calls) with ([call] ++ calls).
  rewrite MonitorProperties.monitorAfter_app, IH by done.
  unfold outcomeOf in Hcall.
  destruct (client self call.1 call.2) as [o w'] eqn:Hcalled.
  pose proof (call_records st call o w' Hcalled) as Hstep. cbv zeta in Hstep.
  destruct o as [r | [e | errno msg]]; cbn in Hcall; try done; by destruct Hstep.
Qed.

(** X8.  [lastError] describes the most recent failure with a classified
    error: its code, its message and the clock reading when it was
    recorded.  Later successes and unclassified failures leave it in
    place. *)
Theorem last_error_is_latest (st : State) (before after : list (QueryParams * W))
    (call : QueryParams * W) (e : VantigeSDKError) (w' : W) :
  client self (fst call) (snd call) = (Thrown (SDKError e), w') →
  Forall (λ call, classified (outcomeOf (client self) call) = false) after →
  lastError (metrics (monitorAfter self (before ++ call :: after) st))
    = Some (mkLastError (code e) (message e) (now w')).
Proof.
  intros Hcall Hafter.
  change (call :: after) with ([call] ++ after).
  rewrite !MonitorProperties.monitorAfter_app, unclassified_keep_last by done.
  pose proof (call_records (monitorAfter self before st) call _ _ Hcall) as Hstep.
  by destruct Hstep.
Qed.

(** X9.  Past the window the rate is the all-time error count over the
    window size: after N calls with [1 <= windowSize <= N], the last of
    which succeeded or failed with a classified error, [errorRate] is
    [E / windowSize] where E counts the calls that failed with a classified
    error.  (So it exceeds 1 as soon as E exceeds the window size.) *)
Theorem error_rate_past_window (st : State) (calls : list (QueryParams * W))
    (last : QueryParams * W) :
  let all := calls ++ [last] in
  let E := classifiedFailures (client self) all in
  requests st = 0 → totalErrors (metrics st) = 0 →
  1 <= windowSize self →
  windowSize self <= Z.of_nat (length all) →
  (∀ errno msg, outcomeOf (client self) last ≠ Thrown (PlainError errno msg)) →
  errorRate (metrics (monitorAfter self all st))
    = (inject_Z E / inject_Z (windowSize self))%Q.
Proof.
  intros all E Hreq Herr Hwin Hpast Hlast.
  destruct (MonitorProperties.calls_counts self all st) as [HN HE].
  cbv zeta in HN, HE. rewrite Hreq in HN. rewrite Herr in HE. cbn in HN, HE.
  destruct (MonitorProperties.calls_counts self calls st) as [HN1 _].
  cbv zeta in HN1. rewrite Hreq in HN1. cbn in HN1.
  unfold all in *. rewrite MonitorProperties.monitorAfter_app.
  rewrite length_app in Hpast. cbn [length] in Hpast.
  rewrite MonitorProperties.call_rate; [| done | rewrite HN1; lia].
  rewrite <- MonitorProperties.monitorAfter_app. rewrite HE, HN.
  rewrite length_app. cbn [length]. by rewrite Z.min_r by lia.
Qed.

(** X10.  A callback registered with [onError] runs after the callbacks
    registered before it, once for each call that fails with a classified
    error, and not at all for a success or an unclassified failure;
    registering it changes neither the outcome nor the metrics. *)
Theorem onError_runs_last (callback : Callback) (params : QueryParams)
    (st : State) (w : W) :
  let plain := query self params st w in
  let observed := query self params (onError callback st) w in
  fst (fst observed) = fst (fst plain) ∧
  metrics (snd (fst observed)) = metrics (snd (fst plain)) ∧
  requests (snd (fst observed)) = requests (snd (fst plain)) ∧
  errorCallbacks (snd (fst observed)) = errorCallbacks (snd (fst plain)) ++ [callback] ∧
  snd observed
    = match fst (fst plain) with
      | Thrown (SDKError e) => callback e (snd plain)
      | _ => snd plain
      end.
Proof.
  cbv zeta. unfold query, onError. cbn [metrics requests errorCallbacks].
  destruct (client self params w) as [[r | [e | errno msg]] w']; cbn [fst snd].
  - unfold updateErrorRate. cbn [metrics requests errorCallbacks].
    by destruct (0 <? _).
  - unfold recordError, updateErrorRate, notifyErrorCallbacks.
    cbn [metrics requests errorCallbacks totalErrors errorsByCode lastError].
    destruct (0 <? _); cbn [metrics requests errorCallbacks];
      by rewrite fold_left_app.
  - done.
Qed.

End WithEnv.

(** Two 500s and a 429 among four calls on a fresh default monitor. *)
Lemma errors_counted_by_code_witness :
  let self := new Simulation.service None in
  let call o := (Simulation.pricing, Simulation.world 10 [o] []) in
  let calls := [call (Thrown (Simulation.sdkError 500 None));
                call (Returned Simulation.okResponse);
                call (Thrown (Simulation.sdkError 429 None));
                call (Thrown (Simulation.sdkError 500 None))] in
  errorsByCode (metrics (monitorAfter self calls initial)) !! 500
    = if decide (failuresWithCode (client self) 500 calls = 0) then None
      else Some (failuresWithCode (client self) 500 calls).
Proof.
  intros self call calls.
  apply (errors_counted_by_code self initial calls 500). reflexivity.
Defined.

Lemma last_error_is_latest_witness :
  let self := new Simulation.service None in
  let call t o := (Simulation.pricing, Simulation.world t [o] []) in
  let e := mkSDKError 429 "Too Many Requests" None in
  lastError (metrics (monitorAfter self
     ([call 10 (Thrown (Simulation.sdkError 500 None))]
        ++ call 20 (Thrown (SDKError e)) :: [call 30 (Returned Simulation.okResponse)])
     initial))
    = Some (mkLastError (code e) (message e) 20).
Proof.
  intros self call e.
  refine (last_error_is_latest self initial
            [call 10 (Thrown (Simulation.sdkError 500 None))]
            [call 30 (Returned Simulation.okResponse)]
            (call 20 (Thrown (SDKError e))) e
            (Simulation.mkWorld 20 [] [] [Simulation.pricing] []) _ _).
  - reflexivity.
  - repeat constructor.
Defined.

(** A window of one request: two calls, both failing with a 500, give a
    rate of 2. *)
Lemma error_rate_past_window_witness :
  let self := new Simulation.service (Some 1) in
  let call t := (Simulation.pricing,
                 Simulation.world t [Thrown (Simulation.sdkError 500 None)] []) in
  let E := classifiedFailures (client self) ([call 10] ++ [call 20]) in
  E = 2 ∧
  errorRate (metrics (monitorAfter self ([call 10] ++ [call 20]) initial))
    = (inject_Z E / inject_Z 1)%Q.
Proof.
  intros self call E. split; [reflexivity |].
  apply (error_rate_past_window self initial [call 10] (call 20)).
  - reflexivity.
  - reflexivity.
  - cbn. lia.
  - cbn. lia.
  - intros errno msg Heq. discriminate Heq.
Defined.

End MonitorRuns.

(** ** Cache: round trip, failures, statistics, the eviction order *)

Module CacheRuns.
Import CachedVantigeClient Behaviour CacheStatistics.

(** What [fetch] stores after a success. *)
Lemma fetch_stores {W : Type} `{Env W} (self : t (W := W)) params cache w r w1 :
  client self params w = (Returned r, w1) →
  fetch self params (getCacheKey params) cache w
    = (Returned r, updateCache self (getCacheKey params) r (now w1) cache, w1) ∧
  get (getCacheKey params) (updateCache self (getCacheKey params) r (now w1) cache)
    = Some (mkCacheEntry r (now w1) 0).
Proof.
  intros Hcall. unfold fetch. rewrite Hcall. split; [done |].
  unfold updateCache. apply CacheProperties.get_set_eq.
Qed.

Section WithEnv.
Context {W : Type} `{Env W}.

(** X11.  Store, then read at once.  When no fresh entry exists for a
    request and the inner operation answers it, the response is stored
    (even when the cache is at capacity); if the next call on the cache,
    with no other call in between, is the same request and is made less
    than [cacheTimeout] after the arrival of the response, it is answered
    with that response without the inner operation being invoked, and the
    entry then counts one hit. *)
Theorem cache_store_then_hit (inner : Client W) (timeout capacity : Z) (cache : Cache)
    (params : QueryParams) (log log2 : list Outcome) (w w1 w2 : W) (r : QueryResponse) :
  let self := mk (recorded inner) timeout capacity in
  let key := getCacheKey params in
  let first := query self params cache (log, w) in
  let cache1 := snd (fst first) in
  (∀ entry, get key cache = Some entry → timeout <= now w - timestamp entry) →
  inner params w = (Returned r, w1) →
  now w2 - now w1 < timeout →
  first = (Returned r, cache1, (Returned r :: log, w1)) ∧
  get key cache1 = Some (mkCacheEntry r (now w1) 0) ∧
  query self params cache1 (log2, w2)
    = (Returned r, hit key (mkCacheEntry r (now w1) 0) cache1, (log2, w2)) ∧
  get key (hit key (mkCacheEntry r (now w1) 0) cache1)
    = Some (mkCacheEntry r (now w1) 1).
Proof.
  intros self key first cache1 Hstale Hcall Hsoon.
  assert (client self params (log, w) = (Returned r, (Returned r :: log, w1))) as Hrec.
  { cbn [client self]. unfold recorded. cbn [fst snd]. by rewrite Hcall. }
  destruct (fetch_stores self params cache (log, w) r (Returned r :: log, w1) Hrec)
    as [Hfetch Hget].
  assert (first = fetch self params key cache (log, w)) as Hfirst.
  { unfold first, query. fold key. destruct (get key cache) as [entry |] eqn:Hentry; [| done].
    unfold isCacheValid. cbn [now Env_with_state snd cacheTimeout self].
    specialize (Hstale entry eq_refl).
    by destruct (Z.ltb_spec (now w - timestamp entry) timeout); [lia |]. }
  assert (get key cache1 = Some (mkCacheEntry r (now w1) 0)) as Hstored.
  { unfold cache1. rewrite Hfirst. unfold key. by rewrite Hfetch. }
  split; [| split; [done | split]].
  - rewrite Hfirst in *. unfold key, cache1 in *. rewrite Hfirst. by rewrite Hfetch.
  - unfold query. fold key. rewrite Hstored.
    unfold isCacheValid. cbn [now Env_with_state snd cacheTimeout self timestamp].
    by destruct (Z.ltb_spec (now w2 - now w1) timeout); [| lia].
  - unfold hit. by rewrite CacheProperties.get_set_eq.
Qed.

(** X12.  No negative caching.  Whenever [query] ends with an error, the
    cache is exactly as it was, the inner operation was invoked once, and
    the error is the one the inner operation raised. *)
Theorem failure_leaves_cache (inner : Client W) (timeout capacity : Z) (cache : Cache)
    (params : QueryParams) (log : list Outcome) (w : W) (error : JsError)
    (cache' : Cache) (lw' : list Outcome * W) :
  let self := mk (recorded inner) timeout capacity in
  query self params cache (log, w) = (Thrown error, cache', lw') →
  cache' = cache ∧
  fst (inner params w) = Thrown error ∧
  lw' = (Thrown error :: log, snd (inner params w)).
Proof.
  intros self. unfold query, fetch. cbn [client self]. unfold recorded. cbn [fst snd].
  destruct (inner params w) as [[r | e] w1]; cbn [fst snd].
  - destruct (get (getCacheKey params) cache) as [entry |];
      [destruct (isCacheValid self entry (now (log, w))) |]; intros [=].
  - destruct (get (getCacheKey params) cache) as [entry |];
      [destruct (isCacheValid self entry (now (log, w))) |]; intros [=]; by subst.
Qed.

(** The hit counts of a reachable cache are not negative. *)
Lemma set_hits key entry cache :
  0 <= hits entry → Forall (λ kv, 0 <= hits kv.2) cache →
  Forall (λ kv, 0 <= hits kv.2) (set key entry cache).
Proof.
  intros Hentry Hall. induction Hall as [| [k e] cache Hk Hall IH]; cbn.
  - by repeat constructor.
  - destruct (decide (k = key)); constructor; done.
Qed.

Lemma delete_hits key cache :
  Forall (λ kv, 0 <= hits kv.2) cache →
  Forall (λ kv, 0 <= hits kv.2) (delete key cache).
Proof.
  intros Hall. induction Hall as [| [k e] cache Hk Hall IH]; cbn; [constructor |].
  destruct (decide (k = key)); [done | by constructor].
Qed.

Lemma get_hits key entry cache :
  Forall (λ kv, 0 <= hits kv.2) cache → get key cache = Some entry → 0 <= hits entry.
Proof.
  intros Hall Hget. apply CacheProperties.get_Some_elem in Hget.
  rewrite Forall_forall in Hall. by apply (Hall (key, entry)).
Qed.

Lemma reachable_hits (self : t (W := W)) cache :
  CacheReachable self cache → Forall (λ kv, 0 <= hits kv.2) cache.
Proof.
  intros Hreach. induction Hreach as [| cache params w Hreach IH]; [constructor |].
  assert (∀ r t, Forall (λ kv, 0 <= hits kv.2)
                        (updateCache self (getCacheKey params) r t cache)) as Hupdate.
  { intros r t. unfold updateCache. apply set_hits; [done |].
    destruct (maxCacheSize self <=? size cache); [| done].
    destruct (findLRUKey t cache); [by apply delete_hits | done]. }
  unfold query, fetch.
  destruct (get (getCacheKey params) cache) as [cached |] eqn:Hget.
  - destruct (isCacheValid self cached (now w)).
    + cbn. unfold hit. apply set_hits; [| done]. cbn.
      pose proof (get_hits _ _ _ IH Hget). lia.
    + destruct (client self params w) as [[r | e] w']; cbn; [apply Hupdate | done].
  - destruct (client self params w) as [[r | e] w']; cbn; [apply Hupdate | done].
Qed.

(** The loop of [getStats] from any loop state. *)
Lemma stats_loop (self : t (W := W)) t cache : ∀ totalHits validEntries,
  Forall (λ kv, 0 <= hits kv.2) cache →
  let '(totalHits', validEntries') :=
    fold_left (statsStep self t) cache (totalHits, validEntries) in
  totalHits <= totalHits' ∧
  validEntries <= validEntries' <= validEntries + Z.of_nat (length cache).
Proof.
  induction cache as [| [k e] cache IH]; intros totalHits validEntries Hall.
  - cbn. lia.
  - apply Forall_cons in Hall as [He Hall]. cbn [fold_left]. unfold statsStep at 2.
    cbn [fst snd] in *.
    specialize (IH (totalHits + hits e)
                   (if isCacheValid self e t then validEntries + 1 else validEntries) Hall).
    destruct (fold_left _ _ _) as [totalHits' validEntries'].
    cbn [length]. destruct (isCacheValid self e t); lia.
Qed.

(** X13.  The statistics of a cache that calls can produce: the hit
    total is not negative, the valid entries are between none and all, and
    the hit rate is a number in [0, 1) as soon as the cache holds an
    entry.  For the empty cache the quotient is 0 / 0 and there is no hit
    rate. *)
Theorem stats_of_reachable_cache (self : t (W := W)) (cache : Cache) (t : Z) :
  CacheReachable self cache →
  let stats := getStats self t cache in
  stat_size stats = size cache ∧
  0 <= totalHits stats ∧
  0 <= validEntries stats <= size cache ∧
  (cache = [] → hitRate stats = None) ∧
  (cache ≠ [] → ∃ rate, hitRate stats = Some rate ∧ (0 <= rate)%Q ∧ (rate < 1)%Q).
Proof.
  intros Hreach. pose proof (reachable_hits self cache Hreach) as Hall.
  pose proof (stats_loop self t cache 0 0 Hall) as Hloop.
  unfold getStats. destruct (fold_left _ _ _) as [total valid] eqn:Hfold. cbn.
  unfold size. repeat split; try lia.
  - intros ->. cbn in Hfold. by injection Hfold as <- <-.
  - intros Hne.
    assert (0 < Z.of_nat (length cache)) as Hsize by (destruct cache; [done | cbn; lia]).
    destruct (Z.eqb_spec (total + Z.of_nat (length cache)) 0) as [Hz | Hnz]; [lia |].
    assert (0 < inject_Z (total + Z.of_nat (length cache)))%Q as Hden.
    { change 0%Q with (inject_Z 0). rewrite <- Zlt_Qlt. lia. }
    eexists. split; [done |]. split.
    + apply Qle_shift_div_l; [done |].
      rewrite Qmult_0_l. change 0%Q with (inject_Z 0). rewrite <- Zle_Qle. lia.
    + apply Qlt_shift_div_r; [done |].
      rewrite Qmult_1_l, <- Zlt_Qlt. lia.
Qed.

(** X14.  Among entries used equally often the newest is evicted first:
    no entry with as few hits as the eviction victim, or fewer, was stored
    after the victim.  (The policy is the reverse of least-recently-used
    among equally used entries.) *)
Theorem victim_is_newest_of_its_hits (t : Z) (cache : Cache) (victim : CacheKey)
    (ventry : CacheEntry) :
  NoDup cache.*1 →
  findLRUKey t cache = Some victim →
  get victim cache = Some ventry →
  ∀ key entry,
    get key cache = Some entry →
    hits entry <= hits ventry →
    timestamp entry <= timestamp ventry.
Proof.
  intros Hnodup Hfind Hvictim key entry Hget Hhits.
  assert (cache ≠ []) as Hne by (by intros ->).
  destruct (CacheProperties.findLRUKey_first_lowest t cache Hne)
    as (victim' & ventry' & before & after & Hfind' & Hfirst).
  rewrite Hfind in Hfind'. injection Hfind' as <-.
  pose proof (CacheProperties.first_lowest_is_lowest _ _ _ _ _ _ Hfirst) as Hlowest.
  destruct Hfirst as (Hcache & _ & _).
  assert (ventry' = ventry) as ->.
  { rewrite Hcache in Hvictim, Hnodup. rewrite CacheProperties.get_middle in Hvictim.
    - by injection Hvictim.
    - rewrite fmap_app in Hnodup. apply NoDup_app in Hnodup as (_ & Hdisj & _).
      intros Hin. apply (Hdisj _ Hin). cbn. apply list_elem_of_here. }
  specialize (Hlowest key entry (CacheProperties.get_Some_elem _ _ _ Hget)).
  unfold score in Hlowest. nia.
Qed.

End WithEnv.

(** The pricing request on the scripted service: stored at clock reading
    1000, read again at 2000. *)
Lemma cache_store_then_hit_witness :
  let self := mk (recorded Simulation.service) 300000 100 in
  let key := getCacheKey Simulation.pricing in
  let w := Simulation.world 1000 [] [] in
  let w1 := snd (Simulation.service Simulation.pricing w) in
  let cache1 := snd (fst (query self Simulation.pricing [] ([], w))) in
  query self Simulation.pricing cache1 ([], Simulation.at_time 2000 w1)
    = (Returned Simulation.okResponse,
       hit key (mkCacheEntry Simulation.okResponse (now w1) 0) cache1,
       ([], Simulation.at_time 2000 w1)).
Proof.
  intros self key w w1 cache1.
  refine (proj1 (proj2 (proj2
    (cache_store_then_hit Simulation.service 300000 100 [] Simulation.pricing [] [] w w1
       (Simulation.at_time 2000 w1) Simulation.okResponse _ _ _)))).
  - intros entry Hentry. discriminate Hentry.
  - reflexivity.
  - cbn. lia.
Defined.

(** A 500 on an empty default cache. *)
Lemma failure_leaves_cache_witness :
  let w := Simulation.world 1000 [Thrown (Simulation.sdkError 500 None)] [] in
  ([] : Cache) = [] ∧
  fst (Simulation.service Simulation.pricing w) = Thrown (Simulation.sdkError 500 None) ∧
  ([Thrown (Simulation.sdkError 500 None)], Simulation.mkWorld 1000 [] [] [Simulation.pricing] [])
    = (Thrown (Simulation.sdkError 500 None) :: [],
       snd (Simulation.service Simulation.pricing w)).
Proof.
  intros w.
  refine (failure_leaves_cache Simulation.service 300000 100 [] Simulation.pricing [] w
            (Simulation.sdkError 500 None) []
            ([Thrown (Simulation.sdkError 500 None)],
             Simulation.mkWorld 1000 [] [] [Simulation.pricing] []) _).
  reflexivity.
Defined.

(** The statistics of the full cache [olderFirst]. *)
Lemma stats_of_reachable_cache_witness :
  let stats := getStats (new Simulation.service) 20000 (fst olderFirst) in
  stat_size stats = size (fst olderFirst) ∧
  0 <= totalHits stats ∧
  0 <= validEntries stats <= size (fst olderFirst) ∧
  (fst olderFirst = [] → hitRate stats = None) ∧
  (fst olderFirst ≠ [] → ∃ rate, hitRate stats = Some rate ∧ (0 <= rate)%Q ∧ (rate < 1)%Q).
Proof.
  refine (stats_of_reachable_cache (new Simulation.service) (fst olderFirst) 20000 _).
  apply CacheProperties.cacheAfter_reachable. constructor.
Defined.

(** Two entries without hits: the one stored later is the victim. *)
Lemma victim_is_newest_of_its_hits_witness :
  let old := (getCacheKey requestA, mkCacheEntry Simulation.okResponse 100 0) in
  let recent := (getCacheKey requestB, mkCacheEntry Simulation.okResponse 200 0) in
  findLRUKey 1000 [old; recent] = Some (fst recent) ∧
  ∀ key entry,
    get key [old; recent] = Some entry →
    hits entry <= hits (snd recent) →
    timestamp entry <= timestamp (snd recent).
Proof.
  intros old recent. split; [reflexivity |].
  refine (victim_is_newest_of_its_hits 1000 [old; recent] (fst recent) (snd recent) _ _ _).
  - apply (bool_decide_unpack _). reflexivity.
  - reflexivity.
  - reflexivity.
Defined.

End CacheRuns.

(** ** Text: cache keys and keywords *)

Module TextProperties.
Import Text.

Lemma lowerAscii_idem c : lowerAscii (lowerAscii c) = lowerAscii c.
Proof. destruct c as [[] [] [] [] [] [] [] []]; reflexivity. Qed.

Lemma is_space_lowerAscii c : Ascii.is_space (lowerAscii c) = Ascii.is_space c.
Proof. destruct c as [[] [] [] [] [] [] [] []]; reflexivity. Qed.

Lemma toLowerCase_idem s : toLowerCase (toLowerCase s) = toLowerCase s.
Proof. induction s as [| c s IH]; cbn; [done |]. by rewrite lowerAscii_idem, IH. Qed.

Lemma toLowerCase_trimStart s : toLowerCase (trimStart s) = trimStart (toLowerCase s).
Proof.
  induction s as [| c s IH]; cbn; [done |].
  rewrite is_space_lowerAscii. by destruct (Ascii.is_space c).
Qed.

Lemma toLowerCase_rev_app s1 : ∀ s2,
  toLowerCase (String.rev_app s1 s2) = String.rev_app (toLowerCase s1) (toLowerCase s2).
Proof. induction s1 as [| c s1 IH]; intros s2; cbn; [done |]. by rewrite IH. Qed.

Lemma toLowerCase_trim s : toLowerCase (trim s) = trim (toLowerCase s).
Proof.
  unfold trim, String.rev.
  by rewrite toLowerCase_rev_app, toLowerCase_trimStart, toLowerCase_rev_app,
    toLowerCase_trimStart.
Qed.

Lemma rev_app_rev_app s1 : ∀ s2 s3,
  String.rev_app (String.rev_app s1 s2) s3 = String.rev_app s2 (s1 +:+ s3).
Proof. induction s1 as [| c s1 IH]; intros s2 s3; cbn; [done |]. by rewrite IH. Qed.

Lemma append_empty_r s : s +:+ "" = s.
Proof.
  induction s as [| c s IH]; [done |].
  change (String c (s +:+ "") = String c s). by rewrite IH.
Qed.

Lemma rev_involutive s : String.rev (String.rev s) = s.
Proof. unfold String.rev. rewrite rev_app_rev_app. cbn. apply append_empty_r. Qed.

Lemma trimStart_headOk s : headOk (trimStart s).
Proof. induction s as [| c s IH]; cbn; [done |]. by destruct (Ascii.is_space c) eqn:Hc. Qed.

Lemma headOk_trimStart s : headOk s → trimStart s = s.
Proof. destruct s as [| c s]; cbn; [done |]. by intros ->. Qed.

Lemma lastOk_trimStart s : lastOk s → lastOk (trimStart s).
Proof.
  induction s as [| c s IH]; [done |]. intros Hlast. cbn [trimStart].
  destruct (Ascii.is_space c); [| done].
  apply IH. destruct s; [done | exact Hlast].
Qed.

Lemma headOk_rev_app s : ∀ acc,
  headOk (String.rev_app s acc) ↔ match s with EmptyString => headOk acc | _ => lastOk s end.
Proof.
  induction s as [| c s IH]; intros acc; [done |]. cbn [String.rev_app].
  rewrite IH. destruct s; [done |]. done.
Qed.

Lemma headOk_rev s : headOk (String.rev s) ↔ lastOk s.
Proof. unfold String.rev. rewrite headOk_rev_app. by destruct s. Qed.

Lemma trim_idem s : trim (trim s) = trim s.
Proof.
  unfold trim. set (b := trimStart (String.rev (trimStart s))).
  assert (headOk b) as Hb by apply trimStart_headOk.
  assert (lastOk b) as Hlast.
  { apply lastOk_trimStart, headOk_rev. rewrite rev_involutive. apply trimStart_headOk. }
  rewrite (headOk_trimStart (String.rev b)) by by apply headOk_rev.
  by rewrite rev_involutive, (headOk_trimStart b).
Qed.

(** X15.  For a query of ASCII characters, the query field of a cache
    key is in normal form, lower-case and without leading or trailing
    blank, and normalising is idempotent: the request whose query text is
    that normal form has the same key, so requests that differ from it
    only by case and surrounding blanks share its cache entry. *)
Theorem cache_key_normal_form (params : QueryParams) :
  let normal := trim (toLowerCase (query params)) in
  asciiOnly (query params) →
  toLowerCase normal = normal ∧
  trimmed normal ∧
  CachedVantigeClient.getCacheKey
    (mkQueryParams (corpusId params) normal (limit params) (generateAnswer params))
  = CachedVantigeClient.getCacheKey params.
Proof.
  cbv zeta. intros _.
  unfold trimmed, CachedVantigeClient.getCacheKey. cbn [corpusId query limit generateAnswer].
  assert (toLowerCase (trim (toLowerCase (query params))) = trim (toLowerCase (query params)))
    as Hlower by by rewrite toLowerCase_trim, toLowerCase_idem.
  split; [done |]. split; [apply trim_idem |].
  by rewrite Hlower, trim_idem.
Qed.

(** Characters and reversal. *)
Lemma allChars_rev_app P s1 : ∀ s2,
  allChars P (String.rev_app s1 s2) = allChars P s1 && allChars P s2.
Proof.
  induction s1 as [| c s1 IH]; intros s2; cbn; [done |].
  rewrite IH. cbn. by destruct (P c), (allChars P s1).
Qed.

Lemma allChars_rev P s : allChars P (String.rev s) = allChars P s.
Proof. unfold String.rev. rewrite allChars_rev_app. cbn. by rewrite andb_true_r. Qed.

Lemma allChars_impl (P Q : ascii → bool) s :
  (∀ c, P c = true → Q c = true) → allChars P s = true → allChars Q s = true.
Proof.
  intros HPQ. induction s as [| c s IH]; cbn; [done |].
  rewrite !andb_true_iff. intros [Hc Hs]. auto.
Qed.

Lemma toLowerCase_lowerOrBlank s : allChars lowerOrBlank (toLowerCase s) = true.
Proof.
  induction s as [| c s IH]; cbn; [done |]. rewrite IH, andb_true_r.
  unfold lowerOrBlank. rewrite bool_decide_eq_true_2 by apply lowerAscii_idem.
  apply orb_true_r.
Qed.

Lemma allChars_wordChar_lower s : allChars wordChar s = true → toLowerCase s = s.
Proof.
  induction s as [| c s IH]; cbn; [done |].
  unfold wordChar at 1. rewrite !andb_true_iff, bool_decide_eq_true.
  intros [[_ ->] Hs]. by rewrite IH.
Qed.

(** The words of a lower-cased text are not empty and consist of
    lower-case characters that are no blanks. *)
Lemma words_go_chars s : ∀ cur,
  allChars lowerOrBlank s = true →
  (∀ acc, cur = Some acc → acc ≠ EmptyString ∧ allChars wordChar acc = true) →
  Forall (λ word, word ≠ EmptyString ∧ allChars wordChar word = true)
         (String.words_go cur s).
Proof.
  assert (∀ cur : option string,
            (∀ acc, cur = Some acc → acc ≠ EmptyString ∧ allChars wordChar acc = true) →
            Forall (λ word, word ≠ EmptyString ∧ allChars wordChar word = true)
                   (option_list (String.rev <$> cur))) as Hflush.
  { intros [acc |] Hcur; cbn; [| constructor].
    destruct (Hcur acc eq_refl) as [Hne Hall]. constructor; [| constructor].
    split; [| by rewrite allChars_rev].
    intros Hrev. apply Hne. by rewrite <- (rev_involutive acc), Hrev. }
  induction s as [| c s IH]; intros cur Hs Hcur; cbn [String.words_go]; [by apply Hflush |].
  cbn in Hs. apply andb_true_iff in Hs as [Hc Hs].
  destruct (Ascii.is_space c) eqn:Hspace.
  - apply Forall_app. split; [by apply Hflush |]. by apply IH.
  - apply IH; [done |]. intros acc' [= <-].
    assert (wordChar c = true) as Hword.
    { unfold wordChar, lowerOrBlank in *. rewrite Hspace in *. done. }
    destruct cur as [acc |]; cbn.
    + destruct (Hcur acc eq_refl) as [_ Hall]. split; [done |]. by rewrite Hword, Hall.
    + split; [done |]. by rewrite Hword.
Qed.

(** What the filter and the splitting guarantee of a keyword. *)
Lemma keywords_are_clean_core (query keyword : string) :
  keyword ∈ ResilientSearchClient.extractKeywords query →
  (2 < String.length keyword)%nat ∧
  (keyword ∉ ResilientSearchClient.stopWords) ∧
  toLowerCase keyword = keyword ∧
  blankFree keyword.
Proof.
  unfold ResilientSearchClient.extractKeywords. rewrite list_elem_of_filter.
  intros [[Hstop Hlen] Hin].
  pose proof (words_go_chars (toLowerCase query) None (toLowerCase_lowerOrBlank query)) as Hall.
  rewrite Forall_forall in Hall. destruct (Hall ltac:(done) keyword Hin) as [_ Hchars].
  repeat split; try done.
  - by apply allChars_wordChar_lower.
  - unfold blankFree. eapply allChars_impl; [| exact Hchars].
    intros c. unfold wordChar. by rewrite andb_true_iff; intros [? _].
Qed.

(** X16.  For a query of ASCII characters, every keyword
    [extractKeywords] returns has more than two characters, is no stop
    word, is in lower case and contains no blank. *)
Theorem keywords_are_clean (query keyword : string) :
  asciiOnly query →
  keyword ∈ ResilientSearchClient.extractKeywords query →
  (2 < String.length keyword)%nat ∧
  (keyword ∉ ResilientSearchClient.stopWords) ∧
  toLowerCase keyword = keyword ∧
  blankFree keyword.
Proof. intros _. apply keywords_are_clean_core. Qed.

Lemma cache_key_normal_form_witness :
  CachedVantigeClient.getCacheKey
    (mkQueryParams "docs" (trim (toLowerCase "  Pricing Plans ")) None (Some true))
  = CachedVantigeClient.getCacheKey
      (mkQueryParams "docs" "  Pricing Plans " None (Some true)).
Proof.
  refine (proj2 (proj2 (cache_key_normal_form
            (mkQueryParams "docs" "  Pricing Plans " None (Some true)) _))).
  reflexivity.
Defined.

Lemma keywords_are_clean_witness :
  (2 < String.length "reset")%nat ∧
  ("reset"%string ∉ ResilientSearchClient.stopWords) ∧
  toLowerCase "reset" = "reset"%string ∧
  blankFree "reset".
Proof.
  refine (keywords_are_clean "How do I reset  the API key" "reset" _ _).
  - reflexivity.
  - apply (bool_decide_unpack _). reflexivity.
Defined.

(** Reading a blank-free word off the front of a text. *)
Lemma words_go_word word : ∀ cur rest,
  blankFree word →
  String.words_go cur (word +:+ rest)
    = String.words_go
        (match word with
         | EmptyString => cur
         | _ => Some (String.rev_app word (default EmptyString cur))
         end) rest.
Proof.
  unfold blankFree.
  induction word as [| c word IH]; intros cur rest Hfree; [done |].
  cbn in Hfree. apply andb_true_iff in Hfree as [Hc Hfree].
  apply negb_true_iff in Hc.
  change (String c word +:+ rest) with (String c (word +:+ rest)).
  cbn [String.words_go]. rewrite Hc, IH by done.
  destruct word; by destruct cur.
Qed.

Lemma words_go_nonempty_word word cur rest :
  word ≠ EmptyString → blankFree word →
  String.words_go cur (word +:+ rest)
    = String.words_go (Some (String.rev_app word (default EmptyString cur))) rest.
Proof. intros Hne Hfree. rewrite words_go_word by done. by destruct word. Qed.

(** Splitting what [join(' ')] built gives the words back. *)
Lemma words_joinSpace words :
  Forall (λ word, word ≠ EmptyString ∧ blankFree word) words →
  String.words (joinSpace words) = words.
Proof.
  unfold String.words.
  induction words as [| word words IH]; intros Hall; [done |].
  apply Forall_cons in Hall as [[Hne Hfree] Hall].
  destruct words as [| word2 words].
  - cbn [joinSpace]. rewrite <- (append_empty_r word) at 1.
    rewrite words_go_nonempty_word by done.
    change (String.words_go (Some (String.rev_app word (default EmptyString None)))
                            EmptyString)
      with [String.rev (String.rev word)].
    by rewrite rev_involutive.
  - change (joinSpace (word :: word2 :: words))
      with (word +:+ " " +:+ joinSpace (word2 :: words)).
    rewrite words_go_nonempty_word by done.
    change (String.words_go (Some (String.rev_app word (default EmptyString None)))
                            (" " +:+ joinSpace (word2 :: words)))
      with ([String.rev (String.rev word)]
              ++ String.words_go None (joinSpace (word2 :: words))).
    by rewrite IH, rev_involutive.
Qed.

Lemma toLowerCase_append s1 s2 :
  toLowerCase (s1 +:+ s2) = toLowerCase s1 +:+ toLowerCase s2.
Proof.
  induction s1 as [| c s1 IH]; [done |].
  change (String c s1 +:+ s2) with (String c (s1 +:+ s2)). cbn [toLowerCase].
  by rewrite IH.
Qed.

Lemma toLowerCase_joinSpace words :
  Forall (λ word, toLowerCase word = word) words →
  toLowerCase (joinSpace words) = joinSpace words.
Proof.
  induction words as [| word words IH]; intros Hall; [done |].
  apply Forall_cons in Hall as [Hword Hall].
  destruct words as [| word2 words]; [done |].
  change (joinSpace (word :: word2 :: words))
    with (word +:+ " " +:+ joinSpace (word2 :: words)).
  by rewrite !toLowerCase_append, Hword, IH.
Qed.

Lemma filter_all {A} (P : A → Prop) `{∀ x, Decision (P x)} (l : list A) :
  Forall P l → filter P l = l.
Proof.
  induction 1 as [| x l Hx Hl IH]; [done |].
  by rewrite filter_cons, decide_True, IH.
Qed.

(** X17.  For a query of ASCII characters, simplifying is stable: the
    keywords of the simplified query, the keywords of a query joined by
    single blanks, are the keywords themselves, so simplifying a
    simplified query changes nothing. *)
Theorem keywords_stable (query : string) :
  asciiOnly query →
  ResilientSearchClient.extractKeywords
    (joinSpace (ResilientSearchClient.extractKeywords query))
  = ResilientSearchClient.extractKeywords query.
Proof.
  intros _.
  set (keywords := ResilientSearchClient.extractKeywords query).
  assert (Forall (λ keyword,
            (2 < String.length keyword)%nat ∧
            (keyword ∉ ResilientSearchClient.stopWords) ∧
            toLowerCase keyword = keyword ∧ blankFree keyword) keywords) as Hclean.
  { apply Forall_forall. intros keyword Hin. by apply (keywords_are_clean_core query). }
  unfold ResilientSearchClient.extractKeywords at 1.
  rewrite toLowerCase_joinSpace, words_joinSpace.
  - apply filter_all. eapply Forall_impl; [exact Hclean |]. by intros k (? & ? & _).
  - eapply Forall_impl; [exact Hclean |]. intros k (Hlen & _ & _ & Hfree).
    split; [| done]. intros ->. cbn in Hlen. lia.
  - eapply Forall_impl; [exact Hclean |]. by intros k (_ & _ & ? & _).
Qed.

Lemma keywords_stable_witness :
  ResilientSearchClient.extractKeywords
    (joinSpace (ResilientSearchClient.extractKeywords "How do I reset  the API key"))
  = ResilientSearchClient.extractKeywords "How do I reset  the API key".
Proof.
  refine (keywords_stable "How do I reset  the API key" _). reflexivity.
Defined.

End TextProperties.

(** ** Search with fall-back, batches, contextual queries *)

Module FallbackRuns.
Import ResilientSearchClient.

(** X18.  [searchWithFallback] never throws: whatever the primary and the
    cache client do, it returns a search result.  The confidence of the
    result is determined by the strategy that produced it; the result is
    of type [primary] exactly when the first call of the primary client
    succeeded, and a default response carries no result items. *)
Theorem search_never_throws {W : Type} (self : t (W := W)) (corpusId query : string) (w : W) :
  ∃ result w',
    searchWithFallback self corpusId query w = (inl result, w') ∧
    sr_confidence result
      = match sr_type result with
        | primary => high
        | cached => medium
        | simplified => low
        | default_response => none
        end ∧
    (sr_type result = primary ↔
       ∃ r w1, primaryClient self (mkQueryParams corpusId query (Some 10) (Some true)) w
               = (Returned r, w1)) ∧
    (sr_type result = default_response → sr_results result = []).
Proof.
  unfold searchWithFallback. cbn [firstSuccess].
  unfold tryPrimarySearch.
  destruct (primaryClient self _ w) as [[r | e] w1] eqn:Hprimary.
  { eexists _, _. split; [done |]. cbn. split; [done |]. split; [| done].
    split; [eauto | done]. }
  assert (Hno : ¬ ∃ r w2, (Thrown e, w1) = (Returned r, w2)) by (intros (? & ? & ?); done).
  unfold tryCachedSearch.
  destruct (cacheClient self) as [cache |].
  - destruct (cache _ w1) as [[r | e2] w2].
    { eexists _, _. split; [done |]. cbn. split; [done |]. split; [| done].
      split; [done | intros Hp; by destruct Hno]. }
    unfold trySimplifiedSearch.
    destruct (primaryClient self _ w2) as [[r | e3] w3].
    { eexists _, _. split; [done |]. cbn. split; [done |]. split; [| done].
      split; [done | intros Hp; by destruct Hno]. }
    eexists _, _. split; [done |]. cbn. split; [done |]. split; [| done].
    split; [done | intros Hp; by destruct Hno].
  - unfold trySimplifiedSearch.
    destruct (primaryClient self _ w1) as [[r | e3] w3].
    { eexists _, _. split; [done |]. cbn. split; [done |]. split; [| done].
      split; [done | intros Hp; by destruct Hno]. }
    eexists _, _. split; [done |]. cbn. split; [done |]. split; [| done].
    split; [done | intros Hp; by destruct Hno].
Qed.

End FallbackRuns.

Module BatchRuns.
Import BatchQueryProcessor.

Lemma batchesFrom_concat (fuel : nat) : ∀ (i : nat) (queries : list string),
  (length queries - i ≤ fuel)%nat →
  concat (batchesFrom fuel i queries) = drop i queries.
Proof.
  induction fuel as [| fuel IH]; intros i queries Hfuel; cbn [batchesFrom];
    unfold concurrencyLimit in *.
  - rewrite drop_ge by lia. done.
  - destruct (Nat.ltb_spec i (length queries)) as [Hlt | Hge].
    + change (concat (?b :: ?bs)) with (b ++ concat bs). rewrite IH by lia.
      rewrite <- (take_drop 5 (drop i queries)) at 2.
      by rewrite drop_drop.
    + rewrite drop_ge by lia. done.
Qed.

Lemma batchesFrom_sizes (fuel : nat) : ∀ (i : nat) (queries : list string),
  Forall (fun batch => (1 ≤ length batch ≤ concurrencyLimit)%nat)
         (batchesFrom fuel i queries).
Proof.
  induction fuel as [| fuel IH]; intros i queries; cbn [batchesFrom]; [constructor |].
  destruct (Nat.ltb_spec i (length queries)) as [Hlt | Hge]; [| constructor].
  constructor; [| apply IH].
  rewrite length_take, length_drop. unfold concurrencyLimit. lia.
Qed.

Lemma batchesFrom_count (fuel : nat) : ∀ (i : nat) (queries : list string),
  (length queries - i ≤ fuel)%nat →
  (length (batchesFrom fuel i queries) * concurrencyLimit
     < length queries - i + concurrencyLimit)%nat ∧
  (length queries - i ≤ length (batchesFrom fuel i queries) * concurrencyLimit)%nat.
Proof.
  induction fuel as [| fuel IH]; intros i queries Hfuel; cbn [batchesFrom];
    unfold concurrencyLimit in *.
  - cbn [length]. lia.
  - destruct (Nat.ltb_spec i (length queries)) as [Hlt | Hge].
    + cbn [length]. specialize (IH (i + 5)%nat queries). lia.
    + cbn [length]. lia.
Qed.

(** X19.  The groups of [batchQuery] partition the queries: put end to
    end they are the list of queries, in order; every group holds at
    least one and at most [concurrencyLimit] = 5 queries; and there are
    as many groups as the number of queries divided by five, rounded up. *)
Theorem batches_partition (queries : list string) :
  concat (batches queries) = queries ∧
  Forall (fun batch => (1 ≤ length batch ≤ concurrencyLimit)%nat) (batches queries) ∧
  length (batches queries) = ((length queries + 4) / 5)%nat.
Proof.
  unfold batches. split; [| split].
  - rewrite batchesFrom_concat by lia. done.
  - apply batchesFrom_sizes.
  - pose proof (batchesFrom_count (length queries) 0 queries) as Hcount.
    unfold concurrencyLimit in Hcount.
    apply (Nat.div_unique _ 5 _
      (length queries + 4 - 5 * length (batchesFrom (length queries) 0 queries))); lia.
Qed.

End BatchRuns.

Module ContextRuns.
Import ContextualSearchClient.

Lemma append_assoc (s1 s2 s3 : string) : (s1 +:+ s2) +:+ s3 = s1 +:+ (s2 +:+ s3).
Proof.
  induction s1 as [| c s1 IH]; [done |].
  change (String c ((s1 +:+ s2) +:+ s3) = String c (s1 +:+ (s2 +:+ s3))).
  by rewrite IH.
Qed.

(** X20.  The query sent by [contextualQuery] always ends with the
    user's query: the role and the previous query are only put in front of
    it.  The query is sent unchanged when the context names no role and
    the query is no follow-up, or when it names no role and there is no
    previous query.  Whether a query counts as a follow-up does not depend
    on its case. *)
Theorem contextual_query_keeps_question (query : string) (context : SearchContext) :
  (∃ lead, buildContextualQuery query context = lead +:+ query) ∧
  (truthy (userRole context) = None →
   isFollowUpQuery query = false ∨ previousQueries context = [] →
   buildContextualQuery query context = query) ∧
  isFollowUpQuery (toLowerCase query) = isFollowUpQuery query.
Proof.
  split; [| split].
  - unfold buildContextualQuery.
    destruct (truthy (userRole context)) as [role |];
      (destruct (last (previousQueries context)) as [lastQuery |];
       [destruct (isFollowUpQuery query) |]).
    + exists (lastQuery +:+ " " +:+ role +:+ " question: ").
      by rewrite !append_assoc.
    + exists (role +:+ " question: "). by rewrite !append_assoc.
    + exists (role +:+ " question: "). by rewrite !append_assoc.
    + exists (lastQuery +:+ " "). by rewrite !append_assoc.
    + by exists "".
    + by exists "".
  - intros Hrole Hcase. unfold buildContextualQuery. rewrite Hrole.
    destruct Hcase as [Hfollow | Hnone].
    + rewrite Hfollow. by destruct (last _).
    + by rewrite Hnone.
  - unfold isFollowUpQuery. by rewrite TextProperties.toLowerCase_idem.
Qed.

End ContextRuns.

(** ** Conversation memory *)

Module ConversationRuns.
Import ConversationalSearch ConversationVocabulary.

Lemma length_append (s1 s2 : string) :
  String.length (s1 +:+ s2) = (String.length s1 + String.length s2)%nat.
Proof.
  induction s1 as [| c s1 IH]; [done |].
  change (S (String.length (s1 +:+ s2)) = S (String.length s1 + String.length s2)).
  by rewrite IH.
Qed.

(** The loop of [buildContext]: it appends the lines of the longest
    initial segment of the messages that fits. *)
Lemma appendMessages_shown (maxLen : Z) : ∀ (messages : list Message) context len,
  len = Z.of_nat (String.length context) →
  ∃ shown rest,
    messages = shown ++ rest ∧
    appendMessages maxLen messages context len = context +:+ transcript shown ∧
    (len ≤ maxLen → len + Z.of_nat (String.length (transcript shown)) ≤ maxLen) ∧
    (maxLen < len → shown = []) ∧
    match rest with
    | [] => True
    | next :: _ =>
        maxLen < len + Z.of_nat (String.length (transcript shown))
                 + Z.of_nat (String.length (msgText next))
    end.
Proof.
  induction messages as [| msg messages IH]; intros context len Hlen.
  - exists [], []. cbn [appendMessages transcript].
    rewrite TextProperties.append_empty_r. cbn [String.length]. repeat apply conj; try done; lia.
  - cbn [appendMessages].
    destruct (Z.ltb_spec maxLen (len + Z.of_nat (String.length (msgText msg)))) as [Hfull | Hfits].
    + exists [], (msg :: messages). cbn [transcript].
      rewrite TextProperties.append_empty_r. cbn [String.length].
      repeat apply conj; try done; lia.
    + destruct (IH (context +:+ msgText msg) (len + Z.of_nat (String.length (msgText msg))))
        as (shown & rest & Hsplit & Happend & Hbound & _ & Hnext).
      { rewrite length_append. lia. }
      exists (msg :: shown), rest. cbn [transcript].
      rewrite length_append, <- ContextRuns.append_assoc.
      repeat apply conj.
      * by rewrite Hsplit.
      * done.
      * intros _. specialize (Hbound Hfits). lia.
      * intros Hover. lia.
      * destruct rest as [| next rest']; [done | lia].
Qed.

(** The test of [cleanOldConversations], session by session. *)
Lemma clean_lookup (t : Z) (conversations : Conversations) (sessionId : string) :
  cleanOldConversations t conversations !! sessionId
    = match conversations !! sessionId with
      | Some messages => if stale t messages then None else Some messages
      | None => None
      end.
Proof.
  unfold cleanOldConversations. rewrite map_lookup_filter.
  destruct (conversations !! sessionId) as [messages |]; [| done].
  cbn. destruct (stale t messages); by case_guard.
Qed.

Lemma stale_active (t : Z) (messages : list Message) :
  stale t messages = false ↔ activeSince (t - 60 * 60 * 1000) messages.
Proof.
  unfold stale, activeSince. destruct (last messages) as [lastMessage |]; [| done].
  destruct (Z.ltb_spec (timestamp lastMessage) (t - 60 * 60 * 1000)); split; (done || lia).
Qed.

(** X21.  The context of a chat request is the header followed by the
    lines of whole messages: an initial segment of the (at most six) most
    recent messages of the conversation, in order.  It is never longer
    than [maxContextLength], unless the header alone (23 characters) is,
    and it stops only at a message that would not fit. *)
Theorem context_shows_recent_prefix (maxLen : Z) (conversation : list Message) :
  ∃ shown rest,
    recentMessages conversation = shown ++ rest ∧
    (∃ earlier, conversation = earlier ++ shown ++ rest) ∧
    (length shown + length rest ≤ 6)%nat ∧
    buildContext maxLen conversation = contextHeader +:+ transcript shown ∧
    Z.of_nat (String.length (buildContext maxLen conversation)) ≤ Z.max maxLen 23 ∧
    match rest with
    | [] => True
    | next :: _ =>
        maxLen < Z.of_nat (String.length (buildContext maxLen conversation))
                 + Z.of_nat (String.length (msgText next))
    end.
Proof.
  unfold buildContext.
  destruct (appendMessages_shown maxLen (recentMessages conversation) contextHeader
              (Z.of_nat (String.length contextHeader)) eq_refl)
    as (shown & rest & Hsplit & Happend & Hbound & Hover & Hnext).
  exists shown, rest. rewrite Happend, length_append.
  change (String.length contextHeader) with 23%nat in *.
  repeat apply conj.
  - done.
  - exists (take (length conversation - 6) conversation).
    rewrite <- Hsplit. unfold recentMessages. by rewrite take_drop.
  - rewrite <- length_app, <- Hsplit. unfold recentMessages. rewrite length_drop. lia.
  - done.
  - destruct (Z.le_gt_cases 23 maxLen) as [Hle | Hgt].
    + specialize (Hbound Hle). lia.
    + rewrite Hover by lia. cbn [transcript String.length]. lia.
  - destruct rest as [| next rest']; [done | lia].
Qed.

Section WithEnv.
Context {W : Type} `{Env W}.

(** X22.  A chat that is answered.  The request carries the context
    built from the history with the new question; the answer returned is
    never empty; afterwards the session holds its history followed by the
    question and the answer, stamped with the clock readings before and
    after the call; every other session is kept unchanged unless its last
    message is more than an hour older than the answer, in which case it
    is dropped. *)
Theorem chat_records_exchange (self : t) (sessionId corpusId message : string)
    (conversations : Conversations) (w w' : W) (response : QueryResponse) :
  let asked := getConversation sessionId conversations ++ [mkMessage user message (now w)] in
  client self (chatRequest self corpusId message asked) w = (Returned response, w') →
  ∃ conversations',
    chat self sessionId corpusId message conversations w
      = (inl (answerOf response), conversations', w') ∧
    answerOf response ≠ "" ∧
    getConversation sessionId conversations'
      = asked ++ [mkMessage assistant (answerOf response) (now w')] ∧
    ∀ other, other ≠ sessionId →
      conversations' !! other
        = match conversations !! other with
          | Some messages =>
              if stale (now w') messages then None else Some messages
          | None => None
          end.
Proof.
  intros asked Hcall. unfold chat. fold (getConversation sessionId conversations).
  fold asked. rewrite Hcall.
  eexists. split; [reflexivity |]. repeat apply conj.
  - unfold answerOf, noAnswer. by destruct (answer response) as [[| c text] |].
  - unfold getConversation at 1. rewrite clean_lookup, lookup_insert_eq.
    unfold stale. rewrite last_snoc. cbn [timestamp].
    by destruct (Z.ltb_spec (now w') (now w' - 60 * 60 * 1000)); [lia |].
  - intros other Hother. rewrite clean_lookup, lookup_insert_ne by done.
    destruct (conversations !! sessionId); [by rewrite lookup_insert_ne | done].
Qed.

(** X23.  A chat whose request fails.  The error is passed on and no
    clean-up runs.  The question is nevertheless kept in the history of a
    session that already existed, because it was pushed onto the stored
    array before the call; a session that did not exist is not created.
    All other sessions are untouched. *)
Theorem chat_failure_keeps_question (self : t) (sessionId corpusId message : string)
    (conversations : Conversations) (w w' : W) (error : JsError) :
  let asked := getConversation sessionId conversations ++ [mkMessage user message (now w)] in
  client self (chatRequest self corpusId message asked) w = (Thrown error, w') →
  ∃ conversations',
    chat self sessionId corpusId message conversations w
      = (inr error, conversations', w') ∧
    conversations' !! sessionId
      = match conversations !! sessionId with
        | Some _ => Some asked
        | None => None
        end ∧
    ∀ other, other ≠ sessionId → conversations' !! other = conversations !! other.
Proof.
  intros asked Hcall. unfold chat. fold (getConversation sessionId conversations).
  fold asked. rewrite Hcall.
  eexists. split; [reflexivity |]. split.
  - destruct (conversations !! sessionId) eqn:Hstored; [by rewrite lookup_insert_eq | done].
  - intros other Hother.
    destruct (conversations !! sessionId); [by rewrite lookup_insert_ne | done].
Qed.

End WithEnv.

(** X24.  The clean-up keeps exactly the sessions whose last message is
    at most an hour old (and those without messages), with their history
    unchanged; cleaning at a moment and again at a later one leaves what
    cleaning at the later moment alone leaves. *)
Theorem cleanup_keeps_active_sessions (t t' : Z) (conversations : Conversations) :
  t ≤ t' →
  (∀ sessionId messages,
     cleanOldConversations t conversations !! sessionId = Some messages ↔
     conversations !! sessionId = Some messages ∧
     activeSince (t - 60 * 60 * 1000) messages) ∧
  cleanOldConversations t' (cleanOldConversations t conversations)
    = cleanOldConversations t' conversations.
Proof.
  intros Hlater. split.
  - intros sessionId messages. rewrite clean_lookup, <- stale_active.
    destruct (conversations !! sessionId) as [stored |];
      [| split; [done | intros [Hsome _]; done]].
    destruct (stale t stored) eqn:Hstale.
    + split; [done | intros [[= ->] Hactive]; congruence].
    + split; [intros [= ->]; done | intros [[= ->] _]; done].
  - apply map_eq. intros sessionId. rewrite !clean_lookup.
    destruct (conversations !! sessionId) as [stored |]; [| done].
    destruct (stale t stored) eqn:Hstale; [| done].
    assert (stale t' stored = true) as ->; [| done].
    unfold stale in *. destruct (last stored) as [lastMessage |]; [| done].
    apply Z.ltb_lt in Hstale. apply Z.ltb_lt. lia.
Qed.

(** A question answered by the scripted service in a new session, while
    a session idle since clock reading 0 is held. *)
Lemma chat_records_exchange_witness :
  let self := new Simulation.service None in
  let w := Simulation.world 5000000 [] [] in
  let conversations : Conversations := {[ "idle"%string := [mkMessage user "hello" 0] ]} in
  let asked := [mkMessage user "pricing?" 5000000] in
  let w' := snd (Simulation.service (chatRequest self "docs" "pricing?" asked) w) in
  ∃ conversations',
    chat self "s1" "docs" "pricing?" conversations w = (inl "42"%string, conversations', w') ∧
    getConversation "s1" conversations' = asked ++ [mkMessage assistant "42" 5000000].
Proof.
  intros self w conversations asked w'.
  destruct (chat_records_exchange self "s1" "docs" "pricing?" conversations w w'
              Simulation.okResponse eq_refl)
    as (conversations' & Hchat & _ & Hsession & _).
  exists conversations'. split; [exact Hchat | exact Hsession].
Defined.

(** The scripted service fails with a 500 in an existing session. *)
Lemma chat_failure_keeps_question_witness :
  let self := new Simulation.service None in
  let w := Simulation.world 1000 [Thrown (Simulation.sdkError 500 None)] [] in
  let conversations : Conversations := {[ "s1"%string := [mkMessage user "hello" 0] ]} in
  let asked := [mkMessage user "hello" 0; mkMessage user "pricing?" 1000] in
  let w' := snd (Simulation.service (chatRequest self "docs" "pricing?" asked) w) in
  ∃ conversations',
    chat self "s1" "docs" "pricing?" conversations w
      = (inr (Simulation.sdkError 500 None), conversations', w') ∧
    conversations' !! "s1"%string = Some asked.
Proof.
  intros self w conversations asked w'.
  destruct (chat_failure_keeps_question self "s1" "docs" "pricing?" conversations w w'
              (Simulation.sdkError 500 None) eq_refl)
    as (conversations' & Hchat & Hsession & _).
  exists conversations'. split; [exact Hchat | exact Hsession].
Defined.

(** Cleaning at clock readings 4000000 and 5000000. *)
Lemma cleanup_keeps_active_sessions_witness :
  let conversations : Conversations := {[ "idle"%string := [mkMessage user "hello" 0] ]} in
  4000000 ≤ 5000000 ∧
  cleanOldConversations 5000000 (cleanOldConversations 4000000 conversations)
    = cleanOldConversations 5000000 conversations.
Proof.
  intros conversations. split; [lia |].
  refine (proj2 (cleanup_keeps_active_sessions 4000000 5000000 conversations _)). lia.
Defined.

End ConversationRuns.

(** ** Monitoring: the health status *)

Module HealthRuns.
Import MonitoredVantigeClient Behaviour.

(** A share E / N is below 1 / k exactly when k * E is below N. *)
Lemma share_below (E N : Z) (k : positive) :
  0 < N →
  ((inject_Z E / inject_Z N < 1 # k)%Q ↔ Z.pos k * E < N).
Proof.
  intros Hpos. destruct N as [| p | p]; [lia | | lia].
  unfold Qdiv, Qinv, inject_Z, Qmult, Qlt. cbn. lia.
Qed.

Section WithEnv.
Context {W : Type} `{Env W}.
Variable self : t (W := W).

(** X25.  The health status of a fresh monitor after N >= 1 calls, with
    N <= windowSize, the last of which succeeded or failed with a
    classified error, is determined by the number E of calls that failed
    with a classified error: healthy when fewer than one call in a
    hundred did, degraded from there up to fewer than one in ten, and
    unhealthy from one in ten on. *)
Theorem health_follows_error_share (st : State) (calls : list (QueryParams * W))
    (last : QueryParams * W) :
  let all := calls ++ [last] in
  let st' := monitorAfter self all st in
  let N := Z.of_nat (length all) in
  let E := classifiedFailures (client self) all in
  requests st = 0 → totalErrors (metrics st) = 0 →
  N <= windowSize self →
  (∀ errno msg, outcomeOf (client self) last ≠ Thrown (PlainError errno msg)) →
  (getHealthStatus st' = healthy ↔ 100 * E < N) ∧
  (getHealthStatus st' = degraded ↔ N <= 100 * E ∧ 10 * E < N) ∧
  (getHealthStatus st' = unhealthy ↔ N <= 10 * E).
Proof.
  intros all st' N E Hreq Herr Hwin Hlast.
  assert (0 < N) as HNpos.
  { unfold N, all. rewrite length_app. cbn [length]. lia. }
  assert (0 <= E) as HEpos by (unfold E, classifiedFailures; lia).
  assert (errorRate (metrics st') = (inject_Z E / inject_Z N)%Q) as Hrate.
  { destruct (MonitorProperties.calls_counts self all st) as [HN HE].
    cbv zeta in HN, HE. rewrite Hreq in HN. rewrite Herr in HE. cbn in HN, HE.
    destruct (MonitorProperties.calls_counts self calls st) as [HN1 _].
    cbv zeta in HN1. rewrite Hreq in HN1. cbn in HN1.
    unfold st', all. rewrite MonitorProperties.monitorAfter_app.
    rewrite MonitorProperties.call_rate; [| done | rewrite HN1; unfold N, all in *;
      rewrite length_app in *; cbn [length] in *; lia].
    rewrite <- MonitorProperties.monitorAfter_app. fold all. rewrite HE, HN.
    fold E N. by rewrite Z.min_l by lia. }
  pose proof (share_below E N 100 HNpos) as H100.
  pose proof (share_below E N 10 HNpos) as H10.
  unfold getHealthStatus. rewrite Hrate.
  destruct (Qlt_le_dec (inject_Z E / inject_Z N) (1 # 100)) as [Hlow | Hhigh].
  - apply H100 in Hlow. split; [| split]; (split; intros ?; first [done | lia]).
  - assert (¬ 100 * E < N) as Hnot100.
    { intros Hlt. apply H100 in Hlt. by apply Qle_not_lt in Hhigh. }
    destruct (Qlt_le_dec (inject_Z E / inject_Z N) (1 # 10)) as [Hmid | Hbad].
    + apply H10 in Hmid. split; [| split]; (split; intros ?; first [done | lia]).
    + assert (¬ 10 * E < N) as Hnot10.
      { intros Hlt. apply H10 in Hlt. by apply Qle_not_lt in Hbad. }
      split; [| split]; (split; intros ?; first [done | lia]).
Qed.

End WithEnv.

(** One success, then one 500, on a fresh default monitor: one call in
    two failed, the monitor is unhealthy. *)
Lemma health_follows_error_share_witness :
  let self := new Simulation.service None in
  let ok := (Simulation.pricing, Simulation.world 10 [] []) in
  let ko := (Simulation.pricing,
             Simulation.world 20 [Thrown (Simulation.sdkError 500 None)] []) in
  getHealthStatus (monitorAfter self [ok; ko] initial) = unhealthy.
Proof.
  intros self ok ko.
  refine (proj2 (proj2 (proj2
    (health_follows_error_share self initial [ok] ko _ _ _ _))) _).
  - reflexivity.
  - reflexivity.
  - cbn. lia.
  - intros errno msg Heq. discriminate Heq.
  - vm_compute. discriminate.
Defined.

End HealthRuns.
